(** * AIMLAB-XR-Wireless: the two project restructuring scripts

    A shallow embedding of [clean.py] and [restructure_project.py].  Both
    scripts define a class [ProjectRestructurer] whose [run] method creates a
    fixed directory tree below a base path, copies known asset files from two
    legacy folders, and writes generated configuration and documentation
    files.  Every operation is a call into [pathlib], [shutil], [json] or
    [open]; those calls are modelled here on an explicit file-system state.

    - The file system is a finite map from paths to nodes.  A node is a
      directory or a regular file with its bytes.  Time stamps, permission
      bits and symbolic links are not recorded.
    - A path is the list of its components, *innermost first*:
      [base/src/utils] is ["utils" :: "src" :: base].  Taking the parent is
      taking the tail, and "q lies at or below p" is "p is a suffix of q".
    - A method is a function from the state to an outcome: a value or the
      exception raised, the state left behind, and the lines printed. *)

From stdpp Require Import gmap strings list fin_maps pretty.

Open Scope string_scope.

(** ** Paths and the file-system state *)

Abbreviation path := (list string).

Inductive node :=
  | File (data : string)
  | Dir.

Global Instance node_eq_dec : EqDecision node.
Proof. solve_decision. Defined.

Abbreviation FS := (gmap (list string) node).

(** [p </> name] is [p / name] of pathlib. *)
Definition joinname (p : path) (name : string) : path := name :: p.
Infix "</>" := joinname (at level 40, left associativity).

(** [dest / rel] for a relative path [rel] of several components. *)
Definition joinpath (p rel : path) : path := rel ++ p.

(** [p.parent]; the parent of the root is the root. *)
Definition parent (p : path) : path := tail p.

(** [p.name], [os.path.basename p]. *)
Definition name_of (p : path) : string := default "" (head p).

Definition is_dir_at (s : FS) (p : path) : bool :=
  match s !! p with Some Dir => true | _ => false end.

Definition is_file_at (s : FS) (p : path) : bool :=
  match s !! p with Some (File _) => true | _ => false end.

Definition exists_at (s : FS) (p : path) : bool :=
  match s !! p with Some _ => true | None => false end.

(** A state is well formed when every entry other than the root sits in a
    directory.  Real file systems are; the operations below preserve it. *)
Definition parent_ok (s : FS) (p : path) : Prop :=
  match p with
  | [] => True
  | _ :: q => s !! q = Some Dir
  end.

Global Instance parent_ok_dec s p : Decision (parent_ok s p).
Proof. destruct p; simpl; apply _. Defined.

Definition wf (s : FS) : Prop := map_Forall (λ p _, parent_ok s p) s.

Global Instance wf_dec s : Decision (wf s).
Proof. unfold wf. apply _. Defined.

(** ** Outcomes and the monad of methods *)

Inductive exn :=
  | FileExistsError
  | FileNotFoundError
  | NotADirectoryError
  | IsADirectoryError
  | SameFileError
  | ValueError
  | SystemExit (code : nat).

Global Instance exn_eq_dec : EqDecision exn.
Proof. solve_decision. Defined.

Inductive result (A : Type) :=
  | Ok (a : A)
  | Raise (e : exn).
Arguments Ok {A} a.
Arguments Raise {A} e.

Record outcome (A : Type) := Outcome {
  res : result A;
  fs_of : FS;
  out_of : list string
}.
Arguments Outcome {A} res fs_of out_of.
Arguments res {A} o.
Arguments fs_of {A} o.
Arguments out_of {A} o.

Definition M (A : Type) : Type := FS → outcome A.

Definition ret {A} (a : A) : M A := λ s, Outcome (Ok a) s [].

Definition raise {A} (e : exn) : M A := λ s, Outcome (Raise e) s [].

Definition bind {A B} (m : M A) (f : A → M B) : M B := λ s,
  let o := m s in
  match res o with
  | Raise e => Outcome (Raise e) (fs_of o) (out_of o)
  | Ok a =>
      let o' := f a (fs_of o) in
      Outcome (res o') (fs_of o') (out_of o ++ out_of o')
  end.

Notation "'let*' x := m 'in' k" := (bind m (λ x, k))
  (at level 10, x name, m at level 100, k at level 200).
Notation "m ;; k" := (bind m (λ _, k))
  (at level 100, k at level 200, right associativity).

(** [try: m except e: h e]. *)
Definition catch {A} (m : M A) (h : exn → M A) : M A := λ s,
  let o := m s in
  match res o with
  | Ok _ => o
  | Raise e =>
      let o' := h e (fs_of o) in
      Outcome (res o') (fs_of o') (out_of o ++ out_of o')
  end.

Definition gets {A} (f : FS → A) : M A := λ s, Outcome (Ok (f s)) s [].

Definition print (line : string) : M unit := λ s, Outcome (Ok tt) s [line].

Definition when (b : bool) (m : M unit) : M unit := if b then m else ret tt.

(** [for x in xs: body x]. *)
Fixpoint for_each {A} (xs : list A) (body : A → M unit) : M unit :=
  match xs with
  | [] => ret tt
  | x :: xs' => body x ;; for_each xs' body
  end.

(** ** The library calls the scripts make *)

(** [Path.exists], [Path.is_dir], [Path.is_file]. *)
Definition path_exists (p : path) : M bool := gets (λ s, exists_at s p).
Definition is_dir (p : path) : M bool := gets (λ s, is_dir_at s p).
Definition is_file (p : path) : M bool := gets (λ s, is_file_at s p).

(** On the way up from [p], the first entry that exists is a regular file:
    the path runs through something that is no directory. *)
Fixpoint under_file (s : FS) (p : path) : bool :=
  match p with
  | [] => false
  | _ :: q =>
      match s !! q with
      | Some (File _) => true
      | Some Dir => false
      | None => under_file s q
      end
  end.

(** What a call raises for a path whose parent is missing: [ENOTDIR] when
    the path runs through a regular file, [ENOENT] otherwise. *)
Definition missing_parent (s : FS) (p : path) : exn :=
  if under_file s p then NotADirectoryError else FileNotFoundError.

(** [os.mkdir p]: the entry must be new and its parent a directory. *)
Definition os_mkdir (p : path) : M unit := λ s,
  match s !! p with
  | Some _ => raise FileExistsError s
  | None =>
      match s !! parent p with
      | Some Dir => Outcome (Ok tt) (<[p := Dir]> s) []
      | Some (File _) => raise NotADirectoryError s
      | None => raise (missing_parent s p) s
      end
  end.

(** The [except OSError] branch of [Path.mkdir]: the error is raised again
    unless [exist_ok] holds and the path is a directory. *)
Definition swallow_if_dir (exist_ok : bool) (p : path) (e : exn) : M unit :=
  let* d := is_dir p in
  if negb exist_ok || negb d then raise e else ret tt.

(** [Path.mkdir(parents=False, exist_ok=...)]: a missing parent is raised
    again. *)
Definition mkdir_here (exist_ok : bool) (p : path) : M unit :=
  catch (os_mkdir p) (λ e,
    match e with
    | FileNotFoundError => raise e
    | _ => swallow_if_dir exist_ok p e
    end).

(** [Path.mkdir(parents=True, exist_ok=...)]: on a missing parent, make the
    parent with [parents=True, exist_ok=True] and try again without
    [parents]. *)
Fixpoint mkdir_parents (exist_ok : bool) (p : path) : M unit :=
  catch (os_mkdir p) (λ e,
    match e with
    | FileNotFoundError =>
        match p with
        | [] => raise e
        | _ :: q => mkdir_parents true q ;; mkdir_here exist_ok p
        end
    | _ => swallow_if_dir exist_ok p e
    end).

Definition mkdir (parents exist_ok : bool) (p : path) : M unit :=
  if parents then mkdir_parents exist_ok p else mkdir_here exist_ok p.

(** [open(p, "rb").read()]. *)
Definition read_file (p : path) : M string := λ s,
  match s !! p with
  | Some (File data) => Outcome (Ok data) s []
  | Some Dir => raise IsADirectoryError s
  | None =>
      match s !! parent p with
      | Some (File _) => raise NotADirectoryError s
      | _ => raise (missing_parent s p) s
      end
  end.

(** [open(p, "w")] followed by writing [data] and closing: the file is
    created or truncated, then holds exactly [data]. *)
Definition write_file (p : path) (data : string) : M unit := λ s,
  match s !! p with
  | Some Dir => raise IsADirectoryError s
  | Some (File _) => Outcome (Ok tt) (<[p := File data]> s) []
  | None =>
      match s !! parent p with
      | Some Dir => Outcome (Ok tt) (<[p := File data]> s) []
      | Some (File _) => raise NotADirectoryError s
      | None => raise (missing_parent s p) s
      end
  end.

(** [shutil.copyfile]: refuses to copy a file onto itself, opens the source,
    then the destination. *)
Definition copyfile (src dst : path) : M unit :=
  let* same := gets (λ s, bool_decide (src = dst) && exists_at s src) in
  if same then raise SameFileError
  else
    let* data := read_file src in
    write_file dst data.

(** [shutil.copy2 src dst]: when [dst] is a directory the file goes *into*
    it under the source's base name.  ([copystat] changes no bytes.) *)
Definition copy2 (src dst : path) : M unit :=
  let* d := is_dir dst in
  let dst := if d then dst </> name_of src else dst in
  copyfile src dst.

(** [item.relative_to(src)]. *)
Definition relative_to (item src : path) : M path :=
  if bool_decide (src `suffix_of` item)
  then ret (take (length item - length src) item)
  else raise ValueError.

(** [src.rglob("*")]: every entry strictly below [src], none when [src] is
    not a directory.  The order is the file system's own; it is that of the
    entries below [src], whatever lies elsewhere. *)
Definition below (src : path) (e : path * node) : Prop :=
  src `suffix_of` e.1 ∧ e.1 ≠ src.

Global Instance below_dec src e : Decision (below src e).
Proof. unfold below. apply _. Defined.

Definition rglob (src : path) : M (list path) := gets (λ s,
  if is_dir_at s src
  then (map_to_list (filter (below src) s)).*1
  else []).

Definition path_str (p : path) : string := String.concat "/" (rev p).

(** The line feed and the double quote, for the text the scripts print and
    write. *)
Definition nl : string := String (Ascii.ascii_of_nat 10) EmptyString.
Definition dq : string := String (Ascii.ascii_of_nat 34) EmptyString.

(** ** The class, as both scripts define it *)

Record ProjectRestructurer := {
  base_path : path;
  new_structure : list (string * list string)
}.

Definition __init__ (base_path : path) : ProjectRestructurer := {|
  base_path := base_path;
  new_structure :=
    [("public", ["assets"; "models"; "textures"; "audio"]);
     ("src", ["components"; "utils"; "styles"]);
     ("docs", [])]
|}.

Definition create_directory_structure (self : ProjectRestructurer) : M unit :=
  print "🏗️  Creating new directory structure..." ;;
  for_each (new_structure self) (λ '(main_dir, subdirs),
    let main_path := base_path self </> main_dir in
    mkdir false true main_path ;;
    for_each subdirs (λ subdir,
      let sub_path := main_path </> subdir in
      mkdir false true sub_path ;;
      print ("   ✅ Created: " ++ path_str sub_path))).

Definition _move_media_files (self : ProjectRestructurer) : M unit :=
  let texture_sources :=
    [(base_path self </> "webxr-samples-main" </> "media" </> "textures",
      base_path self </> "public" </> "textures");
     (base_path self </> "webxr-samples-main" </> "media" </> "gltf",
      base_path self </> "public" </> "models")] in
  for_each texture_sources (λ '(src, dest),
    let* e := path_exists src in
    when e (
      (let* items := rglob src in
       for_each items (λ item,
         let* f := is_file item in
         when f (
           let* relative_path := relative_to item src in
           let dest_file := joinpath dest relative_path in
           mkdir true true (parent dest_file) ;;
           copy2 item dest_file))) ;;
      print ("   ✅ Moved media from: " ++ name_of src))).

Definition aframe_components : list string :=
  ["pinchable.js"; "color-change.js"; "slider.js";
   "size-change.js"; "button.js"; "menu.js";
   "pressable.js"; "event-manager.js"; "info-message.js"].

Definition util_files : list string := ["hit-test.js"; "stereo-util.js"].

Definition move_assets (self : ProjectRestructurer) : M unit :=
  print (nl ++ "📦 Organizing assets...") ;;
  let src_components := base_path self </> "src" </> "components" in
  for_each aframe_components (λ component,
    let src_file := base_path self </> "Campus-Tour-NYUAD-main" </> component in
    let* e := path_exists src_file in
    when e (
      let dest_file := src_components </> component in
      copy2 src_file dest_file ;;
      print ("   ✅ Moved component: " ++ component))) ;;
  let webxr_utils := base_path self </> "webxr-samples-main" </> "js" in
  (let* e := path_exists webxr_utils in
   when e (
     let utils_dest := base_path self </> "src" </> "utils" in
     for_each util_files (λ util_file,
       let src_file := webxr_utils </> util_file in
       let* e := path_exists src_file in
       when e (
         copy2 src_file (utils_dest </> util_file) ;;
         print ("   ✅ Moved utility: " ++ util_file))))) ;;
  _move_media_files self.

(** ** [json.dump(obj, f, indent=2)] *)

Local Unset Elimination Schemes.
Inductive json :=
  | JString (s : string)
  | JInt (n : Z)
  | JList (items : list json)
  | JDict (items : list (string * json)).
Local Set Elimination Schemes.

Definition hex_digit (n : nat) : string :=
  match n with
  | 0 => "0" | 1 => "1" | 2 => "2" | 3 => "3" | 4 => "4" | 5 => "5"
  | 6 => "6" | 7 => "7" | 8 => "8" | 9 => "9" | 10 => "a" | 11 => "b"
  | 12 => "c" | 13 => "d" | 14 => "e" | _ => "f"
  end.

(** The encoder's [ensure_ascii] escapes: the quote and the backslash, the
    short forms of five control characters, and [\u00xx] for every other
    character outside [' '..'~'].  A character of a Rocq string is a code
    point below 256. *)
Definition escape_char (c : Ascii.ascii) : string :=
  let n := Ascii.nat_of_ascii c in
  if (n =? 34)%nat then "\" ++ dq
  else if (n =? 92)%nat then "\\"
  else if (n =? 10)%nat then "\n"
  else if (n =? 13)%nat then "\r"
  else if (n =? 9)%nat then "\t"
  else if (n =? 8)%nat then "\b"
  else if (n =? 12)%nat then "\f"
  else if ((32 <=? n) && (n <=? 126))%nat then String c EmptyString
  else "\u00" ++ hex_digit (n / 16)%nat ++ hex_digit (n mod 16)%nat.

Fixpoint escape (s : string) : string :=
  match s with
  | EmptyString => EmptyString
  | String c r => escape_char c ++ escape r
  end.

Definition encode_string (s : string) : string := dq ++ escape s ++ dq.

Fixpoint spaces (n : nat) : string :=
  match n with
  | 0 => EmptyString
  | S n' => " " ++ spaces n'
  end.

Definition newline_indent (indent level : nat) : string :=
  nl ++ spaces (indent * level).

(** The encoder at nesting depth [level]: an empty list or dict stays on one
    line; otherwise each item goes on its own line, one level deeper, with a
    comma after all but the last; a dict keeps its insertion order. *)
Fixpoint iterencode (indent level : nat) (o : json) : string :=
  match o with
  | JString s => encode_string s
  | JInt n => pretty n
  | JList [] => "[]"
  | JList items =>
      "[" ++ newline_indent indent (S level)
      ++ String.concat ("," ++ newline_indent indent (S level))
           (List.map (iterencode indent (S level)) items)
      ++ newline_indent indent level ++ "]"
  | JDict [] => "{}"
  | JDict items =>
      "{" ++ newline_indent indent (S level)
      ++ String.concat ("," ++ newline_indent indent (S level))
           (List.map (λ kv, encode_string (fst kv) ++ ": "
                            ++ iterencode indent (S level) (snd kv)) items)
      ++ newline_indent indent level ++ "}"
  end.

Definition json_dump (obj : json) (p : path) (indent : nat) : M unit :=
  write_file p (iterencode indent 0 obj).

(** ** Reading a descriptor back

    The scripts only write.  To say what a reader of a generated file gets,
    here is the reading side for the values above: JSON objects, arrays,
    strings and integers, with the escapes the encoder produces. *)

Definition is_ws (c : Ascii.ascii) : bool :=
  let n := Ascii.nat_of_ascii c in
  ((n =? 32) || (n =? 10) || (n =? 13) || (n =? 9))%nat.

Fixpoint skip_ws (s : string) : string :=
  match s with
  | String c r => if is_ws c then skip_ws r else s
  | EmptyString => EmptyString
  end.

Definition hex_value (c : Ascii.ascii) : option nat :=
  let n := Ascii.nat_of_ascii c in
  if ((48 <=? n) && (n <=? 57))%nat then Some (n - 48)%nat
  else if ((97 <=? n) && (n <=? 102))%nat then Some (n - 87)%nat
  else if ((65 <=? n) && (n <=? 70))%nat then Some (n - 55)%nat
  else None.

Definition unescape (c : Ascii.ascii) : option Ascii.ascii :=
  let n := Ascii.nat_of_ascii c in
  if (n =? 34)%nat then Some c
  else if (n =? 92)%nat then Some c
  else if (n =? 47)%nat then Some c
  else if (n =? 110)%nat then Some (Ascii.ascii_of_nat 10)
  else if (n =? 114)%nat then Some (Ascii.ascii_of_nat 13)
  else if (n =? 116)%nat then Some (Ascii.ascii_of_nat 9)
  else if (n =? 98)%nat then Some (Ascii.ascii_of_nat 8)
  else if (n =? 102)%nat then Some (Ascii.ascii_of_nat 12)
  else None.

(** The characters of a string literal after its opening quote, and what
    follows the closing quote. *)
Fixpoint scan_string (s : string) : option (string * string) :=
  match s with
  | EmptyString => None
  | String c r =>
      if (Ascii.nat_of_ascii c =? 34)%nat then Some (EmptyString, r)
      else if (Ascii.nat_of_ascii c =? 92)%nat then
        match r with
        | String e r' =>
            if (Ascii.nat_of_ascii e =? 117)%nat then
              match r' with
              | String h1 (String h2 (String h3 (String h4 r''))) =>
                  match hex_value h1, hex_value h2, hex_value h3, hex_value h4 with
                  | Some 0%nat, Some 0%nat, Some a, Some b =>
                      match scan_string r'' with
                      | Some (str, rest) =>
                          Some (String (Ascii.ascii_of_nat (16 * a + b)) str, rest)
                      | None => None
                      end
                  | _, _, _, _ => None
                  end
              | _ => None
              end
            else
              match unescape e, scan_string r' with
              | Some ch, Some (str, rest) => Some (String ch str, rest)
              | _, _ => None
              end
        | EmptyString => None
        end
      else
        match scan_string r with
        | Some (str, rest) => Some (String c str, rest)
        | None => None
        end
  end.

Fixpoint scan_digits (s : string) (acc : Z) : Z * string :=
  match s with
  | String c r =>
      let n := Ascii.nat_of_ascii c in
      if ((48 <=? n) && (n <=? 57))%nat
      then scan_digits r (10 * acc + Z.of_nat (n - 48))%Z
      else (acc, s)
  | EmptyString => (acc, s)
  end.

Definition is_digit (c : Ascii.ascii) : bool :=
  let n := Ascii.nat_of_ascii c in ((48 <=? n) && (n <=? 57))%nat.

Definition scan_int (s : string) : option (json * string) :=
  match s with
  | String c r =>
      if (Ascii.nat_of_ascii c =? 45)%nat then
        match r with
        | String d _ =>
            if is_digit d
            then let '(n, rest) := scan_digits r 0%Z in Some (JInt (- n)%Z, rest)
            else None
        | EmptyString => None
        end
      else if is_digit c
      then let '(n, rest) := scan_digits s 0%Z in Some (JInt n, rest)
      else None
  | EmptyString => None
  end.

Definition starts_with (n : nat) (s : string) : option string :=
  match s with
  | String c r => if (Ascii.nat_of_ascii c =? n)%nat then Some r else None
  | EmptyString => None
  end.

Fixpoint parse_value (fuel : nat) (s : string) : option (json * string) :=
  match fuel with
  | 0 => None
  | S fuel' =>
      match skip_ws s with
      | EmptyString => None
      | String c r =>
          let n := Ascii.nat_of_ascii c in
          if (n =? 34)%nat then
            match scan_string r with
            | Some (str, rest) => Some (JString str, rest)
            | None => None
            end
          else if (n =? 91)%nat then
            match starts_with 93 (skip_ws r) with
            | Some rest => Some (JList [], rest)
            | None => parse_items fuel' r []
            end
          else if (n =? 123)%nat then
            match starts_with 125 (skip_ws r) with
            | Some rest => Some (JDict [], rest)
            | None => parse_members fuel' r []
            end
          else scan_int (String c r)
      end
  end
with parse_items (fuel : nat) (s : string) (acc : list json)
    : option (json * string) :=
  match fuel with
  | 0 => None
  | S fuel' =>
      match parse_value fuel' s with
      | None => None
      | Some (v, r) =>
          match starts_with 44 (skip_ws r), starts_with 93 (skip_ws r) with
          | Some rest, _ => parse_items fuel' rest (v :: acc)
          | None, Some rest => Some (JList (rev (v :: acc)), rest)
          | None, None => None
          end
      end
  end
with parse_members (fuel : nat) (s : string) (acc : list (string * json))
    : option (json * string) :=
  match fuel with
  | 0 => None
  | S fuel' =>
      match starts_with 34 (skip_ws s) with
      | None => None
      | Some r0 =>
          match scan_string r0 with
          | None => None
          | Some (key, r1) =>
              match starts_with 58 (skip_ws r1) with
              | None => None
              | Some r2 =>
                  match parse_value fuel' r2 with
                  | None => None
                  | Some (v, r) =>
                      match starts_with 44 (skip_ws r),
                            starts_with 125 (skip_ws r) with
                      | Some rest, _ =>
                          parse_members fuel' rest ((key, v) :: acc)
                      | None, Some rest =>
                          Some (JDict (rev ((key, v) :: acc)), rest)
                      | None, None => None
                      end
                  end
              end
          end
      end
  end.

Definition json_loads (text : string) : option json :=
  match parse_value (2 * String.length text) text with
  | Some (v, rest) =>
      match skip_ws rest with
      | EmptyString => Some v
      | _ => None
      end
  | None => None
  end.

(** The field names of an object, in order. *)
Definition keys (o : json) : list string :=
  match o with
  | JDict items => List.map fst items
  | _ => []
  end.

(** ** The command line

    Both scripts build an [argparse] parser with the one option [--path]
    (default ["."]); [argparse] adds [-h] and [--help].  [parse_args] reads
    the arguments from left to right:
    - [-h] or [--help] prints the help text and ends the process with
      status 0, before [run] is called;
    - [--path VALUE] and [--path=VALUE] set the path, the last one wins;
    - an argument that is no option is kept aside, and at the end makes
      [parse_args] print a usage error and end the process with status 2;
      so does [--path] with no value after it.
    The text [argparse] prints (on standard output for the help, on standard
    error for a usage error) depends on the name of the program and the width
    of the terminal and is not modelled.  Neither are the other spellings
    [argparse] accepts or refuses (abbreviated options, a value that starts
    with a dash, [--]): for those the result is [None]. *)

Inductive parsed :=
  | Run_with (path_text : string)
  | Help
  | Usage_error.

Fixpoint strip_prefix (pre s : string) : option string :=
  match pre, s with
  | EmptyString, _ => Some s
  | String a pre', String b s' =>
      if Ascii.eqb a b then strip_prefix pre' s' else None
  | String _ _, EmptyString => None
  end.

Definition dashed_by (pre t : string) : bool :=
  match strip_prefix pre t with Some _ => true | None => false end.

(** The argument starts with a dash. *)
Definition dashed (t : string) : bool := dashed_by "-" t.

Fixpoint parse_from (argv : list string) (path_text : string) (extras : bool)
    : option parsed :=
  match argv with
  | [] => Some (if extras then Usage_error else Run_with path_text)
  | t :: rest =>
      if String.eqb t "-h" || String.eqb t "--help" then Some Help
      else if String.eqb t "--path" then
        match rest with
        | [] => Some Usage_error
        | v :: rest' =>
            if dashed v then None else parse_from rest' v extras
        end
      else
        match strip_prefix "--path=" t with
        | Some v => parse_from rest v extras
        | None => if dashed t then None else parse_from rest path_text true
        end
  end.

Definition parse_args (argv : list string) : option parsed :=
  parse_from argv "." false.

(** [Path(text)].  The root [[]] of the modelled tree is the working
    directory of the process, and a path is the list of the components of a
    relative path, as [pathlib] keeps them: empty components and [.] are
    dropped, so [Path(".")] is [[]] and prints nothing in front of what is
    joined to it.  An absolute text, or one with a [..] in it, is not
    covered: [None]. *)
Fixpoint parts_from (text cur : string) : list string :=
  match text with
  | EmptyString => [cur]
  | String c text' =>
      if Ascii.eqb c (Ascii.ascii_of_nat 47) then cur :: parts_from text' ""
      else parts_from text' (cur ++ String c "")
  end.

Definition Path (text : string) : option path :=
  let parts :=
    filter (λ c, c ≠ "" ∧ c ≠ ".") (parts_from text "") in
  if dashed_by "/" text || bool_decide (".." ∈ parts) then None
  else Some (rev parts).

(** ** [clean.py] *)

Module Clean.

Definition package_json : json :=
  JDict
    [("name", JString "aimlab-xr-wireless");
     ("version", JString "1.0.0");
     ("description",
      JString "AIMLAB Wireless XR - Interactive AR Experience with Hand Tracking");
     ("author", JString "Pi Ko <pi.ko@nyu.edu>");
     ("license", JString "MIT");
     ("scripts",
      JDict
        [("dev", JString "npx serve .");
         ("build", JString "echo 'No build step required'");
         ("preview", JString "npx serve .")]);
     ("keywords",
      JList [JString "webxr"; JString "ar"; JString "vr";
             JString "hand-tracking"; JString "aframe"]);
     ("repository",
      JDict
        [("type", JString "git");
         ("url", JString "https://github.com/yourusername/aimlab-xr-wireless")])].

Definition vercel_config : json :=
  JDict
    [("version", JInt 2);
     ("builds",
      JList [JDict [("src", JString "index.html");
                    ("use", JString "@vercel/static")]]);
     ("routes",
      JList [JDict [("src", JString "/(.*)");
                    ("dest", JString "/$1")]]);
     ("headers",
      JList
        [JDict
           [("source", JString "/(.*)");
            ("headers",
             JList
               [JDict [("key", JString "Cross-Origin-Embedder-Policy");
                       ("value", JString "require-corp")];
                JDict [("key", JString "Cross-Origin-Opener-Policy");
                       ("value", JString "same-origin")]])]])].

(** [gitignore_content] of [create_config_files]. *)
Definition gitignore_content : string :=
"# Dependencies
node_modules/
npm-debug.log*
yarn-debug.log*
yarn-error.log*

# Build output
dist/
build/
.vercel/

# OS files
.DS_Store
Thumbs.db

# IDE files
.vscode/
.idea/
*.swp
*.swo

# Environment files
.env
.env.local
.env.production

# Temporary files
*.tmp
*.temp
".

Definition create_config_files (self : ProjectRestructurer) : M unit :=
  print (nl ++ "⚙️  Creating configuration files...") ;;
  json_dump package_json (base_path self </> "package.json") 2 ;;
  print "   ✅ Created package.json" ;;
  json_dump vercel_config (base_path self </> "vercel.json") 2 ;;
  print "   ✅ Created vercel.json" ;;
  write_file (base_path self </> ".gitignore") gitignore_content ;;
  print "   ✅ Created .gitignore".

(** [readme_content] of [create_documentation]. *)
Definition readme_content : string :=
"# AIMLAB Wireless XR

An interactive AR experience combining hand tracking with immersive augmented reality.

## 🚀 Features

- **Hand Tracking**: Natural hand gesture interactions
- **AR Passthrough**: See-through AR experience on compatible devices
- **Interactive Objects**: Pinchable and manipulable 3D objects
- **Planet System**: Animated solar system visualization
- **Control Panel**: Interactive UI elements in 3D space

## 🛠️ Technology Stack

- **A-Frame**: WebVR/AR framework
- **WebXR API**: Modern AR/VR web standard
- **Three.js**: 3D graphics (via A-Frame)

## 📁 Project Structure

```
aimlab-xr-wireless/
├── index.html          # Main application file
├── public/             # Static assets
│   ├── assets/        # General assets
│   ├── models/        # 3D models (GLTF)
│   ├── textures/      # Texture files
│   └── audio/         # Sound files
├── src/               # Source code
│   ├── components/    # A-Frame components
│   ├── utils/         # Utility functions
│   └── styles/        # CSS styles
├── docs/              # Documentation
├── package.json       # Project configuration
└── vercel.json        # Vercel deployment config
```

## 🚀 Quick Start

1. **Clone the repository**
   ```bash
   git clone https://github.com/yourusername/aimlab-xr-wireless
   cd aimlab-xr-wireless
   ```

2. **Install dependencies** (optional, for development server)
   ```bash
   npm install
   ```

3. **Run development server**
   ```bash
   npm run dev
   ```

4. **Open in browser**
   Navigate to `http://localhost:3000`

## 📱 AR Mode

To experience AR mode:
1. Open on a WebXR-compatible device (e.g., Meta Quest, Android with ARCore)
2. Click " ++ dq ++ "Enter AR Mode" ++ dq ++ " button
3. Use hand gestures to interact with objects

## 🎮 Controls

- **Pinch**: Grab and move objects
- **Point**: Interact with buttons
- **Look**: Gaze-based cursor control (fallback)

## 🌐 Deployment

### Deploy to Vercel

[![Deploy with Vercel](https://vercel.com/button)](https://vercel.com/new/clone?repository-url=https://github.com/yourusername/aimlab-xr-wireless)

Or manually:

```bash
npm i -g vercel
vercel
```

## 🤝 Contributing

Contributions are welcome! Please feel free to submit a Pull Request.

## 📄 License

This project is licensed under the MIT License.

## 👨‍💻 Author

**Pi Ko**  
Email: [pi.ko@nyu.edu](mailto:pi.ko@nyu.edu)

## 🙏 Acknowledgments

- A-Frame community for the excellent WebXR framework
- WebXR samples for reference implementations
- NYU Abu Dhabi for campus tour example code
".

(** [tech_doc] of [create_documentation]. *)
Definition tech_doc : string :=
"# Technical Documentation - AIMLAB XR Wireless

## Architecture Overview

The application uses a component-based architecture built on A-Frame, which abstracts WebXR APIs for easier development.

## Key Components

### 1. AR Session Manager
- Handles WebXR session initialization
- Manages AR/VR mode transitions
- Controls passthrough visibility

### 2. Interactive Components
- **interactive-button**: Touch-enabled 3D buttons
- **pinchable**: Hand-tracking grab interactions
- **planet-system**: Animated celestial bodies
- **aimlab-title**: 3D title animation

## WebXR Features Used

- `immersive-ar`: AR session mode
- `hand-tracking`: Hand pose detection
- `dom-overlay`: UI overlay in AR
- `hit-test`: Surface detection (future feature)
- `anchors`: Persistent AR anchors (future feature)

## Performance Considerations

1. **Texture Optimization**: Use compressed textures for better performance
2. **Model Complexity**: Keep polygon counts reasonable
3. **Update Loops**: Minimize per-frame calculations

## Browser Compatibility

- Chrome 79+ (Android)
- Edge 79+ (Windows Mixed Reality)
- Firefox Reality
- Oculus Browser
- Safari (WebXR Viewer app)

## Security Considerations

- HTTPS required for WebXR
- Permissions needed: Camera, Motion sensors
- CORS headers configured for asset loading
".

Definition create_documentation (self : ProjectRestructurer) : M unit :=
  print (nl ++ "📚 Creating documentation...") ;;
  write_file (base_path self </> "README.md") readme_content ;;
  print "   ✅ Created README.md" ;;
  let docs_path := base_path self </> "docs" in
  mkdir false true docs_path ;;
  write_file (docs_path </> "TECHNICAL.md") tech_doc ;;
  print "   ✅ Created technical documentation".

Definition old_dirs : list string :=
  ["Campus-Tour-NYUAD-main"; "webxr-samples-main"; ".git"].

(** The call to [shutil.rmtree] is commented out in the source: the loop
    body only prints. *)
Definition cleanup_old_files (self : ProjectRestructurer) : M unit :=
  print (nl ++ "🧹 Cleaning up old files...") ;;
  for_each old_dirs (λ old_dir,
    let dir_path := base_path self </> old_dir in
    let* e := path_exists dir_path in
    let* d := is_dir dir_path in
    when (e && d) (
      print ("   ⚠️  Would remove: " ++ old_dir ++ " (skipped for safety)"))).

Definition create_index_html (self : ProjectRestructurer) : M unit :=
  print (nl ++ "📄 Setting up main index.html...") ;;
  print "   ✅ index.html is ready at project root".

Definition run (self : ProjectRestructurer) : M unit :=
  print ("🚀 Starting AIMLAB XR Wireless project restructuring..." ++ nl) ;;
  create_directory_structure self ;;
  move_assets self ;;
  create_config_files self ;;
  create_documentation self ;;
  create_index_html self ;;
  cleanup_old_files self ;;
  print (nl ++ "✨ Project restructuring complete!") ;;
  print (nl ++ "📋 Next steps:") ;;
  print "   1. Copy the provided index.html to your project root" ;;
  print "   2. Review and update configuration files" ;;
  print "   3. Test locally with: npm run dev" ;;
  print "   4. Deploy to Vercel with: vercel".

(** The [__main__] block, for a command line the model covers. *)
Definition main (argv : list string) : option (M unit) :=
  args ← parse_args argv;
  match args with
  | Help => Some (raise (SystemExit 0))
  | Usage_error => Some (raise (SystemExit 2))
  | Run_with text =>
      base ← Path text;
      let restructurer := __init__ base in
      Some (run restructurer)
  end.

End Clean.

(** ** [restructure_project.py] *)

Module RestructureProject.

Definition package_json : json :=
  JDict
    [("name", JString "aimlab-xr-wireless");
     ("version", JString "1.0.0");
     ("description",
      JString "AIMLAB Wireless XR - Interactive AR Experience with Hand Tracking");
     ("author", JString "Pi Ko <pi.ko@nyu.edu>");
     ("license", JString "MIT");
     ("scripts",
      JDict
        [("dev", JString "npx serve .");
         ("build", JString "echo 'No build step required'");
         ("preview", JString "npx serve .")]);
     ("keywords",
      JList [JString "webxr"; JString "ar"; JString "vr";
             JString "hand-tracking"; JString "aframe"]);
     ("repository",
      JDict
        [("type", JString "git");
         ("url", JString "https://github.com/yourusername/aimlab-xr-wireless")])].

Definition vercel_config : json :=
  JDict
    [("version", JInt 2);
     ("builds",
      JList [JDict [("src", JString "index.html");
                    ("use", JString "@vercel/static")]]);
     ("routes",
      JList [JDict [("src", JString "/(.*)");
                    ("dest", JString "/$1")]]);
     ("headers",
      JList
        [JDict
           [("source", JString "/(.*)");
            ("headers",
             JList
               [JDict [("key", JString "Cross-Origin-Embedder-Policy");
                       ("value", JString "require-corp")];
                JDict [("key", JString "Cross-Origin-Opener-Policy");
                       ("value", JString "same-origin")];
                 JDict [("key", JString "Permissions-Policy");
                        ("value", JString "xr-spatial-tracking=(self)")]])]])].

Definition create_config_files (self : ProjectRestructurer) : M unit :=
  print (nl ++ "⚙️  Creating configuration files...") ;;
  json_dump package_json (base_path self </> "package.json") 2 ;;
  print "   ✅ Updated package.json" ;;
  json_dump vercel_config (base_path self </> "vercel.json") 2 ;;
  print "   ✅ Updated vercel.json".

(** [readme_content] of [create_documentation]. *)
Definition readme_content : string :=
"# AIMLAB Wireless XR

An interactive AR experience combining hand tracking with immersive augmented reality.

## 🚀 Features

- **Hand Tracking**: Natural hand gesture interactions
- **AR Passthrough**: See-through AR experience on compatible devices
- **Interactive Objects**: Pinchable and manipulable 3D objects
- **Planet System**: Animated solar system visualization
- **Control Panel**: Interactive UI elements in 3D space

## 🛠️ Technology Stack

- **A-Frame**: WebVR/AR framework
- **WebXR API**: Modern AR/VR web standard
- **Three.js**: 3D graphics (via A-Frame)

## 🚀 Quick Start

1. **Run development server**
   ```bash
   npm run dev
   ```

2. **Open in browser**
   Navigate to `http://localhost:3000`

## 📱 AR Mode

To experience AR mode:
1. Open on a WebXR-compatible device
2. Click " ++ dq ++ "Enter AR Mode" ++ dq ++ " button
3. Use hand gestures to interact with objects

## 🌐 Deployment

Deploy to Vercel:
```bash
npm i -g vercel
vercel
```

## 👨‍💻 Author

**Pi Ko**  
Email: [pi.ko@nyu.edu](mailto:pi.ko@nyu.edu)
".

Definition create_documentation (self : ProjectRestructurer) : M unit :=
  print (nl ++ "📚 Creating documentation...") ;;
  write_file (base_path self </> "README.md") readme_content ;;
  print "   ✅ Updated README.md".

Definition run (self : ProjectRestructurer) : M unit :=
  print ("🚀 Starting AIMLAB XR Wireless project restructuring..." ++ nl) ;;
  create_directory_structure self ;;
  move_assets self ;;
  create_config_files self ;;
  create_documentation self ;;
  print (nl ++ "✨ Project restructuring complete!") ;;
  print (nl ++ "📋 Next steps:") ;;
  print "   1. Test locally with: npm run dev" ;;
  print "   2. Deploy to Vercel with: vercel".

(** The [__main__] block, for a command line the model covers. *)
Definition main (argv : list string) : option (M unit) :=
  args ← parse_args argv;
  match args with
  | Help => Some (raise (SystemExit 0))
  | Usage_error => Some (raise (SystemExit 2))
  | Run_with text =>
      base ← Path text;
      let restructurer := __init__ base in
      Some (run restructurer)
  end.

End RestructureProject.


(** * Reasoning about methods *)

Open Scope list_scope.

(** ** Sequencing *)

Lemma bind_res_ok {A B : Type} (m : M A) (f : A → M B) s b :
  res (bind m f s) = Ok b →
  ∃ a, res (m s) = Ok a ∧ res (f a (fs_of (m s))) = Ok b
       ∧ fs_of (bind m f s) = fs_of (f a (fs_of (m s))).
Proof.
  unfold bind. destruct (res (m s)) as [a|e] eqn:E; simpl; [|done].
  intros H. exists a. done.
Qed.

Lemma bind_ok_eq {A B : Type} (m : M A) (f : A → M B) s a :
  res (m s) = Ok a →
  res (bind m f s) = res (f a (fs_of (m s)))
  ∧ fs_of (bind m f s) = fs_of (f a (fs_of (m s))).
Proof. unfold bind. intros ->. done. Qed.

Lemma bind_raise_eq {A B : Type} (m : M A) (f : A → M B) s e :
  res (m s) = Raise e →
  res (bind m f s) = Raise e ∧ fs_of (bind m f s) = fs_of (m s).
Proof. unfold bind. intros ->. done. Qed.

Lemma bind_gets {A B : Type} (g : FS → A) (f : A → M B) s :
  bind (gets g) f s = f (g s) s.
Proof. unfold bind, gets. simpl. by destruct (f (g s) s). Qed.

Lemma bind_ret {A B : Type} (a : A) (f : A → M B) s :
  bind (ret a) f s = f a s.
Proof. unfold bind, ret. simpl. by destruct (f a s). Qed.

Lemma print_then_res {B : Type} line (m : M B) s :
  res ((print line ;; m) s) = res (m s).
Proof. done. Qed.


Lemma seq_res {B : Type} (m1 : M unit) (m2 : M B) s :
  res (m1 s) = Ok tt → res ((m1 ;; m2) s) = res (m2 (fs_of (m1 s))).
Proof. intros H. by destruct (bind_ok_eq m1 (λ _, m2) s tt H) as [-> _]. Qed.

Lemma bind_print_res {B : Type} line (f : unit → M B) s :
  res (bind (print line) f s) = res (f tt s)
  ∧ fs_of (bind (print line) f s) = fs_of (f tt s).
Proof. done. Qed.

(** ** Relations every step of a method respects *)

Definition steps {A : Type} (R : relation FS) (m : M A) : Prop :=
  ∀ s, R s (fs_of (m s)).

Section steps.
Context (R : relation FS) `{!PreOrder R}.

Lemma steps_ret {A : Type} (a : A) : steps R (ret a).
Proof. intros s. simpl. reflexivity. Qed.

Lemma steps_raise {A : Type} e : steps R (@raise A e).
Proof. intros s. simpl. reflexivity. Qed.

Lemma steps_gets {A : Type} (g : FS → A) : steps R (gets g).
Proof. intros s. simpl. reflexivity. Qed.

Lemma steps_print line : steps R (print line).
Proof. intros s. simpl. reflexivity. Qed.

Lemma steps_bind {A B : Type} (m : M A) (f : A → M B) :
  steps R m → (∀ a, steps R (f a)) → steps R (bind m f).
Proof.
  intros Hm Hf s. unfold bind.
  destruct (res (m s)) as [a|e]; simpl; [|apply Hm].
  etrans; [apply Hm | apply Hf].
Qed.

Lemma steps_catch {A : Type} (m : M A) (h : exn → M A) :
  steps R m → (∀ e, steps R (h e)) → steps R (catch m h).
Proof.
  intros Hm Hh s. unfold catch.
  destruct (res (m s)) as [a|e]; simpl; [apply Hm|].
  etrans; [apply Hm | apply Hh].
Qed.

Lemma steps_when b m : steps R m → steps R (when b m).
Proof. destruct b; simpl; [done|]. intros _. apply steps_ret. Qed.

Lemma steps_if {A : Type} (b : bool) (m1 m2 : M A) :
  steps R m1 → steps R m2 → steps R (if b then m1 else m2).
Proof. by destruct b. Qed.

Lemma steps_for_each {A : Type} (xs : list A) (body : A → M unit) :
  (∀ x, x ∈ xs → steps R (body x)) → steps R (for_each xs body).
Proof.
  induction xs as [|x xs IH]; intros H; simpl.
  - apply steps_ret.
  - apply steps_bind; [apply H; left|].
    intros _. apply IH. intros y Hy. apply H. by right.
Qed.
End steps.

Lemma steps_weaken {A : Type} (R R' : relation FS) (m : M A) :
  (∀ s s', R s s' → R' s s') → steps R m → steps R' m.
Proof. intros H Hm s. apply H, Hm. Qed.

(** ** How the state evolves

    Each change the library calls make is one of two: a new entry appears in
    an existing directory, or a regular file gets new bytes.  [W] bounds the
    paths where that may happen. *)

Inductive atom (W : path → Prop) (s : FS) : FS → Prop :=
  | atom_create p n :
      W p → s !! p = None → s !! parent p = Some Dir →
      atom W s (<[p := n]> s)
  | atom_overwrite p d d' :
      W p → s !! p = Some (File d) →
      atom W s (<[p := File d']> s).

Definition evolves (W : path → Prop) : relation FS := rtc (atom W).

Global Instance evolves_preorder W : PreOrder (evolves W).
Proof. unfold evolves. apply _. Qed.

Lemma atom_mono (W W' : path → Prop) s s' :
  (∀ p, W p → W' p) → atom W s s' → atom W' s s'.
Proof.
  intros H [p n ???|p d d' ??].
  - apply atom_create; auto.
  - eapply atom_overwrite; eauto.
Qed.

Lemma evolves_mono (W W' : path → Prop) s s' :
  (∀ p, W p → W' p) → evolves W s s' → evolves W' s s'.
Proof.
  intros H. induction 1 as [|s1 s2 s3 H1 _ IH]; [reflexivity|].
  eapply rtc_l; [eapply atom_mono; eauto | done].
Qed.

Lemma steps_evolves_mono {A : Type} (W W' : path → Prop) (m : M A) :
  (∀ p, W p → W' p) → steps (evolves W) m → steps (evolves W') m.
Proof. intros H. apply steps_weaken. intros s s'. by apply evolves_mono. Qed.

(** Nothing is ever removed, and nothing changes its kind. *)
Definition same_kind (n n' : node) : Prop :=
  match n, n' with
  | Dir, Dir => True
  | File _, File _ => True
  | _, _ => False
  end.

Definition grows (s s' : FS) : Prop :=
  ∀ p n, s !! p = Some n → ∃ n', s' !! p = Some n' ∧ same_kind n n'.

Global Instance grows_preorder : PreOrder grows.
Proof.
  split.
  - intros s p n H. exists n. split; [done|]. by destruct n.
  - intros s1 s2 s3 H12 H23 p n H.
    destruct (H12 p n H) as (n2 & H2 & K2).
    destruct (H23 p n2 H2) as (n3 & H3 & K3).
    exists n3. split; [done|]. destruct n, n2, n3; done.
Qed.

(** Outside [W] the state is left as it was. *)
Definition only_in (W : path → Prop) (s s' : FS) : Prop :=
  ∀ p, ¬ W p → s' !! p = s !! p.

Lemma atom_grows W s s' : atom W s s' → grows s s'.
Proof.
  intros [p n ? Hp ?|p d d' ? Hp] q m Hq.
  - destruct (decide (p = q)) as [->|]; [congruence|].
    rewrite lookup_insert_ne by done. exists m. split; [done|]. by destruct m.
  - destruct (decide (p = q)) as [->|].
    + rewrite lookup_insert_eq. exists (File d'). split; [done|].
      rewrite Hp in Hq. by injection Hq as <-.
    + rewrite lookup_insert_ne by done. exists m. split; [done|]. by destruct m.
Qed.

Lemma evolves_grows W s s' : evolves W s s' → grows s s'.
Proof.
  induction 1 as [|s1 s2 s3 H1 _ IH]; [reflexivity|].
  etrans; [by eapply atom_grows | done].
Qed.

Lemma atom_only_in W s s' : atom W s s' → only_in W s s'.
Proof.
  intros [p n ? Hp ?|p d d' ? Hp] q Hq;
    (rewrite lookup_insert_ne; [done|]); by intros ->.
Qed.

Lemma evolves_only_in W s s' : evolves W s s' → only_in W s s'.
Proof.
  induction 1 as [|s1 s2 s3 H1 _ IH]; [done|].
  intros p Hp. rewrite IH by done. by eapply atom_only_in.
Qed.

Lemma grows_dir s s' p : grows s s' → s !! p = Some Dir → s' !! p = Some Dir.
Proof.
  intros H Hp. destruct (H p Dir Hp) as (n' & ? & K). by destruct n'.
Qed.

Lemma grows_file s s' p d :
  grows s s' → s !! p = Some (File d) → ∃ d', s' !! p = Some (File d').
Proof.
  intros H Hp. destruct (H p _ Hp) as (n' & ? & K). destruct n'; [eauto|done].
Qed.

Lemma wf_lookup s x q n : wf s → s !! (x :: q) = Some n → s !! q = Some Dir.
Proof. intros H Hp. exact (H _ _ Hp). Qed.

Lemma atom_wf W s s' : atom W s s' → wf s → wf s'.
Proof.
  intros Ha Hwf q m Hq.
  assert (Hg := atom_grows _ _ _ Ha).
  destruct Ha as [p n ? Hp Hpar|p d d' ? Hp].
  - destruct (decide (p = q)) as [->|].
    + destruct q as [|x q]; [done|]. simpl in *.
      eapply grows_dir; [exact Hg|done].
    + rewrite lookup_insert_ne in Hq by done.
      destruct q as [|x q]; [done|]. simpl.
      eapply grows_dir; [exact Hg|]. by eapply wf_lookup.
  - destruct q as [|x q]; [done|]. simpl.
    eapply grows_dir; [exact Hg|].
    destruct (decide (p = x :: q)) as [->|].
    + by eapply wf_lookup.
    + rewrite lookup_insert_ne in Hq by done. by eapply wf_lookup.
Qed.

Lemma evolves_wf W s s' : evolves W s s' → wf s → wf s'.
Proof.
  induction 1 as [|s1 s2 s3 H1 _ IH]; [done|].
  intros Hwf. apply IH. by eapply atom_wf.
Qed.

(** ** The library calls, one by one *)

(** Reduce the projections of an outcome that is given outright. *)
Ltac outcome := cbn [res fs_of out_of raise ret gets print].

Lemma is_dir_at_true s p : is_dir_at s p = true ↔ s !! p = Some Dir.
Proof. unfold is_dir_at. by destruct (s !! p) as [[|]|]. Qed.

Lemma is_file_at_true s p : is_file_at s p = true ↔ ∃ d, s !! p = Some (File d).
Proof.
  unfold is_file_at. destruct (s !! p) as [[d|]|]; split; try done; eauto;
    by intros [? ?].
Qed.

Lemma exists_at_true s p : exists_at s p = true ↔ is_Some (s !! p).
Proof.
  unfold exists_at. destruct (s !! p); split; try done; eauto;
    by intros [? ?].
Qed.

Lemma exists_at_false s p : exists_at s p = false ↔ s !! p = None.
Proof. unfold exists_at. by destruct (s !! p). Qed.

Lemma os_mkdir_ok p s :
  res (os_mkdir p s) = Ok tt →
  s !! p = None ∧ s !! parent p = Some Dir ∧ fs_of (os_mkdir p s) = <[p := Dir]> s.
Proof.
  unfold os_mkdir. destruct (s !! p); [done|].
  destruct (s !! parent p) as [[|]|]; done.
Qed.

Lemma os_mkdir_raise p s e :
  res (os_mkdir p s) = Raise e →
  fs_of (os_mkdir p s) = s
  ∧ (e = FileNotFoundError → s !! p = None ∧ s !! parent p = None).
Proof.
  unfold os_mkdir. destruct (s !! p); simpl.
  { intros [= <-]. done. }
  destruct (s !! parent p) as [[|]|]; simpl; try done.
  intros [= <-]. done.
Qed.

Lemma os_mkdir_evolves p : steps (evolves (eq p)) (os_mkdir p).
Proof.
  intros s. unfold os_mkdir. destruct (s !! p) eqn:Hp; simpl; [reflexivity|].
  destruct (s !! parent p) as [[|]|] eqn:Hq; simpl; try reflexivity.
  apply rtc_once. by apply atom_create.
Qed.

Lemma os_mkdir_subseteq p : steps (⊆) (os_mkdir p).
Proof.
  intros s. unfold os_mkdir. destruct (s !! p) eqn:Hp; simpl; [reflexivity|].
  destruct (s !! parent p) as [[|]|] eqn:Hq; simpl; try reflexivity.
  by apply insert_subseteq.
Qed.

Lemma swallow_if_dir_fs b p e s : fs_of (swallow_if_dir b p e s) = s.
Proof.
  unfold swallow_if_dir, is_dir. rewrite bind_gets.
  by destruct (negb b || negb (is_dir_at s p)).
Qed.

Lemma swallow_if_dir_ok b p e s :
  res (swallow_if_dir b p e s) = Ok tt → s !! p = Some Dir.
Proof.
  unfold swallow_if_dir, is_dir. rewrite bind_gets.
  destruct b; simpl; [|done].
  destruct (is_dir_at s p) eqn:E; simpl; [|done].
  intros _. by apply is_dir_at_true.
Qed.

Lemma swallow_if_dir_dir p e s :
  s !! p = Some Dir → res (swallow_if_dir true p e s) = Ok tt.
Proof.
  intros Hp. unfold swallow_if_dir, is_dir. rewrite bind_gets.
  apply is_dir_at_true in Hp. by rewrite Hp.
Qed.

Lemma swallow_if_dir_steps (R : relation FS) `{!PreOrder R} b p e :
  steps R (swallow_if_dir b p e).
Proof. intros s. rewrite swallow_if_dir_fs. reflexivity. Qed.

(** [mkdir(exist_ok=True)], case by case on what is at [p] and above it. *)
Lemma mkdir_here_dir p s :
  s !! p = Some Dir →
  res (mkdir_here true p s) = Ok tt ∧ fs_of (mkdir_here true p s) = s.
Proof.
  intros Hp. unfold mkdir_here, catch, os_mkdir. rewrite Hp. outcome.
  rewrite swallow_if_dir_fs. split; [|done]. by apply swallow_if_dir_dir.
Qed.


Lemma mkdir_here_new p s :
  s !! p = None → s !! parent p = Some Dir →
  res (mkdir_here true p s) = Ok tt ∧ fs_of (mkdir_here true p s) = <[p := Dir]> s.
Proof.
  intros Hp Hq. unfold mkdir_here, catch, os_mkdir. by rewrite Hp, Hq.
Qed.

Lemma mkdir_here_ok b p s :
  res (mkdir_here b p s) = Ok tt → fs_of (mkdir_here b p s) !! p = Some Dir.
Proof.
  unfold mkdir_here, catch.
  destruct (res (os_mkdir p s)) as [[]|e] eqn:E.
  - intros _. apply os_mkdir_ok in E as (_ & _ & ->). apply lookup_insert_eq.
  - apply os_mkdir_raise in E as (-> & _). outcome.
    destruct e; outcome; try done;
      rewrite swallow_if_dir_fs; apply swallow_if_dir_ok.
Qed.

Lemma mkdir_here_steps (R : relation FS) `{!PreOrder R} b p :
  steps R (os_mkdir p) → steps R (mkdir_here b p).
Proof.
  intros H. unfold mkdir_here. apply steps_catch; [done..|].
  intros e. destruct e; try apply steps_raise; try done;
    by apply swallow_if_dir_steps.
Qed.

Lemma mkdir_here_evolves b p : steps (evolves (eq p)) (mkdir_here b p).
Proof. apply mkdir_here_steps; [apply _|apply os_mkdir_evolves]. Qed.

Lemma mkdir_here_subseteq b p : steps (⊆) (mkdir_here b p).
Proof. apply mkdir_here_steps; [apply _|apply os_mkdir_subseteq]. Qed.

Lemma mkdir_parents_dir p s :
  s !! p = Some Dir →
  res (mkdir_parents true p s) = Ok tt ∧ fs_of (mkdir_parents true p s) = s.
Proof.
  intros Hp. destruct p; simpl; unfold catch, os_mkdir; rewrite Hp; outcome;
    (rewrite swallow_if_dir_fs; split; [|done]; by apply swallow_if_dir_dir).
Qed.

Lemma mkdir_parents_ok b p s :
  res (mkdir_parents b p s) = Ok tt → fs_of (mkdir_parents b p s) !! p = Some Dir.
Proof.
  revert b s. induction p as [|x q IH]; intros b s; cbn [mkdir_parents]; unfold catch.
  - destruct (res (os_mkdir [] s)) as [[]|e] eqn:E.
    + intros _. apply os_mkdir_ok in E as (_ & _ & ->). apply lookup_insert_eq.
    + apply os_mkdir_raise in E as (-> & _). outcome.
      destruct e; outcome; try done;
        rewrite swallow_if_dir_fs; apply swallow_if_dir_ok.
  - destruct (res (os_mkdir (x :: q) s)) as [[]|e] eqn:E.
    + intros _. apply os_mkdir_ok in E as (_ & _ & ->). apply lookup_insert_eq.
    + apply os_mkdir_raise in E as (-> & _). outcome.
      destruct e; outcome; try done;
        try (rewrite swallow_if_dir_fs; apply swallow_if_dir_ok).
      intros H. apply bind_res_ok in H as ([] & _ & H & ->).
      by apply mkdir_here_ok in H.
Qed.

Lemma mkdir_parents_evolves b p :
  steps (evolves (λ q, q `suffix_of` p)) (mkdir_parents b p).
Proof.
  revert b. induction p as [|x q IH]; intros b; simpl.
  - apply steps_catch; [apply _| |].
    + eapply steps_evolves_mono; [|apply os_mkdir_evolves]. by intros ? <-.
    + intros e. destruct e; try apply steps_raise; try apply _;
        apply swallow_if_dir_steps; apply _.
  - apply steps_catch; [apply _| |].
    + eapply steps_evolves_mono; [|apply os_mkdir_evolves]. by intros ? <-.
    + intros e. destruct e; try apply steps_raise; try apply _;
        try (apply swallow_if_dir_steps; apply _).
      apply steps_bind; [apply _| |].
      * eapply steps_evolves_mono; [|apply IH].
        intros p Hp. by apply suffix_cons_r.
      * intros _. eapply steps_evolves_mono; [|apply mkdir_here_evolves].
        by intros ? <-.
Qed.

Lemma mkdir_parents_subseteq b p : steps (⊆) (mkdir_parents b p).
Proof.
  revert b. induction p as [|x q IH]; intros b; simpl.
  - apply steps_catch; [apply _|apply os_mkdir_subseteq|].
    intros e. destruct e; try apply steps_raise; try apply _;
      apply swallow_if_dir_steps; apply _.
  - apply steps_catch; [apply _|apply os_mkdir_subseteq|].
    intros e. destruct e; try apply steps_raise; try apply _;
      try (apply swallow_if_dir_steps; apply _).
    apply steps_bind; [apply _|apply IH|].
    intros _. apply mkdir_here_subseteq.
Qed.

Lemma write_file_ok p data s :
  res (write_file p data s) = Ok tt →
  s !! p ≠ Some Dir ∧ fs_of (write_file p data s) = <[p := File data]> s.
Proof.
  unfold write_file. destruct (s !! p) as [[d|]|]; outcome; try done.
  destruct (s !! parent p) as [[|]|]; outcome; done.
Qed.

Lemma write_file_raise p data s e :
  res (write_file p data s) = Raise e → fs_of (write_file p data s) = s.
Proof.
  unfold write_file. destruct (s !! p) as [[d|]|]; outcome; try done.
  destruct (s !! parent p) as [[|]|]; outcome; done.
Qed.

Lemma write_file_over p data s d :
  s !! p = Some (File d) →
  res (write_file p data s) = Ok tt
  ∧ fs_of (write_file p data s) = <[p := File data]> s.
Proof. intros Hp. unfold write_file. by rewrite Hp. Qed.

Lemma write_file_new p data s :
  s !! p = None → s !! parent p = Some Dir →
  res (write_file p data s) = Ok tt
  ∧ fs_of (write_file p data s) = <[p := File data]> s.
Proof. intros Hp Hq. unfold write_file. by rewrite Hp, Hq. Qed.

Lemma write_file_same p data s :
  s !! p = Some (File data) →
  res (write_file p data s) = Ok tt ∧ fs_of (write_file p data s) = s.
Proof.
  intros Hp. unfold write_file. rewrite Hp. outcome.
  split; [done|]. by apply insert_id.
Qed.

Lemma write_file_evolves p data : steps (evolves (eq p)) (write_file p data).
Proof.
  intros s. unfold write_file.
  destruct (s !! p) as [[d|]|] eqn:Hp; outcome; try reflexivity.
  - apply rtc_once. by eapply atom_overwrite.
  - destruct (s !! parent p) as [[|]|] eqn:Hq; outcome; try reflexivity.
    apply rtc_once. by apply atom_create.
Qed.

Lemma read_file_fs p s : fs_of (read_file p s) = s.
Proof.
  unfold read_file. destruct (s !! p) as [[d|]|]; outcome; try done.
  by destruct (s !! parent p) as [[|]|].
Qed.

Lemma read_file_ok p s data :
  res (read_file p s) = Ok data ↔ s !! p = Some (File data).
Proof.
  unfold read_file. destruct (s !! p) as [[d|]|]; outcome.
  - split; congruence.
  - done.
  - by destruct (s !! parent p) as [[|]|].
Qed.

(** Where [copy2 src dst] writes, given the state it starts in. *)
Definition copy_target (s : FS) (src dst : path) : path :=
  if is_dir_at s dst then dst </> name_of src else dst.

Lemma copy2_unfold src dst s :
  copy2 src dst s = copyfile src (copy_target s src dst) s.
Proof. unfold copy2, is_dir. by rewrite bind_gets. Qed.

Lemma copyfile_ok src dst s :
  res (copyfile src dst s) = Ok tt →
  ∃ data, s !! src = Some (File data) ∧ dst ≠ src ∧ s !! dst ≠ Some Dir
          ∧ fs_of (copyfile src dst s) = <[dst := File data]> s.
Proof.
  unfold copyfile. rewrite bind_gets.
  destruct (bool_decide (src = dst)) eqn:Heq.
  - apply bool_decide_eq_true in Heq as <-. simpl.
    destruct (exists_at s src) eqn:He; outcome; [done|].
    intros H. apply bind_res_ok in H as (data & Hr & _).
    apply read_file_ok in Hr. apply exists_at_false in He. congruence.
  - apply bool_decide_eq_false in Heq. simpl.
    intros H. apply bind_res_ok in H as (data & Hr & Hw & ->).
    rewrite read_file_fs in *. apply read_file_ok in Hr.
    apply write_file_ok in Hw as [? ->]. exists data. done.
Qed.

Lemma copyfile_same src dst s data :
  s !! src = Some (File data) → dst ≠ src → s !! dst = Some (File data) →
  res (copyfile src dst s) = Ok tt ∧ fs_of (copyfile src dst s) = s.
Proof.
  intros Hs Hne Hd. unfold copyfile. rewrite bind_gets.
  rewrite bool_decide_eq_false_2 by done. simpl.
  apply read_file_ok in Hs as Hr.
  destruct (bind_ok_eq (read_file src) (λ data, write_file dst data) s data Hr)
    as [-> ->].
  rewrite read_file_fs. by apply write_file_same.
Qed.

Lemma copyfile_evolves src dst : steps (evolves (eq dst)) (copyfile src dst).
Proof.
  unfold copyfile. apply steps_bind; [apply _|apply steps_gets; apply _|].
  intros same. apply steps_if; [apply steps_raise; apply _|].
  apply steps_bind; [apply _| |].
  - intros s. rewrite read_file_fs. reflexivity.
  - intros data. apply write_file_evolves.
Qed.

Lemma copy2_ok src dst s :
  res (copy2 src dst s) = Ok tt →
  ∃ data, s !! src = Some (File data)
          ∧ copy_target s src dst ≠ src
          ∧ s !! copy_target s src dst ≠ Some Dir
          ∧ fs_of (copy2 src dst s) = <[copy_target s src dst := File data]> s.
Proof. rewrite copy2_unfold. apply copyfile_ok. Qed.

Lemma copy2_evolves src dst :
  steps (evolves (λ q, q = dst ∨ q = dst </> name_of src)) (copy2 src dst).
Proof.
  intros s. rewrite copy2_unfold.
  eapply evolves_mono; [|apply copyfile_evolves].
  intros p <-. unfold copy_target. destruct (is_dir_at s dst); auto.
Qed.

(** [src] is a regular file and its bytes are where [copy2 src dst] puts
    them. *)
Definition copied (s : FS) (src dst : path) : Prop :=
  ∃ data, s !! src = Some (File data)
          ∧ copy_target s src dst ≠ src
          ∧ s !! copy_target s src dst = Some (File data).

Lemma copy2_copied src dst s :
  res (copy2 src dst s) = Ok tt → copied (fs_of (copy2 src dst s)) src dst.
Proof.
  intros H. apply copy2_ok in H as (data & Hs & Hne & Hnd & ->).
  assert (copy_target (<[copy_target s src dst := File data]> s) src dst
          = copy_target s src dst) as Ht.
  { unfold copy_target at 1 3. unfold is_dir_at.
    destruct (decide (copy_target s src dst = dst)) as [E|E].
    - rewrite E at 1. rewrite lookup_insert_eq.
      rewrite E in Hnd. by destruct (s !! dst) as [[|]|].
    - by rewrite lookup_insert_ne. }
  exists data. rewrite Ht. rewrite lookup_insert_eq.
  by rewrite lookup_insert_ne.
Qed.

Lemma copy2_same src dst s :
  copied s src dst →
  res (copy2 src dst s) = Ok tt ∧ fs_of (copy2 src dst s) = s.
Proof.
  intros (data & Hs & Hne & Ht). rewrite copy2_unfold.
  by eapply copyfile_same.
Qed.

(** [copied] looks at three paths only. *)
Lemma copied_agree s s' src dst :
  s' !! src = s !! src → s' !! dst = s !! dst →
  s' !! (dst </> name_of src) = s !! (dst </> name_of src) →
  copied s src dst → copied s' src dst.
Proof.
  intros H1 H2 H3 (data & Hs & Hne & Ht).
  assert (copy_target s' src dst = copy_target s src dst) as E.
  { unfold copy_target, is_dir_at. by rewrite H2. }
  exists data. rewrite E, H1. split; [done|]. split; [done|].
  rewrite <- Ht. unfold copy_target. by destruct (is_dir_at s dst).
Qed.

Lemma copyfile_raise src dst s e :
  res (copyfile src dst s) = Raise e → fs_of (copyfile src dst s) = s.
Proof.
  unfold copyfile. rewrite bind_gets.
  destruct (bool_decide (src = dst) && exists_at s src); [done|].
  unfold bind. destruct (res (read_file src s)) as [data|e'] eqn:Hr;
    cbn [res fs_of]; rewrite read_file_fs; [|done].
  apply write_file_raise.
Qed.

Lemma copy2_raise src dst s e :
  res (copy2 src dst s) = Raise e → fs_of (copy2 src dst s) = s.
Proof. rewrite copy2_unfold. apply copyfile_raise. Qed.

Lemma copied_subseteq s s' src dst :
  s ⊆ s' → copied s src dst → copied s' src dst.
Proof.
  intros Hsub (data & Hs & Hne & Ht).
  assert (copy_target s' src dst = copy_target s src dst) as E.
  { unfold copy_target in *. destruct (is_dir_at s dst) eqn:Hd.
    - apply is_dir_at_true in Hd. eapply lookup_weaken in Hd; [|done].
      apply is_dir_at_true in Hd. by rewrite Hd.
    - eapply lookup_weaken in Ht; [|done].
      unfold is_dir_at. by rewrite Ht. }
  exists data. rewrite E. split; [by eapply lookup_weaken|].
  split; [done|]. by eapply lookup_weaken.
Qed.

(** ** Paths that cannot meet *)

(** Neither path lies at or below the other. *)
Definition apart (p q : path) : Prop := ¬ p `suffix_of` q ∧ ¬ q `suffix_of` p.

Lemma apart_sym p q : apart p q → apart q p.
Proof. intros [? ?]. by split. Qed.

(** Two paths given relative to the same base are apart as soon as their
    relative parts are; those are concrete lists, and [suffix] on them is
    decided by evaluation. *)
Lemma apart_rel (xs ys base : path) :
  bool_decide (xs `suffix_of` ys) = false →
  bool_decide (ys `suffix_of` xs) = false →
  apart (xs ++ base) (ys ++ base).
Proof.
  intros H1%bool_decide_eq_false H2%bool_decide_eq_false.
  split; intros H%suffix_app_inv; done.
Qed.

Lemma apart_below p q x : apart p q → p `suffix_of` x → q `suffix_of` x → False.
Proof.
  intros [H1 H2] Hp Hq. destruct (suffix_weak_total _ _ _ Hp Hq); done.
Qed.

Lemma apart_above p q x : apart p q → p `suffix_of` x → x `suffix_of` q → False.
Proof. intros [H1 H2] Hp Hq. apply H1. by etrans. Qed.

Lemma suffix_tail_app (q rel p : path) :
  q `suffix_of` tail (rel ++ p) → p `suffix_of` q ∨ q `suffix_of` p.
Proof.
  intros H. assert (q `suffix_of` rel ++ p) as H'.
  { destruct (rel ++ p) as [|x l]; [done|]. simpl in H. by apply suffix_cons_r. }
  destruct (suffix_weak_total p q (rel ++ p)); auto.
  by apply suffix_app_r.
Qed.

(** ** Facts a method establishes, keeps, and is a fixed point on *)

(** The method makes only the two kinds of change of [atom]. *)
Definition sound {A : Type} (m : M A) : Prop := steps (evolves (λ _, True)) m.

Lemma evolves_sound {A : Type} W (m : M A) : steps (evolves W) m → sound m.
Proof. by apply steps_evolves_mono. Qed.

Lemma sound_wf {A : Type} (m : M A) s : sound m → wf s → wf (fs_of (m s)).
Proof. intros H. eapply evolves_wf, H. Qed.

Lemma sound_grows {A : Type} (m : M A) s : sound m → grows s (fs_of (m s)).
Proof. intros H. eapply evolves_grows, H. Qed.

Definition establishes (F : FS → Prop) (m : M unit) : Prop :=
  ∀ s, wf s → res (m s) = Ok tt → F (fs_of (m s)).

Definition fixes (F : FS → Prop) (m : M unit) : Prop :=
  ∀ s, wf s → F s → res (m s) = Ok tt ∧ fs_of (m s) = s.

Definition keeps {A : Type} (F : FS → Prop) (m : M A) : Prop :=
  ∀ s, wf s → F s → F (fs_of (m s)).

Lemma establishes_weaken (F F' : FS → Prop) m :
  (∀ s, F s → F' s) → establishes F m → establishes F' m.
Proof. intros H Hm s ? ?. by apply H, Hm. Qed.

Lemma fixes_weaken (F F' : FS → Prop) m :
  (∀ s, F' s → F s) → fixes F m → fixes F' m.
Proof. intros H Hm s ? ?. by apply Hm, H. Qed.

Lemma fixes_keeps F m : fixes F m → keeps F m.
Proof. intros H s Hwf HF. destruct (H s Hwf HF) as [_ ->]. done. Qed.

Lemma keeps_and {A : Type} (F1 F2 : FS → Prop) (m : M A) :
  keeps F1 m → keeps F2 m → keeps (λ s, F1 s ∧ F2 s) m.
Proof. intros H1 H2 s ? [? ?]. split; [by apply H1|by apply H2]. Qed.

Lemma keeps_bind {A B : Type} F (m : M A) (f : A → M B) :
  sound m → keeps F m → (∀ a, keeps F (f a)) → keeps F (bind m f).
Proof.
  intros Hs Hm Hf s Hwf HF. unfold bind.
  destruct (res (m s)) as [a|e]; cbn [fs_of]; [|by apply Hm].
  apply Hf; [by apply sound_wf|by apply Hm].
Qed.

Lemma keeps_pure {A : Type} F (m : M A) : (∀ s, fs_of (m s) = s) → keeps F m.
Proof. intros H s _ HF. by rewrite H. Qed.

Lemma keeps_when F b m : keeps F m → keeps F (when b m).
Proof. destruct b; [done|]. intros _. by apply keeps_pure. Qed.

Lemma keeps_for_each {A : Type} F (xs : list A) (body : A → M unit) :
  (∀ x, x ∈ xs → sound (body x)) → (∀ x, x ∈ xs → keeps F (body x)) →
  keeps F (for_each xs body).
Proof.
  induction xs as [|x xs IH]; intros Hs Hk; cbn [for_each].
  - by apply keeps_pure.
  - apply keeps_bind; [apply Hs; left|apply Hk; left|].
    intros _. apply IH; intros y Hy; [apply Hs|apply Hk]; by right.
Qed.

(** A fact that only reads the state outside [W] survives a method that only
    writes inside [W]. *)
Lemma keeps_only_in {A : Type} (W : path → Prop) F (m : M A) :
  steps (evolves W) m →
  (∀ s s', only_in W s s' → F s → F s') →
  keeps F m.
Proof. intros Hm HF s _ H. eapply HF; [|done]. apply evolves_only_in, Hm. Qed.

Lemma keeps_grows {A : Type} F (m : M A) :
  sound m → (∀ s s', grows s s' → F s → F s') → keeps F m.
Proof. intros Hm HF s _ H. eapply HF; [|done]. by apply sound_grows. Qed.

Lemma establishes_seq (F1 F2 : FS → Prop) (m1 m2 : M unit) :
  sound m1 → establishes F1 m1 → establishes F2 m2 → keeps F1 m2 →
  establishes (λ s, F1 s ∧ F2 s) (m1 ;; m2).
Proof.
  intros Hs H1 H2 Hk s Hwf H.
  apply bind_res_ok in H as ([] & Hr1 & Hr2 & ->).
  assert (wf (fs_of (m1 s))) by by apply sound_wf.
  split; [apply Hk; [done|by apply H1]|by apply H2].
Qed.

Lemma fixes_seq (F1 F2 : FS → Prop) (m1 m2 : M unit) :
  fixes F1 m1 → fixes F2 m2 → fixes (λ s, F1 s ∧ F2 s) (m1 ;; m2).
Proof.
  intros H1 H2 s Hwf [HF1 HF2].
  destruct (H1 s Hwf HF1) as [Hr1 Hs1].
  destruct (bind_ok_eq m1 (λ _, m2) s tt Hr1) as [-> ->].
  rewrite Hs1. by apply H2.
Qed.

Lemma establishes_print (F : FS → Prop) line m :
  establishes F m → establishes F (print line ;; m).
Proof. intros H s Hwf Hr. by apply H. Qed.

Lemma fixes_print (F : FS → Prop) line m :
  fixes F m → fixes F (print line ;; m).
Proof. intros H s Hwf HF. by apply H. Qed.

Lemma establishes_then_print (F : FS → Prop) m line :
  establishes F m → establishes F (m ;; print line).
Proof.
  intros H s Hwf Hr. apply bind_res_ok in Hr as ([] & Hr1 & _ & ->).
  by apply H.
Qed.

Lemma fixes_then_print (F : FS → Prop) m line :
  fixes F m → fixes F (m ;; print line).
Proof.
  intros H s Hwf HF. destruct (H s Hwf HF) as [Hr Hs].
  destruct (bind_ok_eq m (λ _, print line) s tt Hr) as [-> ->]. done.
Qed.

Lemma establishes_for_each {A : Type} `{!EqDecision A}
    (F : A → FS → Prop) (xs : list A) (body : A → M unit) :
  (∀ x, x ∈ xs → sound (body x)) →
  (∀ x, x ∈ xs → establishes (F x) (body x)) →
  (∀ x, x ∈ xs → fixes (F x) (body x)) →
  (∀ x y, x ∈ xs → y ∈ xs → x ≠ y → keeps (F x) (body y)) →
  establishes (λ s, ∀ x, x ∈ xs → F x s) (for_each xs body).
Proof.
  induction xs as [|x xs IH]; intros Hs He Hf Hk; cbn [for_each].
  - intros s _ _ y Hy. by apply elem_of_nil in Hy.
  - intros s Hwf Hr. apply bind_res_ok in Hr as ([] & Hr1 & Hr2 & ->).
    assert (wf (fs_of (body x s))) as Hwf1 by (apply sound_wf; [apply Hs; left|done]).
    intros y Hy. apply elem_of_cons in Hy as [->|Hy].
    + apply (keeps_for_each (F x) xs body); [| |done|].
      * intros z Hz. apply Hs. by right.
      * intros z Hz. destruct (decide (x = z)) as [<-|Hne].
        -- apply fixes_keeps, Hf. left.
        -- apply Hk; [left|by right|done].
      * apply He; [left|done..].
    + apply IH; try done.
      * intros z Hz. apply Hs. by right.
      * intros z Hz. apply He. by right.
      * intros z Hz. apply Hf. by right.
      * intros z1 z2 Hz1 Hz2. apply Hk; by right.
Qed.

Lemma fixes_for_each {A : Type}
    (F : A → FS → Prop) (xs : list A) (body : A → M unit) :
  (∀ x, x ∈ xs → fixes (F x) (body x)) →
  fixes (λ s, ∀ x, x ∈ xs → F x s) (for_each xs body).
Proof.
  induction xs as [|x xs IH]; intros Hf; cbn [for_each].
  - intros s _ _. done.
  - intros s Hwf HF.
    destruct (Hf x (list_elem_of_here _ _) s Hwf (HF x (list_elem_of_here _ _)))
      as [Hr Hs].
    destruct (bind_ok_eq (body x) (λ _, for_each xs body) s tt Hr) as [-> ->].
    rewrite Hs. apply IH; [|done|].
    + intros y Hy. apply Hf. by right.
    + intros y Hy. apply HF. by right.
Qed.

(** ** Methods that raise

    A method that raised leaves a state from which, started again, it raises
    the same exception without a further change. *)
Definition refails (m : M unit) : Prop :=
  ∀ s e, wf s → res (m s) = Raise e →
    res (m (fs_of (m s))) = Raise e ∧ fs_of (m (fs_of (m s))) = fs_of (m s).

(** The simplest reason: a call that raises has changed nothing. *)
Definition atomic {A : Type} (m : M A) : Prop :=
  ∀ s e, res (m s) = Raise e → fs_of (m s) = s.

Lemma atomic_refails m : atomic m → refails m.
Proof.
  intros H s e _ Hr. rewrite (H s e Hr). split; [done|]. by apply (H s e).
Qed.

Lemma refails_ret : refails (ret tt).
Proof. intros s e _ Hr. done. Qed.

Lemma refails_when b m : refails m → refails (when b m).
Proof. destruct b; [done|]. intros _. apply refails_ret. Qed.

Lemma refails_seq (F1 : FS → Prop) (m1 m2 : M unit) :
  sound m1 → sound m2 → establishes F1 m1 → fixes F1 m1 → keeps F1 m2 →
  refails m1 → refails m2 → refails (m1 ;; m2).
Proof.
  intros Hs1 Hs2 He Hf Hk H1 H2 s e Hwf Hr.
  destruct (res (m1 s)) as [[]|e1] eqn:E1.
  - destruct (bind_ok_eq m1 (λ _, m2) s tt E1) as [Hr' Hs'].
    rewrite Hr' in Hr. rewrite Hs'.
    assert (wf (fs_of (m1 s))) as Hwf1 by by apply sound_wf.
    assert (F1 (fs_of (m1 s))) as HF1 by by apply He.
    assert (wf (fs_of (m2 (fs_of (m1 s))))) as Hwf2 by by apply sound_wf.
    destruct (Hf _ Hwf2 (Hk _ Hwf1 HF1)) as [Hr1 Hs1'].
    destruct (bind_ok_eq m1 (λ _, m2) _ tt Hr1) as [-> ->].
    rewrite Hs1'. by apply H2.
  - destruct (bind_raise_eq m1 (λ _, m2) s e1 E1) as [Hr' Hs'].
    rewrite Hr' in Hr. injection Hr as <-. rewrite Hs'.
    destruct (H1 s e1 Hwf E1) as [Hr1 Hs1'].
    destruct (bind_raise_eq m1 (λ _, m2) _ e1 Hr1) as [-> ->]. done.
Qed.

Lemma refails_print line m : refails m → refails (print line ;; m).
Proof. intros H s e Hwf Hr. exact (H s e Hwf Hr). Qed.

Lemma refails_then_print m line : refails m → refails (m ;; print line).
Proof.
  intros H s e Hwf Hr.
  destruct (res (m s)) as [[]|e1] eqn:E1.
  - by destruct (bind_ok_eq m (λ _, print line) s tt E1) as [Hr' _];
      rewrite Hr' in Hr.
  - destruct (bind_raise_eq m (λ _, print line) s e1 E1) as [Hr' Hs'].
    rewrite Hr' in Hr. injection Hr as <-. rewrite Hs'.
    destruct (H s e1 Hwf E1) as [Hr1 Hs1].
    destruct (bind_raise_eq m (λ _, print line) _ e1 Hr1) as [-> ->]. done.
Qed.

Lemma refails_for_each {A : Type} `{!EqDecision A}
    (F : A → FS → Prop) (xs : list A) (body : A → M unit) :
  (∀ x, x ∈ xs → sound (body x)) →
  (∀ x, x ∈ xs → establishes (F x) (body x)) →
  (∀ x, x ∈ xs → fixes (F x) (body x)) →
  (∀ x y, x ∈ xs → y ∈ xs → x ≠ y → keeps (F x) (body y)) →
  (∀ x, x ∈ xs → refails (body x)) →
  refails (for_each xs body).
Proof.
  induction xs as [|x xs IH]; intros Hs He Hf Hk Hre; cbn [for_each].
  - apply refails_ret.
  - apply (refails_seq (F x)).
    + apply Hs. left.
    + apply steps_for_each; [apply _|]. intros y Hy. apply Hs. by right.
    + apply He. left.
    + apply Hf. left.
    + apply keeps_for_each.
      * intros z Hz. apply Hs. by right.
      * intros z Hz. destruct (decide (x = z)) as [<-|Hne].
        -- apply fixes_keeps, Hf. left.
        -- apply Hk; [left|by right|done].
    + apply Hre. left.
    + apply IH.
      * intros z Hz. apply Hs. by right.
      * intros z Hz. apply He. by right.
      * intros z Hz. apply Hf. by right.
      * intros z1 z2 Hz1 Hz2. apply Hk; by right.
      * intros z Hz. apply Hre. by right.
Qed.

(** Running a method again from the state it left: the same result, and no
    further change. *)
Definition settled (m : M unit) : Prop :=
  ∀ s, wf s →
    res (m (fs_of (m s))) = res (m s) ∧ fs_of (m (fs_of (m s))) = fs_of (m s).

Lemma settled_intro (F : FS → Prop) m :
  sound m → establishes F m → fixes F m → refails m → settled m.
Proof.
  intros Hs He Hf Hre s Hwf.
  destruct (res (m s)) as [[]|e] eqn:E.
  - apply Hf; [by apply sound_wf|by apply He].
  - by apply Hre.
Qed.

Lemma mkdir_here_atomic b p : atomic (mkdir_here b p).
Proof.
  intros s e. unfold mkdir_here, catch.
  destruct (res (os_mkdir p s)) as [[]|e'] eqn:E; [by rewrite E|].
  apply os_mkdir_raise in E as (-> & _). outcome.
  destruct e'; outcome; try done; by rewrite swallow_if_dir_fs.
Qed.

Lemma mkdir_parents_atomic b p : atomic (mkdir_parents b p).
Proof.
  revert b. induction p as [|x q IH]; intros b s e; cbn [mkdir_parents];
    unfold catch.
  - destruct (res (os_mkdir [] s)) as [[]|e'] eqn:E; [by rewrite E|].
    apply os_mkdir_raise in E as (-> & _). outcome.
    destruct e'; outcome; try done; by rewrite swallow_if_dir_fs.
  - destruct (res (os_mkdir (x :: q) s)) as [[]|e'] eqn:E; [by rewrite E|].
    apply os_mkdir_raise in E as (-> & Hnf). outcome.
    destruct e'; outcome; try done; try by rewrite swallow_if_dir_fs.
    destruct Hnf as [Hp Hq]; [done|].
    destruct (res (mkdir_parents true q s)) as [[]|e'] eqn:E.
    + destruct (bind_ok_eq (mkdir_parents true q)
                  (λ _, mkdir_here b (x :: q)) s tt E) as [-> ->].
      assert (fs_of (mkdir_parents true q s) !! (x :: q) = None) as Hp1.
      { rewrite <- Hp. eapply evolves_only_in; [apply mkdir_parents_evolves|].
        intros H. apply suffix_length in H. simpl in H. lia. }
      apply mkdir_parents_ok in E.
      unfold mkdir_here, catch, os_mkdir. rewrite Hp1. simpl. by rewrite E.
    + destruct (bind_raise_eq (mkdir_parents true q)
                  (λ _, mkdir_here b (x :: q)) s e' E) as [-> ->].
      intros _. by eapply IH.
Qed.

Lemma mkdir_atomic b1 b2 p : atomic (mkdir b1 b2 p).
Proof.
  destruct b1; cbn [mkdir]; [apply mkdir_parents_atomic|apply mkdir_here_atomic].
Qed.

Lemma write_file_atomic p data : atomic (write_file p data).
Proof. intros s e. apply write_file_raise. Qed.

Lemma copy2_atomic src dst : atomic (copy2 src dst).
Proof. intros s e. apply copy2_raise. Qed.

(** ** Directories *)

Definition dir_at (p : path) (s : FS) : Prop := s !! p = Some Dir.

Lemma dir_at_grows p s s' : grows s s' → dir_at p s → dir_at p s'.
Proof. intros H. by apply grows_dir. Qed.

Lemma mkdir_evolves b1 b2 p :
  steps (evolves (λ q, q `suffix_of` p)) (mkdir b1 b2 p).
Proof.
  destruct b1; cbn [mkdir]; [apply mkdir_parents_evolves|].
  eapply steps_evolves_mono; [|apply mkdir_here_evolves]. by intros ? <-.
Qed.

Lemma mkdir_sound b1 b2 p : sound (mkdir b1 b2 p).
Proof. eapply evolves_sound, mkdir_evolves. Qed.

Lemma mkdir_establishes b1 b2 p : establishes (dir_at p) (mkdir b1 b2 p).
Proof.
  intros s _. destruct b1; cbn [mkdir];
    [apply mkdir_parents_ok|apply mkdir_here_ok].
Qed.

Lemma mkdir_fixes b1 p : fixes (dir_at p) (mkdir b1 true p).
Proof.
  intros s _ H. destruct b1; cbn [mkdir];
    [by apply mkdir_parents_dir|by apply mkdir_here_dir].
Qed.

Lemma keeps_dir_at {A : Type} p (m : M A) : sound m → keeps (dir_at p) m.
Proof. intros H. apply keeps_grows; [done|]. intros s s'. apply dir_at_grows. Qed.

(** Composite methods are sound because their parts are. *)
Ltac sound_tac :=
  repeat first
    [ apply steps_print; apply _
    | apply steps_ret; apply _
    | apply steps_raise; apply _
    | apply steps_gets; apply _
    | apply mkdir_sound
    | eapply evolves_sound, copy2_evolves
    | eapply evolves_sound, write_file_evolves
    | apply steps_when; [apply _|]
    | apply steps_bind; [apply _| |intros ?]
    | apply steps_for_each; [apply _|intros ? ?] ].

Lemma establishes_ret : establishes (λ _, True) (ret tt).
Proof. done. Qed.

Lemma fixes_ret : fixes (λ _, True) (ret tt).
Proof. done. Qed.

Lemma keeps_True {A : Type} (m : M A) : keeps (λ _, True) m.
Proof. done. Qed.

(** Two paths differ: by their components or by their length. *)
Ltac path_neq :=
  let E := fresh "E" in
  intros E;
  first
    [ by (injection E; intros; subst; congruence)
    | apply (f_equal length) in E; cbn in E; lia ].

Section methods.
Variable base : path.

Let self := __init__ base.

(** *** [create_directory_structure] *)

(** The directory plan, spelled out in the order it is created. *)
Definition plan_dirs : list path :=
  [base </> "public";
   base </> "public" </> "assets"; base </> "public" </> "models";
   base </> "public" </> "textures"; base </> "public" </> "audio";
   base </> "src";
   base </> "src" </> "components"; base </> "src" </> "utils";
   base </> "src" </> "styles";
   base </> "docs"].

Definition plan_made (s : FS) : Prop := ∀ d, d ∈ plan_dirs → dir_at d s.

Lemma create_directory_structure_evolves :
  steps (evolves (λ p, p ∈ plan_dirs)) (create_directory_structure self).
Proof.
  unfold create_directory_structure. cbn [new_structure base_path self __init__ for_each].
  repeat first
    [ apply steps_print; apply _
    | apply steps_ret; apply _
    | apply steps_bind; [apply _| |intros ?]
    | (eapply steps_evolves_mono; [|apply mkdir_here_evolves]);
      intros ? <-; unfold plan_dirs; set_solver ].
Qed.

Lemma create_directory_structure_establishes :
  establishes plan_made (create_directory_structure self).
Proof.
  unfold create_directory_structure. cbn [new_structure base_path self __init__ for_each].
  eapply establishes_weaken; cycle 1.
  - repeat first
      [ apply establishes_print
      | apply establishes_ret
      | apply establishes_then_print
      | apply mkdir_establishes
      | eapply establishes_seq; [sound_tac| | |] ];
    repeat first
      [ apply keeps_True
      | apply keeps_and
      | apply keeps_dir_at; sound_tac ].
  - cbv beta. intros s H d Hd. unfold plan_dirs in Hd.
    repeat (apply elem_of_cons in Hd as [->|Hd]); try (by apply elem_of_nil in Hd);
      tauto.
Qed.

Lemma create_directory_structure_fixes :
  fixes plan_made (create_directory_structure self).
Proof.
  unfold create_directory_structure. cbn [new_structure base_path self __init__ for_each].
  eapply fixes_weaken; cycle 1.
  - repeat first
      [ apply fixes_print
      | apply fixes_ret
      | apply fixes_then_print
      | apply mkdir_fixes
      | eapply fixes_seq ].
  - cbv beta. intros s H. unfold plan_made, plan_dirs in H.
    repeat split; try apply H; set_solver.
Qed.

Lemma create_directory_structure_refails :
  refails (create_directory_structure self).
Proof.
  unfold create_directory_structure. cbn [new_structure base_path self __init__ for_each].
  repeat first
    [ apply refails_print
    | apply refails_ret
    | apply refails_then_print
    | apply atomic_refails, mkdir_atomic
    | eapply refails_seq;
      [ sound_tac
      | sound_tac
      | repeat first
          [ apply establishes_print
          | apply establishes_ret
          | apply establishes_then_print
          | apply mkdir_establishes
          | eapply establishes_seq; [sound_tac| | |] ];
        repeat first
          [ apply keeps_True
          | apply keeps_and
          | apply keeps_dir_at; sound_tac ]
      | repeat first
          [ apply fixes_print
          | apply fixes_ret
          | apply fixes_then_print
          | apply mkdir_fixes
          | eapply fixes_seq ]
      | repeat first
          [ apply keeps_True
          | apply keeps_and
          | apply keeps_dir_at; sound_tac ]
      | | ] ].
Qed.
(** *** Copying one known file if it is there *)

Definition copy_if_exists (src dst : path) (msg : string) : M unit :=
  let* e := path_exists src in
  when e (copy2 src dst ;; print msg).

(** The file is not there, or its bytes are at the place [copy2] puts
    them. *)
Definition asset_done (src dst : path) (s : FS) : Prop :=
  exists_at s src = false ∨ copied s src dst.

Lemma copy_if_exists_evolves src dst msg :
  steps (evolves (λ q, q = dst ∨ q = dst </> name_of src))
    (copy_if_exists src dst msg).
Proof.
  unfold copy_if_exists.
  apply steps_bind; [apply _|apply steps_gets; apply _|]. intros e.
  apply steps_when; [apply _|].
  apply steps_bind; [apply _|apply copy2_evolves|]. intros _.
  apply steps_print; apply _.
Qed.

Lemma copy_if_exists_absent src dst msg s :
  s !! src = None →
  copy_if_exists src dst msg s = Outcome (Ok tt) s [].
Proof.
  intros H. unfold copy_if_exists, path_exists. rewrite bind_gets.
  apply exists_at_false in H. by rewrite H.
Qed.

Lemma copy_if_exists_ok src dst msg s :
  res (copy_if_exists src dst msg s) = Ok tt →
  (s !! src = None ∧ fs_of (copy_if_exists src dst msg s) = s)
  ∨ (∃ data, s !! src = Some (File data)
      ∧ copy_target s src dst ≠ src
      ∧ s !! copy_target s src dst ≠ Some Dir
      ∧ fs_of (copy_if_exists src dst msg s)
        = <[copy_target s src dst := File data]> s).
Proof.
  unfold copy_if_exists, path_exists. rewrite bind_gets.
  destruct (exists_at s src) eqn:E; cbn [when].
  - intros H. apply bind_res_ok in H as ([] & H & _ & ->).
    right. by apply copy2_ok.
  - intros _. left. by apply exists_at_false in E.
Qed.

Lemma copy_if_exists_establishes src dst msg :
  establishes (asset_done src dst) (copy_if_exists src dst msg).
Proof.
  intros s _. unfold copy_if_exists, path_exists. rewrite bind_gets.
  destruct (exists_at s src) eqn:E; cbn [when].
  - intros H. apply bind_res_ok in H as ([] & H & _ & ->).
    right. by apply copy2_copied.
  - intros _. by left.
Qed.

Lemma copy_if_exists_fixes src dst msg :
  fixes (asset_done src dst) (copy_if_exists src dst msg).
Proof.
  intros s _ H. unfold copy_if_exists, path_exists. rewrite bind_gets.
  destruct H as [E|H].
  - by rewrite E.
  - assert (exists_at s src = true) as ->.
    { destruct H as (data & Hs & _). apply exists_at_true. by rewrite Hs. }
    cbn [when]. destruct (copy2_same _ _ _ H) as [Hr Hs].
    destruct (bind_ok_eq (copy2 src dst) (λ _, print msg) s tt Hr) as [-> ->].
    done.
Qed.

Lemma asset_done_agree src dst s s' :
  s' !! src = s !! src → s' !! dst = s !! dst →
  s' !! (dst </> name_of src) = s !! (dst </> name_of src) →
  asset_done src dst s → asset_done src dst s'.
Proof.
  intros H1 H2 H3 [E|H].
  - left. unfold exists_at in *. by rewrite H1.
  - right. by eapply copied_agree.
Qed.

(** A method that writes away from the three paths keeps the fact. *)
Lemma keeps_asset_done {A : Type} (W : path → Prop) src dst (m : M A) :
  steps (evolves W) m →
  ¬ W src → ¬ W dst → ¬ W (dst </> name_of src) →
  keeps (asset_done src dst) m.
Proof.
  intros Hm H1 H2 H3. eapply keeps_only_in; [done|].
  intros s s' Ho. apply asset_done_agree; by apply Ho.
Qed.
(** *** [move_assets]: the known components and utilities *)

Definition comp_src (c : string) : path :=
  base </> "Campus-Tour-NYUAD-main" </> c.
Definition comp_dst (c : string) : path :=
  base </> "src" </> "components" </> c.
Definition utils_dir : path := base </> "webxr-samples-main" </> "js".
Definition util_src (u : string) : path := utils_dir </> u.
Definition util_dst (u : string) : path := base </> "src" </> "utils" </> u.

Definition copy_components : M unit :=
  for_each aframe_components (λ component,
    copy_if_exists (comp_src component) (comp_dst component)
      ("   ✅ Moved component: " ++ component)%string).

Definition copy_utils : M unit :=
  let* e := path_exists utils_dir in
  when e (
    for_each util_files (λ util_file,
      copy_if_exists (util_src util_file) (util_dst util_file)
        ("   ✅ Moved utility: " ++ util_file)%string)).

Lemma move_assets_unfold :
  move_assets self
  = (print (nl ++ "📦 Organizing assets...")%string ;;
     copy_components ;; copy_utils ;; _move_media_files self).
Proof. reflexivity. Qed.

Definition components_done (s : FS) : Prop :=
  ∀ c, c ∈ aframe_components → asset_done (comp_src c) (comp_dst c) s.

Definition utils_done (s : FS) : Prop :=
  exists_at s utils_dir = false
  ∨ ∀ u, u ∈ util_files → asset_done (util_src u) (util_dst u) s.

Lemma copy_components_evolves :
  steps (evolves (λ p, (base </> "src" </> "components") `suffix_of` p))
    copy_components.
Proof.
  apply steps_for_each; [apply _|]. intros c _.
  eapply steps_evolves_mono; [|apply copy_if_exists_evolves].
  intros p [->| ->]; unfold comp_dst, joinname.
  - by apply suffix_cons_r.
  - by do 2 apply suffix_cons_r.
Qed.

Lemma copy_utils_evolves :
  steps (evolves (λ p, (base </> "src" </> "utils") `suffix_of` p)) copy_utils.
Proof.
  apply steps_bind; [apply _|apply steps_gets; apply _|]. intros e.
  apply steps_when; [apply _|].
  apply steps_for_each; [apply _|]. intros c _.
  eapply steps_evolves_mono; [|apply copy_if_exists_evolves].
  intros p [->| ->]; unfold util_dst, joinname.
  - by apply suffix_cons_r.
  - by do 2 apply suffix_cons_r.
Qed.

Lemma copy_components_establishes :
  establishes components_done copy_components.
Proof.
  apply (establishes_for_each (λ c, asset_done (comp_src c) (comp_dst c))).
  - intros c _. eapply evolves_sound, copy_if_exists_evolves.
  - intros c _. apply copy_if_exists_establishes.
  - intros c _. apply copy_if_exists_fixes.
  - intros x y _ _ Hne.
    eapply keeps_asset_done; [apply copy_if_exists_evolves|..];
      unfold comp_src, comp_dst, joinname, name_of; cbn [head default];
      (intros [E|E]; revert E; path_neq).
Qed.

Lemma copy_components_fixes : fixes components_done copy_components.
Proof.
  apply (fixes_for_each (λ c, asset_done (comp_src c) (comp_dst c))).
  intros c _. apply copy_if_exists_fixes.
Qed.

Lemma copy_utils_establishes : establishes utils_done copy_utils.
Proof.
  intros s Hwf. unfold copy_utils, path_exists. rewrite bind_gets.
  destruct (exists_at s utils_dir) eqn:E; cbn [when].
  - intros H. right.
    revert s Hwf H E. 
    assert (establishes (λ s, ∀ u, u ∈ util_files →
              asset_done (util_src u) (util_dst u) s)
              (for_each util_files (λ util_file,
                 copy_if_exists (util_src util_file) (util_dst util_file)
                   ("   ✅ Moved utility: " ++ util_file)%string))) as Hest.
    { apply (establishes_for_each (λ u, asset_done (util_src u) (util_dst u))).
      - intros c _. eapply evolves_sound, copy_if_exists_evolves.
      - intros c _. apply copy_if_exists_establishes.
      - intros c _. apply copy_if_exists_fixes.
      - intros x y _ _ Hne.
        eapply keeps_asset_done; [apply copy_if_exists_evolves|..];
          unfold util_src, util_dst, utils_dir, joinname, name_of;
          cbn [head default];
          (intros [E|E]; revert E; path_neq). }
    intros s Hwf H _. by apply Hest.
  - intros _. by left.
Qed.

Lemma copy_utils_fixes : fixes utils_done copy_utils.
Proof.
  intros s Hwf H. unfold copy_utils, path_exists. rewrite bind_gets.
  destruct (exists_at s utils_dir) eqn:E; cbn [when]; [|done].
  destruct H as [H|H]; [congruence|].
  apply (fixes_for_each (λ u, asset_done (util_src u) (util_dst u)));
    [|done..].
  intros c _. apply copy_if_exists_fixes.
Qed.

Lemma copy_if_exists_atomic src dst msg : atomic (copy_if_exists src dst msg).
Proof.
  intros s e. unfold copy_if_exists, path_exists. rewrite bind_gets.
  destruct (exists_at s src); cbn [when]; [|done].
  destruct (res (copy2 src dst s)) as [[]|e'] eqn:E.
  - by destruct (bind_ok_eq (copy2 src dst) (λ _, print msg) s tt E) as [-> _].
  - destruct (bind_raise_eq (copy2 src dst) (λ _, print msg) s e' E) as [_ ->].
    intros _. by eapply copy2_raise.
Qed.

Lemma copy_components_refails : refails copy_components.
Proof.
  apply (refails_for_each (λ c, asset_done (comp_src c) (comp_dst c))).
  - intros c _. eapply evolves_sound, copy_if_exists_evolves.
  - intros c _. apply copy_if_exists_establishes.
  - intros c _. apply copy_if_exists_fixes.
  - intros x y _ _ Hne.
    eapply keeps_asset_done; [apply copy_if_exists_evolves|..];
      unfold comp_src, comp_dst, joinname, name_of; cbn [head default];
      (intros [E|E]; revert E; path_neq).
  - intros c _. apply atomic_refails, copy_if_exists_atomic.
Qed.

Lemma copy_utils_refails : refails copy_utils.
Proof.
  intros s e Hwf.
  assert (Hg := evolves_grows _ _ _ (copy_utils_evolves s)).
  revert Hg. unfold copy_utils, path_exists. rewrite bind_gets.
  destruct (exists_at s utils_dir) eqn:E; cbn [when]; [|done].
  intros Hg Hr. rewrite bind_gets.
  assert (exists_at (fs_of (for_each util_files (λ util_file,
            copy_if_exists (util_src util_file) (util_dst util_file)
              ("   ✅ Moved utility: " ++ util_file)%string) s)) utils_dir
          = true) as ->.
  { apply exists_at_true in E as [n Hn]. apply exists_at_true.
    destruct (Hg _ _ Hn) as (n' & -> & _). done. }
  cbn [when]. revert s Hwf Hr E Hg.
  assert (refails (for_each util_files (λ util_file,
            copy_if_exists (util_src util_file) (util_dst util_file)
              ("   ✅ Moved utility: " ++ util_file)%string))) as Hre.
  { apply (refails_for_each (λ u, asset_done (util_src u) (util_dst u))).
    - intros c _. eapply evolves_sound, copy_if_exists_evolves.
    - intros c _. apply copy_if_exists_establishes.
    - intros c _. apply copy_if_exists_fixes.
    - intros x y _ _ Hne.
      eapply keeps_asset_done; [apply copy_if_exists_evolves|..];
        unfold util_src, util_dst, utils_dir, joinname, name_of;
        cbn [head default];
        (intros [E|E]; revert E; path_neq).
    - intros c _. apply atomic_refails, copy_if_exists_atomic. }
  intros s Hwf Hr _ _. by apply Hre.
Qed.

Lemma components_done_agree s s' :
  (∀ p, (base </> "Campus-Tour-NYUAD-main") `suffix_of` p
        ∨ (base </> "src" </> "components") `suffix_of` p →
        s' !! p = s !! p) →
  components_done s → components_done s'.
Proof.
  intros Ha H c Hc. eapply asset_done_agree; [..|by apply H];
    apply Ha; unfold comp_src, comp_dst, joinname, name_of; cbn [head default].
  - left. by apply suffix_cons_r.
  - right. by apply suffix_cons_r.
  - right. by do 2 apply suffix_cons_r.
Qed.

Lemma utils_done_agree s s' :
  (∀ p, utils_dir `suffix_of` p
        ∨ (base </> "src" </> "utils") `suffix_of` p →
        s' !! p = s !! p) →
  utils_done s → utils_done s'.
Proof.
  intros Ha [H|H].
  - left. unfold exists_at in *. rewrite Ha; [done|]. by left.
  - right. intros u Hu. eapply asset_done_agree; [..|by apply H];
      apply Ha; unfold util_src, util_dst, joinname, name_of; cbn [head default].
    + left. by apply suffix_cons_r.
    + right. by apply suffix_cons_r.
    + right. by do 2 apply suffix_cons_r.
Qed.
End methods.

(** ** [_move_media_files]: copying one tree *)

Section tree.
Variables src dest : path.
Hypothesis src_dest_apart : apart src dest.

(** The loop body and the block guarded by [src.exists()], as they stand
    in [_move_media_files]. *)
Definition copy_item (item : path) : M unit :=
  let* f := is_file item in
  when f (
    let* relative_path := relative_to item src in
    let dest_file := joinpath dest relative_path in
    mkdir true true (parent dest_file) ;;
    copy2 item dest_file).

Definition copy_tree : M unit :=
  let* e := path_exists src in
  when e (
    (let* items := rglob src in for_each items copy_item) ;;
    print ("   ✅ Moved media from: " ++ name_of src)%string).

Definition rglob_list (s : FS) : list path :=
  if is_dir_at s src
  then (map_to_list (filter (below src) s)).*1
  else [].

Lemma elem_of_rglob_list s x :
  x ∈ rglob_list s ↔
  s !! src = Some Dir ∧ is_Some (s !! x) ∧ src `suffix_of` x ∧ x ≠ src.
Proof.
  unfold rglob_list. destruct (is_dir_at s src) eqn:E.
  - apply is_dir_at_true in E. rewrite list_elem_of_fmap. split.
    + intros ([y n] & -> & Hy). apply elem_of_map_to_list in Hy.
      apply map_lookup_filter_Some in Hy as [Hy [? ?]]. simpl in *. eauto.
    + intros (_ & [n Hn] & ? & ?). exists (x, n). split; [done|].
      apply elem_of_map_to_list. by apply map_lookup_filter_Some.
  - split; [by intros ?%elem_of_nil|].
    intros (H & _). apply is_dir_at_true in H. congruence.
Qed.

(** What is below [src] is of the form [rel ++ src]. *)
Lemma below_src x :
  src `suffix_of` x → x ≠ src → ∃ rel, x = rel ++ src ∧ rel ≠ [].
Proof.
  intros [rel ->] Hne. exists rel. split; [done|]. by intros ->.
Qed.

Lemma relative_to_app rel : relative_to (rel ++ src) src = ret rel.
Proof.
  unfold relative_to. rewrite bool_decide_eq_true_2 by by apply suffix_app_r.
  f_equal. rewrite length_app.
  replace (length rel + length src - length src) with (length rel) by lia.
  by rewrite take_app_length.
Qed.

Lemma copy_item_unfold rel s :
  copy_item (rel ++ src) s
  = (let* f := is_file (rel ++ src) in
     when f (mkdir true true (parent (rel ++ dest)) ;;
             copy2 (rel ++ src) (rel ++ dest))) s.
Proof.
  unfold copy_item. rewrite relative_to_app. unfold is_file.
  rewrite !bind_gets. destruct (is_file_at s (rel ++ src)); [|done].
  cbn [when]. by rewrite bind_ret.
Qed.

(** The paths below [src] are out of reach of the copy. *)
Definition near_dest (p : path) : Prop := dest `suffix_of` p ∨ p `suffix_of` dest.

Lemma src_not_near_dest x : src `suffix_of` x → ¬ near_dest x.
Proof.
  intros Hx [H|H].
  - by eapply apart_below.
  - by eapply apart_above.
Qed.

Lemma copy_item_evolves item : steps (evolves near_dest) (copy_item item).
Proof.
  unfold copy_item.
  apply steps_bind; [apply _|apply steps_gets; apply _|]. intros f.
  apply steps_when; [apply _|].
  apply steps_bind; [apply _| |intros rel].
  { unfold relative_to. destruct (bool_decide (src `suffix_of` item));
      [apply steps_ret|apply steps_raise]; apply _. }
  apply steps_bind; [apply _| |intros _].
  - eapply steps_evolves_mono; [|apply mkdir_evolves].
    intros q Hq. unfold parent, joinpath in Hq.
    destruct (suffix_tail_app _ _ _ Hq); [by left|by right].
  - eapply steps_evolves_mono; [|apply copy2_evolves].
    intros q [->| ->]; left; unfold joinpath, joinname.
    + by apply suffix_app_r.
    + by apply suffix_cons_r, suffix_app_r.
Qed.

Lemma copy_tree_evolves : steps (evolves near_dest) copy_tree.
Proof.
  unfold copy_tree.
  apply steps_bind; [apply _|apply steps_gets; apply _|]. intros e.
  apply steps_when; [apply _|].
  apply steps_bind; [apply _| |intros _; apply steps_print; apply _].
  apply steps_bind; [apply _|apply steps_gets; apply _|]. intros items.
  apply steps_for_each; [apply _|]. intros item _. apply copy_item_evolves.
Qed.

(** The entry [rel ++ src] is no regular file, or its destination
    directory exists and its bytes are in place. *)
Definition item_done (rel : path) (s : FS) : Prop :=
  is_file_at s (rel ++ src) = false
  ∨ (dir_at (parent (rel ++ dest)) s ∧ copied s (rel ++ src) (rel ++ dest)).

Lemma copy_item_establishes rel :
  establishes (item_done rel) (copy_item (rel ++ src)).
Proof.
  intros s Hwf. rewrite copy_item_unfold. unfold is_file. rewrite bind_gets.
  destruct (is_file_at s (rel ++ src)) eqn:E; cbn [when].
  - intros H. apply bind_res_ok in H as ([] & Hm & Hc & ->). right. split.
    + eapply dir_at_grows.
      * eapply evolves_grows, copy2_evolves.
      * by apply mkdir_establishes in Hm.
    + by apply copy2_copied.
  - intros _. by left.
Qed.

Lemma copy_item_fixes rel : fixes (item_done rel) (copy_item (rel ++ src)).
Proof.
  intros s Hwf H. rewrite copy_item_unfold. unfold is_file. rewrite bind_gets.
  destruct (is_file_at s (rel ++ src)) eqn:E; cbn [when]; [|done].
  destruct H as [H|[Hd Hc]]; [congruence|].
  destruct (mkdir_fixes true _ s Hwf Hd) as [Hr Hs].
  destruct (bind_ok_eq (mkdir true true (parent (rel ++ dest)))
              (λ _, copy2 (rel ++ src) (rel ++ dest)) s tt Hr) as [-> ->].
  rewrite Hs. by apply copy2_same.
Qed.

(** Two different entries below [src] are written to different places:
    otherwise one of them would sit inside the other, a regular file. *)
Lemma copy_targets_differ s rx ry dx dy :
  wf s → rx ≠ ry →
  s !! (rx ++ src) = Some (File dx) → s !! (ry ++ src) = Some (File dy) →
  copy_target s (rx ++ src) (rx ++ dest) ≠ copy_target s (ry ++ src) (ry ++ dest).
Proof.
  intros Hwf Hne Hx Hy. unfold copy_target, joinname.
  destruct (is_dir_at s (rx ++ dest)), (is_dir_at s (ry ++ dest)); intros E.
  - injection E as _ E. by apply app_inv_tail in E.
  - change (name_of (rx ++ src) :: rx ++ dest)
      with ((name_of (rx ++ src) :: rx) ++ dest) in E.
    apply app_inv_tail in E. subst ry. simpl in Hy.
    apply wf_lookup in Hy; [congruence|done].
  - change (name_of (ry ++ src) :: ry ++ dest)
      with ((name_of (ry ++ src) :: ry) ++ dest) in E.
    apply app_inv_tail in E. subst rx. simpl in Hx.
    apply wf_lookup in Hx; [congruence|done].
  - by apply app_inv_tail in E.
Qed.

Lemma copy_target_near_dest s rel :
  near_dest (copy_target s (rel ++ src) (rel ++ dest)).
Proof.
  left. unfold copy_target, joinname. destruct (is_dir_at s (rel ++ dest)).
  - by apply suffix_cons_r, suffix_app_r.
  - by apply suffix_app_r.
Qed.

Lemma keeps_item_done rx ry :
  rx ≠ ry → keeps (item_done rx) (copy_item (ry ++ src)).
Proof.
  intros Hne s Hwf HF.
  assert (Hev := copy_item_evolves (ry ++ src) s).
  assert (fs_of (copy_item (ry ++ src) s) !! (rx ++ src) = s !! (rx ++ src))
    as Hx.
  { eapply evolves_only_in; [done|]. apply src_not_near_dest.
    by apply suffix_app_r. }
  destruct HF as [HF|[Hd Hc]].
  { left. unfold is_file_at in *. by rewrite Hx. }
  revert Hev Hx. rewrite copy_item_unfold. unfold is_file. rewrite bind_gets.
  destruct (is_file_at s (ry ++ src)) eqn:Ey; cbn [when];
    [|intros _ _; right; done].
  apply is_file_at_true in Ey as [dy Hy].
  set (m := mkdir true true (parent (ry ++ dest))).
  assert (s ⊆ fs_of (m s)) as Hsub by apply mkdir_parents_subseteq.
  assert (wf (fs_of (m s))) as Hwf1 by (apply sound_wf; [apply mkdir_sound|done]).
  assert (dir_at (parent (rx ++ dest)) (fs_of (m s))) as Hd1
    by by eapply lookup_weaken.
  assert (copied (fs_of (m s)) (rx ++ src) (rx ++ dest)) as Hc1
    by by eapply copied_subseteq.
  eapply lookup_weaken in Hy; [|exact Hsub].
  unfold bind. destruct (res (m s)) as [[]|e]; cbn [fs_of];
    [|intros _ _; right; done].
  set (s1 := fs_of (m s)) in *. intros _ _. right.
  destruct (res (copy2 (ry ++ src) (ry ++ dest) s1)) as [[]|e] eqn:Hr;
    [|by rewrite (copy2_raise _ _ _ _ Hr)].
  apply copy2_ok in Hr as (dy' & Hy' & _ & Hnd & ->).
  destruct Hc1 as (dx & Hx1 & Hnx & Htx).
  assert (copy_target s1 (ry ++ src) (ry ++ dest)
          ≠ copy_target s1 (rx ++ src) (rx ++ dest)) as Hdiff.
  { intros E. symmetry in E. revert E. by eapply copy_targets_differ. }
  set (t := copy_target s1 (ry ++ src) (ry ++ dest)) in *.
  assert (t ≠ rx ++ dest) as Hnt.
  { intros E. apply Hdiff. unfold copy_target, is_dir_at.
    rewrite <- E. destruct (s1 !! t) as [[|]|]; done. }
  split.
  - unfold dir_at. rewrite lookup_insert_ne; [done|]. intros E.
    rewrite E in Hnd. done.
  - assert (copy_target (<[t := File dy']> s1) (rx ++ src) (rx ++ dest)
            = copy_target s1 (rx ++ src) (rx ++ dest)) as Et.
    { unfold copy_target, is_dir_at. by rewrite lookup_insert_ne. }
    exists dx. rewrite Et. split; [|split; [done|]].
    + rewrite lookup_insert_ne; [done|]. intros E.
      eapply (src_not_near_dest (rx ++ src)); [by apply suffix_app_r|].
      rewrite <- E. apply copy_target_near_dest.
    + by rewrite lookup_insert_ne.
Qed.
(** *** The whole tree *)

Definition rel_of (x : path) : path := take (length x - length src) x.

Lemma rel_of_app rel : rel_of (rel ++ src) = rel.
Proof.
  unfold rel_of. rewrite length_app.
  replace (length rel + length src - length src) with (length rel) by lia.
  by rewrite take_app_length.
Qed.

Definition tree_done (s : FS) : Prop :=
  exists_at s src = false
  ∨ ∀ rel, rel ++ src ∈ rglob_list s → item_done rel s.

Lemma copy_tree_unfold s :
  exists_at s src = true →
  res (copy_tree s) = res (for_each (rglob_list s) copy_item s)
  ∧ fs_of (copy_tree s) = fs_of (for_each (rglob_list s) copy_item s).
Proof.
  intros E. unfold copy_tree, path_exists. rewrite bind_gets, E. cbn [when].
  unfold rglob. unfold bind at 1 3. rewrite bind_gets.
  fold (rglob_list s).
  by destruct (res (for_each (rglob_list s) copy_item s)) as [[]|].
Qed.

Lemma copy_tree_absent s :
  exists_at s src = false → copy_tree s = Outcome (Ok tt) s [].
Proof.
  intros E. unfold copy_tree, path_exists. by rewrite bind_gets, E.
Qed.

Lemma for_each_items_establishes (xs : list path) :
  (∀ x, x ∈ xs → src `suffix_of` x) →
  establishes (λ s, ∀ x, x ∈ xs → item_done (rel_of x) s)
    (for_each xs copy_item).
Proof.
  intros Hxs.
  apply (establishes_for_each (λ x, item_done (rel_of x))).
  - intros x _. eapply evolves_sound, copy_item_evolves.
  - intros x [rel ->]%Hxs. rewrite rel_of_app. apply copy_item_establishes.
  - intros x [rel ->]%Hxs. rewrite rel_of_app. apply copy_item_fixes.
  - intros x y [rx ->]%Hxs [ry ->]%Hxs Hne. rewrite rel_of_app.
    apply keeps_item_done. by intros ->.
Qed.

Lemma for_each_items_fixes (xs : list path) :
  (∀ x, x ∈ xs → src `suffix_of` x) →
  fixes (λ s, ∀ x, x ∈ xs → item_done (rel_of x) s) (for_each xs copy_item).
Proof.
  intros Hxs. apply (fixes_for_each (λ x, item_done (rel_of x))).
  intros x [rel ->]%Hxs. rewrite rel_of_app. apply copy_item_fixes.
Qed.

Lemma rglob_list_below s x : x ∈ rglob_list s → src `suffix_of` x.
Proof. by intros (_ & _ & ? & _)%elem_of_rglob_list. Qed.

(** Two states with the same entries at and below [src] list the same
    items. *)
Lemma rglob_list_agree s s' x :
  (∀ p, src `suffix_of` p → s' !! p = s !! p) →
  x ∈ rglob_list s' → x ∈ rglob_list s.
Proof.
  intros Ha (Hs & Hx & Hb & Hne)%elem_of_rglob_list.
  apply elem_of_rglob_list. rewrite <- !Ha by done. done.
Qed.

Lemma copy_tree_establishes : establishes tree_done copy_tree.
Proof.
  intros s Hwf. destruct (exists_at s src) eqn:E.
  - destruct (copy_tree_unfold s E) as [-> ->]. intros Hr. right.
    intros rel Hrel.
    rewrite <- (rel_of_app rel).
    apply (for_each_items_establishes (rglob_list s)); try done.
    + intros x. apply rglob_list_below.
    + eapply rglob_list_agree; [|done]. intros p Hp.
      eapply (evolves_only_in near_dest).
      * apply (steps_for_each (evolves near_dest)).
        intros ? _. apply copy_item_evolves.
      * by apply src_not_near_dest.
  - rewrite (copy_tree_absent s E). intros _. by left.
Qed.

Lemma copy_tree_fixes : fixes tree_done copy_tree.
Proof.
  intros s Hwf H. destruct (exists_at s src) eqn:E.
  - destruct (copy_tree_unfold s E) as [-> ->].
    destruct H as [H|H]; [congruence|].
    apply for_each_items_fixes; [|done|].
    + intros x. apply rglob_list_below.
    + intros x Hx. destruct (rglob_list_below _ _ Hx) as [rel ->].
      rewrite rel_of_app. by apply H.
  - by rewrite (copy_tree_absent s E).
Qed.

(** Two states with the same entries at and below [src] list them in the
    same order. *)
Lemma rglob_list_eq s s' :
  (∀ p, src `suffix_of` p → s' !! p = s !! p) → rglob_list s' = rglob_list s.
Proof.
  intros Ha. unfold rglob_list, is_dir_at. rewrite (Ha src) by done.
  destruct (s !! src) as [[|]|]; try done.
  f_equal. f_equal. apply map_eq. intros p. apply option_eq. intros n.
  rewrite !map_lookup_filter_Some. unfold below. simpl.
  split; intros [H [Hb Hne]]; (split; [|done]); [rewrite <- Ha|rewrite Ha]; done.
Qed.

Lemma copy_item_refails rel : refails (copy_item (rel ++ src)).
Proof.
  assert (refails (mkdir true true (parent (rel ++ dest)) ;;
                   copy2 (rel ++ src) (rel ++ dest))) as Hre.
  { apply (refails_seq (dir_at (parent (rel ++ dest)))).
    - apply mkdir_sound.
    - eapply evolves_sound, copy2_evolves.
    - apply mkdir_establishes.
    - apply mkdir_fixes.
    - apply keeps_dir_at. eapply evolves_sound, copy2_evolves.
    - apply atomic_refails, mkdir_atomic.
    - apply atomic_refails, copy2_atomic. }
  assert (∀ t, is_file_at t (rel ++ src) = true →
            copy_item (rel ++ src) t
            = (mkdir true true (parent (rel ++ dest)) ;;
               copy2 (rel ++ src) (rel ++ dest)) t) as Hu.
  { intros t Ht. rewrite copy_item_unfold. unfold is_file.
    by rewrite bind_gets, Ht. }
  intros s e Hwf.
  assert (is_file_at (fs_of (copy_item (rel ++ src) s)) (rel ++ src)
          = is_file_at s (rel ++ src)) as Hx.
  { unfold is_file_at.
    rewrite (evolves_only_in near_dest s _ (copy_item_evolves _ s)); [done|].
    apply src_not_near_dest. by apply suffix_app_r. }
  destruct (is_file_at s (rel ++ src)) eqn:E.
  - rewrite (Hu _ Hx). rewrite (Hu s E). by apply Hre.
  - rewrite copy_item_unfold. unfold is_file. by rewrite bind_gets, E.
Qed.

Lemma for_each_items_refails (xs : list path) :
  (∀ x, x ∈ xs → src `suffix_of` x) → refails (for_each xs copy_item).
Proof.
  intros Hxs.
  apply (refails_for_each (λ x, item_done (rel_of x))).
  - intros x _. eapply evolves_sound, copy_item_evolves.
  - intros x [rel ->]%Hxs. rewrite rel_of_app. apply copy_item_establishes.
  - intros x [rel ->]%Hxs. rewrite rel_of_app. apply copy_item_fixes.
  - intros x y [rx ->]%Hxs [ry ->]%Hxs Hne. rewrite rel_of_app.
    apply keeps_item_done. by intros ->.
  - intros x [rel ->]%Hxs. apply copy_item_refails.
Qed.

Lemma copy_tree_refails : refails copy_tree.
Proof.
  intros s e Hwf Hr.
  destruct (exists_at s src) eqn:E; [|by rewrite (copy_tree_absent s E) in Hr].
  assert (∀ p, src `suffix_of` p → fs_of (copy_tree s) !! p = s !! p) as Ha.
  { intros p Hp. eapply evolves_only_in; [apply copy_tree_evolves|].
    by apply src_not_near_dest. }
  assert (exists_at (fs_of (copy_tree s)) src = true) as E'.
  { unfold exists_at in *. by rewrite Ha. }
  destruct (copy_tree_unfold _ E') as [-> ->].
  rewrite (rglob_list_eq s _ Ha).
  destruct (copy_tree_unfold s E) as [Hr1 Hs1]. rewrite Hs1.
  rewrite Hr1 in Hr. apply for_each_items_refails; [|done..].
  intros x. apply rglob_list_below.
Qed.

Lemma item_done_agree rel s s' :
  rel ≠ [] →
  (∀ p, src `suffix_of` p ∨ dest `suffix_of` p → s' !! p = s !! p) →
  item_done rel s → item_done rel s'.
Proof.
  intros Hrel Ha [H|[Hd Hc]].
  - left. unfold is_file_at in *. rewrite Ha; [done|]. left.
    by apply suffix_app_r.
  - right. split.
    + unfold dir_at in *. rewrite Ha; [done|]. right.
      destruct rel as [|x rel]; [done|]. simpl. by apply suffix_app_r.
    + eapply copied_agree; [..|done]; apply Ha.
      * left. by apply suffix_app_r.
      * right. by apply suffix_app_r.
      * right. unfold joinname. by apply suffix_cons_r, suffix_app_r.
Qed.

Lemma tree_done_agree s s' :
  (∀ p, src `suffix_of` p ∨ dest `suffix_of` p → s' !! p = s !! p) →
  tree_done s → tree_done s'.
Proof.
  intros Ha [H|H].
  - left. unfold exists_at in *. rewrite Ha; [done|]. by left.
  - right. intros rel Hrel.
    assert (rel ≠ []) as Hne.
    { intros ->. apply elem_of_rglob_list in Hrel as (_ & _ & _ & ?). done. }
    eapply item_done_agree; [done..|]. apply H.
    eapply rglob_list_agree; [|done]. intros p Hp. apply Ha. by left.
Qed.

(** A method that writes away from both trees keeps the fact. *)
Lemma keeps_tree_done {A : Type} (W : path → Prop) (m : M A) :
  steps (evolves W) m →
  (∀ p, W p → src `suffix_of` p → False) →
  (∀ p, W p → dest `suffix_of` p → False) →
  keeps tree_done m.
Proof.
  intros Hm H1 H2. eapply keeps_only_in; [done|].
  intros s s' Ho. apply tree_done_agree. intros p [Hp|Hp]; apply Ho.
  - intros HW. by eapply H1.
  - intros HW. by eapply H2.
Qed.
End tree.

(** ** Where a method writes and what a fact reads

    A method writes near a few roots; a fact reads at and below a few roots.
    Both lists are given relative to the base path, so that "no write is
    where the fact reads" is a comparison of concrete lists. *)

Definition near_any (ds : list path) (p : path) : Prop :=
  ∃ d, d ∈ ds ∧ near_dest d p.

Definition below_any (rs : list path) (p : path) : Prop :=
  ∃ r, r ∈ rs ∧ r `suffix_of` p.

Definition rooted (base : path) (rels : list path) : list path :=
  (λ r, r ++ base) <$> rels.

Definition apart_rels (rs ds : list path) : bool :=
  forallb (λ r,
    forallb (λ d,
      negb (bool_decide (r `suffix_of` d)) && negb (bool_decide (d `suffix_of` r)))
      ds) rs.

Definition incl_rels (ds ds' : list path) : bool :=
  forallb (λ d, bool_decide (d ∈ ds')) ds.

Lemma near_dest_apart (r d p : path) :
  apart r d → near_dest d p → r `suffix_of` p → False.
Proof.
  intros Ha [H|H] Hr.
  - by eapply apart_below.
  - by eapply apart_above.
Qed.

Lemma apart_rels_sound (base : path) (rs ds : list path) (p : path) :
  apart_rels rs ds = true →
  near_any (rooted base ds) p → below_any (rooted base rs) p → False.
Proof.
  intros Hap (d & Hd & Hn) (r & Hr & Hb).
  apply list_elem_of_fmap in Hd as (d' & -> & Hd).
  apply list_elem_of_fmap in Hr as (r' & -> & Hr).
  unfold apart_rels in Hap. rewrite forallb_forall in Hap.
  apply list_elem_of_In in Hr. specialize (Hap _ Hr).
  rewrite forallb_forall in Hap.
  apply list_elem_of_In in Hd. specialize (Hap _ Hd).
  apply andb_prop in Hap as [H1 H2].
  apply negb_true_iff in H1, H2.
  eapply near_dest_apart; [|done..]. by apply apart_rel.
Qed.

Lemma near_any_incl (base : path) (ds ds' : list path) (p : path) :
  incl_rels ds ds' = true →
  near_any (rooted base ds) p → near_any (rooted base ds') p.
Proof.
  intros Hin (d & Hd & Hn). exists d. split; [|done].
  apply list_elem_of_fmap in Hd as (d' & -> & Hd).
  apply list_elem_of_fmap. exists d'. split; [done|].
  unfold incl_rels in Hin. rewrite forallb_forall in Hin.
  apply list_elem_of_In in Hd. specialize (Hin _ Hd).
  by apply bool_decide_eq_true in Hin.
Qed.

(** [writes base ds m]: every change [m] makes is near one of the roots. *)
Definition writes {A : Type} (base : path) (ds : list path) (m : M A) : Prop :=
  steps (evolves (near_any (rooted base ds))) m.

(** [reads base rs F]: the fact looks only at and below the roots. *)
Definition reads (base : path) (rs : list path) (F : FS → Prop) : Prop :=
  ∀ s s', (∀ p, below_any (rooted base rs) p → s' !! p = s !! p) → F s → F s'.

Lemma writes_incl {A : Type} (base : path) (ds ds' : list path) (m : M A) :
  incl_rels ds ds' = true → writes base ds m → writes base ds' m.
Proof.
  intros Hin. apply steps_evolves_mono. intros p. by apply near_any_incl.
Qed.

Lemma writes_sound {A : Type} (base : path) (ds : list path) (m : M A) :
  writes base ds m → sound m.
Proof. apply evolves_sound. Qed.

Lemma keeps_reads {A : Type} (base : path) (rs ds : list path) F (m : M A) :
  reads base rs F → writes base ds m → apart_rels rs ds = true → keeps F m.
Proof.
  intros HF Hm Hap. eapply keeps_only_in; [exact Hm|].
  intros s s' Ho. apply HF. intros p Hp. apply Ho.
  intros Hn. by eapply apart_rels_sound.
Qed.

Lemma reads_and (base : path) (rs : list path) (F1 F2 : FS → Prop) :
  reads base rs F1 → reads base rs F2 → reads base rs (λ s, F1 s ∧ F2 s).
Proof. intros H1 H2 s s' Ha [? ?]. split; [by eapply H1|by eapply H2]. Qed.

Lemma reads_incl (base : path) (rs rs' : list path) F :
  incl_rels rs rs' = true → reads base rs F → reads base rs' F.
Proof.
  intros Hin HF s s' Ha. apply HF. intros p (r & Hr & Hb). apply Ha.
  exists r. split; [|done].
  apply list_elem_of_fmap in Hr as (r' & -> & Hr).
  apply list_elem_of_fmap. exists r'. split; [done|].
  unfold incl_rels in Hin. rewrite forallb_forall in Hin.
  apply list_elem_of_In in Hr. specialize (Hin _ Hr).
  by apply bool_decide_eq_true in Hin.
Qed.

Lemma below_any_here (base : path) (rs : list path) (r : path) (p : path) :
  r ∈ rs → (r ++ base) `suffix_of` p → below_any (rooted base rs) p.
Proof.
  intros Hr Hp. exists (r ++ base). split; [|done].
  apply list_elem_of_fmap. by exists r.
Qed.

Lemma near_any_here (base : path) (ds : list path) (d : path) (p : path) :
  d ∈ ds → near_dest (d ++ base) p → near_any (rooted base ds) p.
Proof.
  intros Hd Hp. exists (d ++ base). split; [|done].
  apply list_elem_of_fmap. by exists d.
Qed.

Lemma writes_bind {A B : Type} (base : path) (ds : list path) (m : M A) (f : A → M B) :
  writes base ds m → (∀ a, writes base ds (f a)) → writes base ds (bind m f).
Proof. apply steps_bind. apply _. Qed.

Lemma writes_print (base : path) (ds : list path) line : writes base ds (print line).
Proof. apply steps_print. apply _. Qed.

Lemma writes_ret {A : Type} (base : path) (ds : list path) (a : A) :
  writes base ds (ret a).
Proof. apply steps_ret. apply _. Qed.

Lemma writes_gets {A : Type} (base : path) (ds : list path) (g : FS → A) :
  writes base ds (gets g).
Proof. apply steps_gets. apply _. Qed.

Lemma writes_when (base : path) (ds : list path) b m :
  writes base ds m → writes base ds (when b m).
Proof. apply steps_when. apply _. Qed.

Lemma writes_for_each {A : Type} (base : path) (ds : list path) (xs : list A) (body : A → M unit) :
  (∀ x, x ∈ xs → writes base ds (body x)) → writes base ds (for_each xs body).
Proof. apply steps_for_each. apply _. Qed.

(** A method that writes nowhere leaves the state as it is. *)
Lemma writes_nowhere {A : Type} (base : path) (m : M A) s :
  writes base [] m → fs_of (m s) = s.
Proof.
  intros H. apply map_eq. intros p.
  eapply evolves_only_in; [apply H|].
  intros (d & Hd & _). by apply elem_of_nil in Hd.
Qed.

Lemma write_file_writes (base rel : path) data :
  writes base [rel] (write_file (rel ++ base) data).
Proof.
  eapply steps_evolves_mono; [|apply write_file_evolves].
  intros p <-. eapply near_any_here; [left|]. by left.
Qed.

Lemma mkdir_here_writes (base rel : path) b :
  writes base [rel] (mkdir false b (rel ++ base)).
Proof.
  eapply steps_evolves_mono; [|apply mkdir_here_evolves].
  intros p <-. eapply near_any_here; [left|]. by left.
Qed.

(** ** Regular files with given bytes *)

Definition file_at (p : path) (data : string) (s : FS) : Prop :=
  s !! p = Some (File data).

Lemma write_file_establishes (p : path) data :
  establishes (file_at p data) (write_file p data).
Proof.
  intros s _ H. apply write_file_ok in H as [_ ->]. apply lookup_insert_eq.
Qed.

Lemma write_file_fixes (p : path) data : fixes (file_at p data) (write_file p data).
Proof. intros s _ H. by apply write_file_same. Qed.

Lemma file_at_reads (base rel : path) data :
  reads base [rel] (file_at (rel ++ base) data).
Proof.
  intros s s' Ha H. unfold file_at. rewrite Ha; [done|].
  eapply below_any_here; [left|done].
Qed.

Lemma dir_at_reads (base rel : path) : reads base [rel] (dir_at (rel ++ base)).
Proof.
  intros s s' Ha H. unfold dir_at. rewrite Ha; [done|].
  eapply below_any_here; [left|done].
Qed.

(** The components of a path above [b], innermost first. *)
Ltac rel_of_path b p :=
  lazymatch p with
  | b => constr:(@nil string)
  | joinname ?r ?x => let xs := rel_of_path b r in constr:(x :: xs)
  | ?x :: ?r => let xs := rel_of_path b r in constr:(x :: xs)
  end.

Ltac writes_leaf b :=
  lazymatch goal with
  | |- writes _ _ (write_file ?p _) =>
      let r := rel_of_path b p in
      eapply writes_incl; [|apply (write_file_writes b r)];
      vm_compute; reflexivity
  | |- writes _ _ (json_dump _ ?p _) =>
      let r := rel_of_path b p in
      unfold json_dump;
      eapply writes_incl; [|apply (write_file_writes b r)];
      vm_compute; reflexivity
  | |- writes _ _ (mkdir false _ ?p) =>
      let r := rel_of_path b p in
      eapply writes_incl; [|apply (mkdir_here_writes b r)];
      vm_compute; reflexivity
  end.

Ltac writes_tac b :=
  repeat first
    [ apply writes_print
    | apply writes_ret
    | apply writes_gets
    | apply writes_when
    | writes_leaf b
    | apply writes_bind; [|intros ?]
    | apply writes_for_each; intros ? ? ].

(** Straight-line code that makes directories and writes files: the facts
    it establishes, one conjunct per call, and why later calls keep them. *)
Ltac keeps_leaf b :=
  lazymatch goal with
  | |- keeps (λ _, True) _ => apply keeps_True
  | |- keeps (dir_at _) _ => apply keeps_dir_at; sound_tac
  | |- keeps _ (print _) => by apply keeps_pure
  | |- keeps _ (ret _) => by apply keeps_pure
  | |- keeps (file_at ?p _) (write_file ?q _) =>
      let r := rel_of_path b p in
      let w := rel_of_path b q in
      eapply (keeps_reads b [r] [w]);
      [apply (file_at_reads b r)|apply (write_file_writes b w)
      |vm_compute; reflexivity]
  | |- keeps (file_at ?p _) (mkdir false _ ?q) =>
      let r := rel_of_path b p in
      let w := rel_of_path b q in
      eapply (keeps_reads b [r] [w]);
      [apply (file_at_reads b r)|apply (mkdir_here_writes b w)
      |vm_compute; reflexivity]
  end.

Ltac keeps_tac b :=
  repeat first
    [ apply keeps_and
    | keeps_leaf b
    | apply keeps_bind; [sound_tac| |intros ?] ].

Ltac establishes_tac b :=
  repeat first
    [ apply establishes_print
    | apply establishes_ret
    | apply establishes_then_print
    | apply write_file_establishes
    | apply mkdir_establishes
    | (eapply establishes_seq; [sound_tac| | |]) ].

Ltac fixes_tac :=
  repeat first
    [ apply fixes_print
    | apply fixes_ret
    | apply fixes_then_print
    | apply write_file_fixes
    | apply mkdir_fixes
    | eapply fixes_seq ].

Ltac refails_tac b :=
  repeat first
    [ apply refails_print
    | apply refails_ret
    | apply refails_then_print
    | apply atomic_refails, write_file_atomic
    | apply atomic_refails, mkdir_atomic
    | eapply refails_seq;
      [ sound_tac | sound_tac
      | establishes_tac b; keeps_tac b
      | fixes_tac
      | keeps_tac b
      | | ] ].

(** Code that only looks and prints. *)
Definition looks (m : M unit) : Prop :=
  ∀ s, res (m s) = Ok tt ∧ fs_of (m s) = s.

Lemma looks_print line : looks (print line).
Proof. done. Qed.

Lemma looks_ret : looks (ret tt).
Proof. done. Qed.

Lemma looks_seq m1 m2 : looks m1 → looks m2 → looks (m1 ;; m2).
Proof.
  intros H1 H2 s. destruct (H1 s) as [Hr Hs].
  destruct (bind_ok_eq m1 (λ _, m2) s tt Hr) as [-> ->].
  rewrite Hs. apply H2.
Qed.

Lemma looks_gets {A : Type} (g : FS → A) (f : A → M unit) :
  (∀ a, looks (f a)) → looks (bind (gets g) f).
Proof. intros H s. rewrite bind_gets. apply H. Qed.

Lemma looks_when b m : looks m → looks (when b m).
Proof. by destruct b. Qed.

Lemma looks_for_each {A : Type} (xs : list A) (body : A → M unit) :
  (∀ x, looks (body x)) → looks (for_each xs body).
Proof.
  intros H. induction xs as [|x xs IH]; cbn [for_each]; [done|].
  by apply looks_seq.
Qed.

Lemma looks_fixes F m : looks m → fixes F m.
Proof. intros H s _ _. apply H. Qed.

Lemma looks_keeps F m : looks m → keeps F m.
Proof. intros H s _ HF. by destruct (H s) as [_ ->]. Qed.

Lemma looks_writes base m : looks m → writes base [] m.
Proof. intros H s. destruct (H s) as [_ ->]. reflexivity. Qed.

Lemma looks_refails m : looks m → refails m.
Proof. intros H s e _ Hr. destruct (H s) as [Hr' _]. congruence. Qed.

Lemma looks_sound m : looks m → sound m.
Proof. intros H s. destruct (H s) as [_ ->]. reflexivity. Qed.

Lemma establishes_True m : establishes (λ _, True) m.
Proof. done. Qed.

Ltac looks_tac :=
  repeat first
    [ apply looks_print
    | apply looks_ret
    | apply looks_seq
    | apply looks_when
    | apply looks_gets; intros ?
    | apply looks_for_each; intros ? ].

(** ** The methods of both scripts *)

Definition plan_rels : list path :=
  [["public"];
   ["assets"; "public"]; ["models"; "public"];
   ["textures"; "public"]; ["audio"; "public"];
   ["src"];
   ["components"; "src"]; ["utils"; "src"]; ["styles"; "src"];
   ["docs"]].

Definition tex_src_rel : path := ["textures"; "media"; "webxr-samples-main"].
Definition tex_dst_rel : path := ["textures"; "public"].
Definition gltf_src_rel : path := ["gltf"; "media"; "webxr-samples-main"].
Definition gltf_dst_rel : path := ["models"; "public"].

Section runs.
Variable base : path.

Local Abbreviation self := (__init__ base).

Lemma create_directory_structure_writes :
  writes base plan_rels (create_directory_structure self).
Proof.
  eapply steps_evolves_mono; [|apply create_directory_structure_evolves].
  intros p Hp. exists p. split; [exact Hp|]. by left.
Qed.

Lemma copy_components_writes :
  writes base [["components"; "src"]] (copy_components base).
Proof.
  eapply steps_evolves_mono; [|apply copy_components_evolves].
  intros p Hp. eapply near_any_here; [left|]. by left.
Qed.

Lemma copy_utils_writes : writes base [["utils"; "src"]] (copy_utils base).
Proof.
  eapply steps_evolves_mono; [|apply copy_utils_evolves].
  intros p Hp. eapply near_any_here; [left|]. by left.
Qed.

Lemma copy_tree_writes (srel drel : path) :
  writes base [drel] (copy_tree (srel ++ base) (drel ++ base)).
Proof.
  eapply steps_evolves_mono; [|apply copy_tree_evolves].
  intros p Hp. eapply near_any_here; [left|]. done.
Qed.

Lemma _move_media_files_unfold :
  _move_media_files self
  = (copy_tree (tex_src_rel ++ base) (tex_dst_rel ++ base) ;;
     copy_tree (gltf_src_rel ++ base) (gltf_dst_rel ++ base) ;;
     ret tt).
Proof. reflexivity. Qed.

Lemma _move_media_files_writes :
  writes base [tex_dst_rel; gltf_dst_rel] (_move_media_files self).
Proof.
  rewrite _move_media_files_unfold.
  apply writes_bind; [|intros _; apply writes_bind; [|intros _; apply writes_ret]].
  - eapply writes_incl; [|apply copy_tree_writes]. vm_compute; reflexivity.
  - eapply writes_incl; [|apply copy_tree_writes]. vm_compute; reflexivity.
Qed.

Definition assets_rels : list path :=
  [["components"; "src"]; ["utils"; "src"]; tex_dst_rel; gltf_dst_rel].

Lemma move_assets_writes : writes base assets_rels (move_assets self).
Proof.
  rewrite move_assets_unfold.
  apply writes_bind; [apply writes_print|intros _].
  apply writes_bind; [|intros _; apply writes_bind; [|intros _]].
  - eapply writes_incl; [|apply copy_components_writes]. vm_compute; reflexivity.
  - eapply writes_incl; [|apply copy_utils_writes]. vm_compute; reflexivity.
  - eapply writes_incl; [|apply _move_media_files_writes]. vm_compute; reflexivity.
Qed.

Lemma components_done_reads :
  reads base [["Campus-Tour-NYUAD-main"]; ["components"; "src"]]
    (components_done base).
Proof.
  intros s s' Ha. apply components_done_agree. intros p [Hp|Hp]; apply Ha.
  - eapply (below_any_here _ _ ["Campus-Tour-NYUAD-main"]); [set_solver|done].
  - eapply (below_any_here _ _ ["components"; "src"]); [set_solver|done].
Qed.

Lemma utils_done_reads :
  reads base [["js"; "webxr-samples-main"]; ["utils"; "src"]] (utils_done base).
Proof.
  intros s s' Ha. apply utils_done_agree. intros p [Hp|Hp]; apply Ha.
  - eapply (below_any_here _ _ ["js"; "webxr-samples-main"]); [set_solver|done].
  - eapply (below_any_here _ _ ["utils"; "src"]); [set_solver|done].
Qed.

Lemma tree_done_reads (srel drel : path) :
  reads base [srel; drel] (tree_done (srel ++ base) (drel ++ base)).
Proof.
  intros s s' Ha. apply tree_done_agree. intros p [Hp|Hp]; apply Ha.
  - eapply (below_any_here _ _ srel); [set_solver|done].
  - eapply (below_any_here _ _ drel); [set_solver|done].
Qed.

Lemma tex_apart : apart (tex_src_rel ++ base) (tex_dst_rel ++ base).
Proof. by apply apart_rel. Qed.

Lemma gltf_apart : apart (gltf_src_rel ++ base) (gltf_dst_rel ++ base).
Proof. by apply apart_rel. Qed.

(** *** [_move_media_files] and [move_assets] *)

Definition media_done (s : FS) : Prop :=
  tree_done (tex_src_rel ++ base) (tex_dst_rel ++ base) s
  ∧ (tree_done (gltf_src_rel ++ base) (gltf_dst_rel ++ base) s ∧ True).

Lemma _move_media_files_establishes :
  establishes media_done (_move_media_files self).
Proof.
  rewrite _move_media_files_unfold.
  apply establishes_seq.
  - eapply writes_sound, copy_tree_writes.
  - apply copy_tree_establishes, tex_apart.
  - apply establishes_seq.
    + eapply writes_sound, copy_tree_writes.
    + apply copy_tree_establishes, gltf_apart.
    + apply establishes_ret.
    + by apply keeps_pure.
  - eapply keeps_reads; [apply tree_done_reads| |].
    + apply writes_bind; [apply copy_tree_writes|intros _; apply writes_ret].
    + vm_compute; reflexivity.
Qed.

Lemma _move_media_files_fixes : fixes media_done (_move_media_files self).
Proof.
  rewrite _move_media_files_unfold.
  apply fixes_seq; [apply copy_tree_fixes|].
  apply fixes_seq; [apply copy_tree_fixes|apply fixes_ret].
Qed.

Lemma media_done_reads :
  reads base [tex_src_rel; tex_dst_rel; gltf_src_rel; gltf_dst_rel] media_done.
Proof.
  apply reads_and; [|apply reads_and].
  - eapply reads_incl; [|apply tree_done_reads]. vm_compute; reflexivity.
  - eapply reads_incl; [|apply tree_done_reads]. vm_compute; reflexivity.
  - done.
Qed.

Definition assets_done (s : FS) : Prop :=
  components_done base s ∧ (utils_done base s ∧ media_done s).

Definition assets_reads : list path :=
  [["Campus-Tour-NYUAD-main"]; ["components"; "src"];
   ["js"; "webxr-samples-main"]; ["utils"; "src"];
   tex_src_rel; tex_dst_rel; gltf_src_rel; gltf_dst_rel].

Lemma assets_done_reads : reads base assets_reads assets_done.
Proof.
  apply reads_and; [|apply reads_and].
  - eapply reads_incl; [|apply components_done_reads]. vm_compute; reflexivity.
  - eapply reads_incl; [|apply utils_done_reads]. vm_compute; reflexivity.
  - eapply reads_incl; [|apply media_done_reads]. vm_compute; reflexivity.
Qed.

Lemma move_assets_establishes : establishes assets_done (move_assets self).
Proof.
  rewrite move_assets_unfold. apply establishes_print.
  apply establishes_seq.
  - eapply writes_sound, copy_components_writes.
  - apply copy_components_establishes.
  - apply establishes_seq.
    + eapply writes_sound, copy_utils_writes.
    + apply copy_utils_establishes.
    + apply _move_media_files_establishes.
    + eapply keeps_reads;
        [apply utils_done_reads|apply _move_media_files_writes|].
      vm_compute; reflexivity.
  - eapply keeps_reads; [apply components_done_reads| |].
    + apply writes_bind; [|intros _].
      * eapply writes_incl; [|apply copy_utils_writes].
        instantiate (1 := [["utils"; "src"]; tex_dst_rel; gltf_dst_rel]).
        vm_compute; reflexivity.
      * eapply writes_incl; [|apply _move_media_files_writes].
        vm_compute; reflexivity.
    + vm_compute; reflexivity.
Qed.

Lemma move_assets_fixes : fixes assets_done (move_assets self).
Proof.
  rewrite move_assets_unfold. apply fixes_print.
  apply fixes_seq; [apply copy_components_fixes|].
  apply fixes_seq; [apply copy_utils_fixes|apply _move_media_files_fixes].
Qed.
(** *** [clean.py]: configuration, documentation, [run] *)

Definition clean_config_done (s : FS) : Prop :=
  file_at (base </> "package.json") (iterencode 2 0 Clean.package_json) s
  ∧ (file_at (base </> "vercel.json") (iterencode 2 0 Clean.vercel_config) s
     ∧ file_at (base </> ".gitignore") Clean.gitignore_content s).

Definition clean_doc_done (s : FS) : Prop :=
  file_at (base </> "README.md") Clean.readme_content s
  ∧ (dir_at (base </> "docs") s
     ∧ file_at (base </> "docs" </> "TECHNICAL.md") Clean.tech_doc s).

Definition config_rels : list path :=
  [["package.json"]; ["vercel.json"]; [".gitignore"]].

Definition doc_rels : list path :=
  [["README.md"]; ["docs"]; ["TECHNICAL.md"; "docs"]].

Lemma clean_create_config_files_writes :
  writes base config_rels (Clean.create_config_files self).
Proof.
  unfold Clean.create_config_files. cbn [base_path __init__].
  writes_tac base.
Qed.

Lemma clean_create_config_files_establishes :
  establishes clean_config_done (Clean.create_config_files self).
Proof.
  unfold Clean.create_config_files, clean_config_done, json_dump.
  cbn [base_path __init__].
  establishes_tac base; keeps_tac base.
Qed.

Lemma clean_create_config_files_fixes :
  fixes clean_config_done (Clean.create_config_files self).
Proof.
  unfold Clean.create_config_files, clean_config_done, json_dump.
  cbn [base_path __init__]. fixes_tac.
Qed.

Lemma clean_config_done_reads : reads base config_rels clean_config_done.
Proof.
  apply reads_and; [|apply reads_and].
  - eapply reads_incl; [|apply (file_at_reads base ["package.json"])].
    vm_compute; reflexivity.
  - eapply reads_incl; [|apply (file_at_reads base ["vercel.json"])].
    vm_compute; reflexivity.
  - eapply reads_incl; [|apply (file_at_reads base [".gitignore"])].
    vm_compute; reflexivity.
Qed.

Lemma clean_create_documentation_writes :
  writes base doc_rels (Clean.create_documentation self).
Proof.
  unfold Clean.create_documentation. cbn [base_path __init__].
  writes_tac base.
Qed.

Lemma clean_create_documentation_establishes :
  establishes clean_doc_done (Clean.create_documentation self).
Proof.
  unfold Clean.create_documentation, clean_doc_done.
  cbn [base_path __init__].
  establishes_tac base; keeps_tac base.
Qed.

Lemma clean_create_documentation_fixes :
  fixes clean_doc_done (Clean.create_documentation self).
Proof.
  unfold Clean.create_documentation, clean_doc_done.
  cbn [base_path __init__]. fixes_tac.
Qed.

Lemma clean_doc_done_reads : reads base doc_rels clean_doc_done.
Proof.
  apply reads_and; [|apply reads_and].
  - eapply reads_incl; [|apply (file_at_reads base ["README.md"])].
    vm_compute; reflexivity.
  - eapply reads_incl; [|apply (dir_at_reads base ["docs"])].
    vm_compute; reflexivity.
  - eapply reads_incl; [|apply (file_at_reads base ["TECHNICAL.md"; "docs"])].
    vm_compute; reflexivity.
Qed.

Lemma create_index_html_looks : looks (Clean.create_index_html self).
Proof. unfold Clean.create_index_html. looks_tac. Qed.

Lemma cleanup_old_files_looks : looks (Clean.cleanup_old_files self).
Proof. unfold Clean.cleanup_old_files, path_exists, is_dir. looks_tac. Qed.
Lemma plan_made_grows s s' : grows s s' → plan_made base s → plan_made base s'.
Proof. intros Hg H d Hd. eapply dir_at_grows; [done|]. by apply H. Qed.

Lemma keeps_plan_made {A : Type} (m : M A) : sound m → keeps (plan_made base) m.
Proof. intros H. apply keeps_grows; [done|]. apply plan_made_grows. Qed.

Definition clean_run_done (s : FS) : Prop :=
  plan_made base s
  ∧ (assets_done s
     ∧ (clean_config_done s ∧ (clean_doc_done s ∧ True))).

Definition all_rels : list path :=
  plan_rels ++ assets_rels ++ config_rels ++ doc_rels.

Ltac clean_parts :=
  first
    [ eapply writes_incl; [|apply create_directory_structure_writes];
      vm_compute; reflexivity
    | eapply writes_incl; [|apply move_assets_writes]; vm_compute; reflexivity
    | eapply writes_incl; [|apply clean_create_config_files_writes];
      vm_compute; reflexivity
    | eapply writes_incl; [|apply clean_create_documentation_writes];
      vm_compute; reflexivity
    | eapply writes_incl; [|apply looks_writes, create_index_html_looks];
      vm_compute; reflexivity
    | eapply writes_incl; [|apply looks_writes, cleanup_old_files_looks];
      vm_compute; reflexivity
    | apply writes_print
    | apply writes_bind; [|intros ?] ].

Lemma clean_run_writes : writes base all_rels (Clean.run self).
Proof. unfold Clean.run. repeat clean_parts. Qed.

Lemma clean_run_establishes : establishes clean_run_done (Clean.run self).
Proof.
  unfold Clean.run. apply establishes_print.
  apply establishes_seq.
  { eapply writes_sound, create_directory_structure_writes. }
  { apply create_directory_structure_establishes. }
  2:{ apply keeps_plan_made. eapply (writes_sound base all_rels).
      repeat clean_parts. }
  apply establishes_seq.
  { eapply writes_sound, move_assets_writes. }
  { apply move_assets_establishes. }
  2:{ eapply (keeps_reads base assets_reads (config_rels ++ doc_rels));
        [apply assets_done_reads|repeat clean_parts|vm_compute; reflexivity]. }
  apply establishes_seq.
  { eapply writes_sound, clean_create_config_files_writes. }
  { apply clean_create_config_files_establishes. }
  2:{ eapply (keeps_reads base config_rels doc_rels);
        [apply clean_config_done_reads|repeat clean_parts
        |vm_compute; reflexivity]. }
  apply establishes_seq.
  { eapply writes_sound, clean_create_documentation_writes. }
  { apply clean_create_documentation_establishes. }
  { apply establishes_True. }
  apply looks_keeps. apply looks_seq; [apply create_index_html_looks|].
  apply looks_seq; [apply cleanup_old_files_looks|]. looks_tac.
Qed.

Lemma clean_run_fixes : fixes clean_run_done (Clean.run self).
Proof.
  unfold Clean.run. apply fixes_print.
  apply fixes_seq; [apply create_directory_structure_fixes|].
  apply fixes_seq; [apply move_assets_fixes|].
  apply fixes_seq; [apply clean_create_config_files_fixes|].
  apply fixes_seq; [apply clean_create_documentation_fixes|].
  apply looks_fixes. apply looks_seq; [apply create_index_html_looks|].
  apply looks_seq; [apply cleanup_old_files_looks|]. looks_tac.
Qed.

(** *** [restructure_project.py]: configuration, documentation, [run] *)

Definition rp_config_done (s : FS) : Prop :=
  file_at (base </> "package.json")
    (iterencode 2 0 RestructureProject.package_json) s
  ∧ file_at (base </> "vercel.json")
      (iterencode 2 0 RestructureProject.vercel_config) s.

Definition rp_doc_done (s : FS) : Prop :=
  file_at (base </> "README.md") RestructureProject.readme_content s.

Definition rp_config_rels : list path := [["package.json"]; ["vercel.json"]].
Definition rp_doc_rels : list path := [["README.md"]].

Lemma rp_create_config_files_writes :
  writes base rp_config_rels (RestructureProject.create_config_files self).
Proof.
  unfold RestructureProject.create_config_files. cbn [base_path __init__].
  writes_tac base.
Qed.

Lemma rp_create_config_files_establishes :
  establishes rp_config_done (RestructureProject.create_config_files self).
Proof.
  unfold RestructureProject.create_config_files, rp_config_done, json_dump.
  cbn [base_path __init__].
  establishes_tac base; keeps_tac base.
Qed.

Lemma rp_create_config_files_fixes :
  fixes rp_config_done (RestructureProject.create_config_files self).
Proof.
  unfold RestructureProject.create_config_files, rp_config_done, json_dump.
  cbn [base_path __init__]. fixes_tac.
Qed.

Lemma rp_config_done_reads : reads base rp_config_rels rp_config_done.
Proof.
  apply reads_and.
  - eapply reads_incl; [|apply (file_at_reads base ["package.json"])].
    vm_compute; reflexivity.
  - eapply reads_incl; [|apply (file_at_reads base ["vercel.json"])].
    vm_compute; reflexivity.
Qed.

Lemma rp_create_documentation_writes :
  writes base rp_doc_rels (RestructureProject.create_documentation self).
Proof.
  unfold RestructureProject.create_documentation. cbn [base_path __init__].
  writes_tac base.
Qed.

Lemma rp_create_documentation_establishes :
  establishes rp_doc_done (RestructureProject.create_documentation self).
Proof.
  unfold RestructureProject.create_documentation, rp_doc_done.
  cbn [base_path __init__].
  establishes_tac base; keeps_tac base.
Qed.

Lemma rp_create_documentation_fixes :
  fixes rp_doc_done (RestructureProject.create_documentation self).
Proof.
  unfold RestructureProject.create_documentation, rp_doc_done.
  cbn [base_path __init__]. fixes_tac.
Qed.

Definition rp_run_done (s : FS) : Prop :=
  plan_made base s
  ∧ (assets_done s ∧ (rp_config_done s ∧ (rp_doc_done s ∧ True))).

Definition rp_all_rels : list path :=
  plan_rels ++ assets_rels ++ rp_config_rels ++ rp_doc_rels.

Ltac rp_parts :=
  first
    [ eapply writes_incl; [|apply create_directory_structure_writes];
      vm_compute; reflexivity
    | eapply writes_incl; [|apply move_assets_writes]; vm_compute; reflexivity
    | eapply writes_incl; [|apply rp_create_config_files_writes];
      vm_compute; reflexivity
    | eapply writes_incl; [|apply rp_create_documentation_writes];
      vm_compute; reflexivity
    | apply writes_print
    | apply writes_bind; [|intros ?] ].

Lemma rp_run_writes : writes base rp_all_rels (RestructureProject.run self).
Proof. unfold RestructureProject.run. repeat rp_parts. Qed.

Lemma rp_run_establishes :
  establishes rp_run_done (RestructureProject.run self).
Proof.
  unfold RestructureProject.run. apply establishes_print.
  apply establishes_seq.
  { eapply writes_sound, create_directory_structure_writes. }
  { apply create_directory_structure_establishes. }
  2:{ apply keeps_plan_made. eapply (writes_sound base rp_all_rels).
      repeat rp_parts. }
  apply establishes_seq.
  { eapply writes_sound, move_assets_writes. }
  { apply move_assets_establishes. }
  2:{ eapply (keeps_reads base assets_reads (rp_config_rels ++ rp_doc_rels));
        [apply assets_done_reads|repeat rp_parts|vm_compute; reflexivity]. }
  apply establishes_seq.
  { eapply writes_sound, rp_create_config_files_writes. }
  { apply rp_create_config_files_establishes. }
  2:{ eapply (keeps_reads base rp_config_rels rp_doc_rels);
        [apply rp_config_done_reads|repeat rp_parts
        |vm_compute; reflexivity]. }
  apply establishes_seq.
  { eapply writes_sound, rp_create_documentation_writes. }
  { apply rp_create_documentation_establishes. }
  { apply establishes_True. }
  apply looks_keeps. looks_tac.
Qed.

Lemma rp_run_fixes : fixes rp_run_done (RestructureProject.run self).
Proof.
  unfold RestructureProject.run. apply fixes_print.
  apply fixes_seq; [apply create_directory_structure_fixes|].
  apply fixes_seq; [apply move_assets_fixes|].
  apply fixes_seq; [apply rp_create_config_files_fixes|].
  apply fixes_seq; [apply rp_create_documentation_fixes|].
  apply looks_fixes. looks_tac.
Qed.

(** *** Runs that raise, and runs started again *)

Lemma _move_media_files_refails : refails (_move_media_files self).
Proof.
  rewrite _move_media_files_unfold.
  apply (refails_seq (tree_done (tex_src_rel ++ base) (tex_dst_rel ++ base))).
  - eapply writes_sound, copy_tree_writes.
  - eapply (writes_sound base [gltf_dst_rel]).
    apply writes_bind; [apply copy_tree_writes|intros _; apply writes_ret].
  - apply copy_tree_establishes, tex_apart.
  - apply copy_tree_fixes.
  - eapply keeps_reads; [apply tree_done_reads| |].
    + apply writes_bind; [apply copy_tree_writes|intros _; apply writes_ret].
    + vm_compute; reflexivity.
  - apply copy_tree_refails, tex_apart.
  - apply (refails_seq (tree_done (gltf_src_rel ++ base) (gltf_dst_rel ++ base))).
    + eapply writes_sound, copy_tree_writes.
    + apply steps_ret. apply _.
    + apply copy_tree_establishes, gltf_apart.
    + apply copy_tree_fixes.
    + by apply keeps_pure.
    + apply copy_tree_refails, gltf_apart.
    + apply refails_ret.
Qed.

Lemma move_assets_refails : refails (move_assets self).
Proof.
  rewrite move_assets_unfold. apply refails_print.
  apply (refails_seq (components_done base)).
  - eapply writes_sound, copy_components_writes.
  - eapply (writes_sound base [["utils"; "src"]; tex_dst_rel; gltf_dst_rel]).
    apply writes_bind; [|intros _].
    + eapply writes_incl; [|apply copy_utils_writes]. vm_compute; reflexivity.
    + eapply writes_incl; [|apply _move_media_files_writes].
      vm_compute; reflexivity.
  - apply copy_components_establishes.
  - apply copy_components_fixes.
  - eapply keeps_reads; [apply components_done_reads| |].
    + apply writes_bind; [|intros _].
      * eapply writes_incl; [|apply copy_utils_writes].
        instantiate (1 := [["utils"; "src"]; tex_dst_rel; gltf_dst_rel]).
        vm_compute; reflexivity.
      * eapply writes_incl; [|apply _move_media_files_writes].
        vm_compute; reflexivity.
    + vm_compute; reflexivity.
  - apply copy_components_refails.
  - apply (refails_seq (utils_done base)).
    + eapply writes_sound, copy_utils_writes.
    + eapply writes_sound, _move_media_files_writes.
    + apply copy_utils_establishes.
    + apply copy_utils_fixes.
    + eapply keeps_reads;
        [apply utils_done_reads|apply _move_media_files_writes|].
      vm_compute; reflexivity.
    + apply copy_utils_refails.
    + apply _move_media_files_refails.
Qed.

Lemma clean_create_config_files_refails :
  refails (Clean.create_config_files self).
Proof.
  unfold Clean.create_config_files, json_dump. cbn [base_path __init__].
  refails_tac base.
Qed.

Lemma clean_create_documentation_refails :
  refails (Clean.create_documentation self).
Proof.
  unfold Clean.create_documentation. cbn [base_path __init__].
  refails_tac base.
Qed.

Lemma rp_create_config_files_refails :
  refails (RestructureProject.create_config_files self).
Proof.
  unfold RestructureProject.create_config_files, json_dump.
  cbn [base_path __init__]. refails_tac base.
Qed.

Lemma rp_create_documentation_refails :
  refails (RestructureProject.create_documentation self).
Proof.
  unfold RestructureProject.create_documentation. cbn [base_path __init__].
  refails_tac base.
Qed.

Lemma clean_rest_looks :
  looks (Clean.create_index_html self ;;
         Clean.cleanup_old_files self ;;
         print (nl ++ "✨ Project restructuring complete!")%string ;;
         print (nl ++ "📋 Next steps:")%string ;;
         print "   1. Copy the provided index.html to your project root" ;;
         print "   2. Review and update configuration files" ;;
         print "   3. Test locally with: npm run dev" ;;
         print "   4. Deploy to Vercel with: vercel").
Proof.
  apply looks_seq; [apply create_index_html_looks|].
  apply looks_seq; [apply cleanup_old_files_looks|]. looks_tac.
Qed.

Lemma clean_run_refails : refails (Clean.run self).
Proof.
  unfold Clean.run. apply refails_print.
  apply (refails_seq (plan_made base)).
  { eapply writes_sound, create_directory_structure_writes. }
  { eapply (writes_sound base all_rels). repeat clean_parts. }
  { apply create_directory_structure_establishes. }
  { apply create_directory_structure_fixes. }
  { apply keeps_plan_made. eapply (writes_sound base all_rels).
    repeat clean_parts. }
  { apply create_directory_structure_refails. }
  apply (refails_seq assets_done).
  { eapply writes_sound, move_assets_writes. }
  { eapply (writes_sound base all_rels). repeat clean_parts. }
  { apply move_assets_establishes. }
  { apply move_assets_fixes. }
  { eapply (keeps_reads base assets_reads (config_rels ++ doc_rels));
      [apply assets_done_reads|repeat clean_parts|vm_compute; reflexivity]. }
  { apply move_assets_refails. }
  apply (refails_seq clean_config_done).
  { eapply writes_sound, clean_create_config_files_writes. }
  { eapply (writes_sound base all_rels). repeat clean_parts. }
  { apply clean_create_config_files_establishes. }
  { apply clean_create_config_files_fixes. }
  { eapply (keeps_reads base config_rels doc_rels);
      [apply clean_config_done_reads|repeat clean_parts
      |vm_compute; reflexivity]. }
  { apply clean_create_config_files_refails. }
  apply (refails_seq clean_doc_done).
  { eapply writes_sound, clean_create_documentation_writes. }
  { apply looks_sound, clean_rest_looks. }
  { apply clean_create_documentation_establishes. }
  { apply clean_create_documentation_fixes. }
  { apply looks_keeps, clean_rest_looks. }
  { apply clean_create_documentation_refails. }
  apply looks_refails, clean_rest_looks.
Qed.

Lemma rp_run_refails : refails (RestructureProject.run self).
Proof.
  unfold RestructureProject.run. apply refails_print.
  apply (refails_seq (plan_made base)).
  { eapply writes_sound, create_directory_structure_writes. }
  { eapply (writes_sound base rp_all_rels). repeat rp_parts. }
  { apply create_directory_structure_establishes. }
  { apply create_directory_structure_fixes. }
  { apply keeps_plan_made. eapply (writes_sound base rp_all_rels).
    repeat rp_parts. }
  { apply create_directory_structure_refails. }
  apply (refails_seq assets_done).
  { eapply writes_sound, move_assets_writes. }
  { eapply (writes_sound base rp_all_rels). repeat rp_parts. }
  { apply move_assets_establishes. }
  { apply move_assets_fixes. }
  { eapply (keeps_reads base assets_reads (rp_config_rels ++ rp_doc_rels));
      [apply assets_done_reads|repeat rp_parts|vm_compute; reflexivity]. }
  { apply move_assets_refails. }
  apply (refails_seq rp_config_done).
  { eapply writes_sound, rp_create_config_files_writes. }
  { eapply (writes_sound base rp_all_rels). repeat rp_parts. }
  { apply rp_create_config_files_establishes. }
  { apply rp_create_config_files_fixes. }
  { eapply (keeps_reads base rp_config_rels rp_doc_rels);
      [apply rp_config_done_reads|repeat rp_parts
      |vm_compute; reflexivity]. }
  { apply rp_create_config_files_refails. }
  apply (refails_seq rp_doc_done).
  { eapply writes_sound, rp_create_documentation_writes. }
  { apply looks_sound. looks_tac. }
  { apply rp_create_documentation_establishes. }
  { apply rp_create_documentation_fixes. }
  { apply looks_keeps. looks_tac. }
  { apply rp_create_documentation_refails. }
  apply looks_refails. looks_tac.
Qed.

Lemma clean_run_settled : settled (Clean.run self).
Proof.
  apply (settled_intro clean_run_done).
  - eapply writes_sound, clean_run_writes.
  - apply clean_run_establishes.
  - apply clean_run_fixes.
  - apply clean_run_refails.
Qed.

Lemma rp_run_settled : settled (RestructureProject.run self).
Proof.
  apply (settled_intro rp_run_done).
  - eapply writes_sound, rp_run_writes.
  - apply rp_run_establishes.
  - apply rp_run_fixes.
  - apply rp_run_refails.
Qed.
End runs.

(** ** One iteration among many *)

(** In a loop over distinct items, what one iteration achieves from [Pre] is
    still there at the end, provided the other iterations keep [Pre] before
    it and [Post] after it. *)
Lemma for_each_one {A : Type} `{!EqDecision A} (Pre Post : FS → Prop)
    (xs : list A) (body : A → M unit) (x : A) :
  NoDup xs → x ∈ xs →
  (∀ y, y ∈ xs → sound (body y)) →
  (∀ y, y ∈ xs → y ≠ x → keeps Pre (body y)) →
  (∀ y, y ∈ xs → y ≠ x → keeps Post (body y)) →
  (∀ s, wf s → Pre s → res (body x s) = Ok tt → Post (fs_of (body x s))) →
  ∀ s, wf s → Pre s → res (for_each xs body s) = Ok tt →
       Post (fs_of (for_each xs body s)).
Proof.
  induction xs as [|y xs IH]; intros Hnd Hx Hs Hpre Hpost Hbody s Hwf HP Hr.
  { by apply elem_of_nil in Hx. }
  apply NoDup_cons in Hnd as [Hy Hnd]. cbn [for_each] in *.
  apply bind_res_ok in Hr as ([] & Hr1 & Hr2 & ->).
  assert (wf (fs_of (body y s))) as Hwf1 by (apply sound_wf; [apply Hs; left|done]).
  destruct (decide (y = x)) as [->|Hne].
  - apply (keeps_for_each Post xs body); [| |done|by apply Hbody].
    + intros z Hz. apply Hs. by right.
    + intros z Hz. apply Hpost; [by right|]. by intros ->.
  - apply elem_of_cons in Hx as [->|Hx]; [done|].
    apply IH; try done.
    + intros z Hz. apply Hs. by right.
    + intros z Hz. apply Hpre. by right.
    + intros z Hz. apply Hpost. by right.
    + apply Hpre; [left|done..].
Qed.

(** A change can be traced to a permitted write. *)
Lemma evolves_changed W s s' p : evolves W s s' → s' !! p ≠ s !! p → W p.
Proof.
  induction 1 as [|s1 s2 s3 H1 _ IH]; [done|]. intros Hne.
  assert (∀ q, s2 !! q ≠ s1 !! q → W q) as Hstep.
  { intros q Hq. destruct H1 as [p0 n ? ? ?|p0 d d' ? ?];
      (destruct (decide (p0 = q)) as [<-|]; [done|]);
      by rewrite lookup_insert_ne in Hq. }
  destruct (decide (s2 !! p = s1 !! p)) as [E|E].
  - apply IH. by rewrite E.
  - by apply Hstep.
Qed.



(** ** What a run does to one path *)

Lemma lookup_reads (base r p : path) (v : option node) :
  (r ++ base) `suffix_of` p → reads base [r] (λ s, s !! p = v).
Proof.
  intros Hp s s' Ha H. rewrite Ha; [done|]. eapply below_any_here; [left|done].
Qed.

(** A method that writes away from the root above [p] keeps what is at
    [p]. *)
Lemma keeps_lookup {A : Type} (base r p : path) ds (v : option node) (m : M A) :
  (r ++ base) `suffix_of` p → writes base ds m → apart_rels [r] ds = true →
  keeps (λ s, s !! p = v) m.
Proof. intros Hp Hm Ha. eapply keeps_reads; [by apply lookup_reads|done..]. Qed.

Lemma writes_lookup {A : Type} (base r p : path) ds (m : M A) s :
  (r ++ base) `suffix_of` p → writes base ds m → apart_rels [r] ds = true →
  fs_of (m s) !! p = s !! p.
Proof.
  intros Hp Hm Ha. eapply evolves_only_in; [apply Hm|].
  intros Hn. eapply apart_rels_sound; [exact Ha|exact Hn|].
  eapply below_any_here; [left|done].
Qed.

Lemma NoDup_aframe_components : NoDup aframe_components.
Proof. apply (bool_decide_unpack _). by vm_compute. Qed.

Lemma NoDup_util_files : NoDup util_files.
Proof. apply (bool_decide_unpack _). by vm_compute. Qed.

Section effects.
Variable base : path.

Local Abbreviation self := (__init__ base).

(** *** One copied file in a loop of [copy_if_exists] *)

Lemma copy_if_exists_copies src dst msg data s :
  s !! src = Some (File data) → s !! dst ≠ Some Dir →
  res (copy_if_exists src dst msg s) = Ok tt →
  fs_of (copy_if_exists src dst msg s) !! dst = Some (File data).
Proof.
  intros Hs Hd Hr. apply copy_if_exists_ok in Hr as [[? _]|Hr]; [congruence|].
  destruct Hr as (data' & Hs' & _ & _ & ->).
  assert (copy_target s src dst = dst) as ->.
  { unfold copy_target, is_dir_at. by destruct (s !! dst) as [[|]|]. }
  rewrite lookup_insert_eq. congruence.
Qed.

Lemma loop_copies (names : list string) (src_of dst_of : string → path)
    (msg_of : string → string) (c : string) data :
  NoDup names → c ∈ names →
  (∀ x y, x ≠ y → src_of x ≠ dst_of y ∧ src_of x ≠ dst_of y </> name_of (src_of y)
                  ∧ dst_of x ≠ dst_of y ∧ dst_of x ≠ dst_of y </> name_of (src_of y)) →
  ∀ s, wf s →
    s !! src_of c = Some (File data) → s !! dst_of c ≠ Some Dir →
    res (for_each names (λ n, copy_if_exists (src_of n) (dst_of n) (msg_of n)) s)
    = Ok tt →
    fs_of (for_each names (λ n, copy_if_exists (src_of n) (dst_of n) (msg_of n)) s)
      !! dst_of c = Some (File data).
Proof.
  intros Hnd Hc Hne s Hwf Hs Hd Hr.
  apply (for_each_one
           (λ s, s !! src_of c = Some (File data) ∧ s !! dst_of c ≠ Some Dir)
           (λ s, s !! dst_of c = Some (File data))
           names _ c); try done.
  - intros y _. eapply evolves_sound, copy_if_exists_evolves.
  - intros y _ Hy. eapply keeps_only_in; [apply copy_if_exists_evolves|].
    intros s1 s2 Ho [H1 H2]. destruct (Hne c y) as (? & ? & ? & ?); [done|].
    rewrite !Ho; [done|..]; intros [?|?]; done.
  - intros y _ Hy. eapply keeps_only_in; [apply copy_if_exists_evolves|].
    intros s1 s2 Ho H1. destruct (Hne c y) as (? & ? & ? & ?); [done|].
    rewrite !Ho; [done|..]; intros [?|?]; done.
  - intros s1 _ [H1 H2]. by apply copy_if_exists_copies.
Qed.

Lemma loop_skips (names : list string) (src_of dst_of : string → path)
    (msg_of : string → string) (c : string) :
  (∀ x y, x ≠ y → src_of x ≠ dst_of y ∧ src_of x ≠ dst_of y </> name_of (src_of y)
                  ∧ dst_of x ≠ dst_of y ∧ dst_of x ≠ dst_of y </> name_of (src_of y)) →
  ∀ s, wf s → s !! src_of c = None →
    fs_of (for_each names (λ n, copy_if_exists (src_of n) (dst_of n) (msg_of n)) s)
      !! dst_of c = s !! dst_of c.
Proof.
  intros Hne s Hwf Hs.
  apply (keeps_for_each
           (λ s', s' !! src_of c = None ∧ s' !! dst_of c = s !! dst_of c)
           names (λ n, copy_if_exists (src_of n) (dst_of n) (msg_of n)));
    try done.
  - intros y _. eapply evolves_sound, copy_if_exists_evolves.
  - intros y _. destruct (decide (y = c)) as [->|Hy].
    + intros s1 _ [H1 H2]. by rewrite copy_if_exists_absent.
    + eapply keeps_only_in; [apply copy_if_exists_evolves|].
      intros s1 s2 Ho [H1 H2]. destruct (Hne c y) as (? & ? & ? & ?); [done|].
      rewrite !Ho; [done|..]; intros [?|?]; done.
Qed.

Lemma comp_paths_differ x y :
  x ≠ y →
  comp_src base x ≠ comp_dst base y
  ∧ comp_src base x ≠ comp_dst base y </> name_of (comp_src base y)
  ∧ comp_dst base x ≠ comp_dst base y
  ∧ comp_dst base x ≠ comp_dst base y </> name_of (comp_src base y).
Proof.
  intros Hne. unfold comp_src, comp_dst, joinname, name_of. cbn [head default].
  repeat split; path_neq.
Qed.

Lemma util_paths_differ x y :
  x ≠ y →
  util_src base x ≠ util_dst base y
  ∧ util_src base x ≠ util_dst base y </> name_of (util_src base y)
  ∧ util_dst base x ≠ util_dst base y
  ∧ util_dst base x ≠ util_dst base y </> name_of (util_src base y).
Proof.
  intros Hne. unfold util_src, util_dst, utils_dir, joinname, name_of.
  cbn [head default]. repeat split; path_neq.
Qed.

Lemma copy_components_copies c data s :
  wf s → c ∈ aframe_components →
  s !! comp_src base c = Some (File data) → s !! comp_dst base c ≠ Some Dir →
  res (copy_components base s) = Ok tt →
  fs_of (copy_components base s) !! comp_dst base c = Some (File data).
Proof.
  intros Hwf Hc. apply (loop_copies aframe_components (comp_src base)
                          (comp_dst base)); try done.
  - apply NoDup_aframe_components.
  - apply comp_paths_differ.
Qed.

Lemma copy_components_skips c s :
  wf s → s !! comp_src base c = None →
  fs_of (copy_components base s) !! comp_dst base c = s !! comp_dst base c.
Proof.
  intros Hwf. apply (loop_skips aframe_components (comp_src base)
                       (comp_dst base)); try done.
  apply comp_paths_differ.
Qed.

Lemma copy_utils_copies u data s :
  wf s → u ∈ util_files →
  s !! util_src base u = Some (File data) → s !! util_dst base u ≠ Some Dir →
  res (copy_utils base s) = Ok tt →
  fs_of (copy_utils base s) !! util_dst base u = Some (File data).
Proof.
  intros Hwf Hu Hs Hd. unfold copy_utils, path_exists. rewrite bind_gets.
  assert (exists_at s (utils_dir base) = true) as ->.
  { apply exists_at_true. apply wf_lookup in Hs; [|done]. by rewrite Hs. }
  cbn [when]. apply (loop_copies util_files (util_src base) (util_dst base));
    try done.
  - apply NoDup_util_files.
  - apply util_paths_differ.
Qed.

Lemma copy_utils_skips u s :
  wf s → s !! util_src base u = None →
  fs_of (copy_utils base s) !! util_dst base u = s !! util_dst base u.
Proof.
  intros Hwf Hs. unfold copy_utils, path_exists. rewrite bind_gets.
  destruct (exists_at s (utils_dir base)); cbn [when]; [|done].
  apply (loop_skips util_files (util_src base) (util_dst base)); try done.
  apply util_paths_differ.
Qed.
End effects.

(** ** What copying a tree does to one path *)

Lemma suffix_tail (q p : path) : q `suffix_of` tail p → q `suffix_of` p.
Proof. destruct p as [|x p]; [done|]. simpl. apply suffix_cons_r. Qed.

Lemma suffix_cons_cases (l l2 : path) (y : string) :
  l `suffix_of` y :: l2 → l = y :: l2 ∨ l `suffix_of` l2.
Proof.
  intros [k E]. destruct k as [|z k]; simpl in E.
  - left. done.
  - right. injection E as _ ->. by apply suffix_app_r.
Qed.

Section tree_effects.
Variables src dest : path.
Hypothesis src_dest_apart : apart src dest.

(** Copying the entry [rel ++ src] changes nothing unless it is a regular
    file, and then only on the way from the root to its copy. *)
Definition reach (rel : path) (q : path) : Prop :=
  q `suffix_of` (name_of (rel ++ src) :: rel ++ dest).

Lemma copy_item_changes rel s :
  evolves (λ q, is_file_at s (rel ++ src) = true ∧ reach rel q)
    s (fs_of (copy_item src dest (rel ++ src) s)).
Proof.
  rewrite copy_item_unfold. unfold is_file. rewrite bind_gets.
  destruct (is_file_at s (rel ++ src)) eqn:E; cbn [when]; [|reflexivity].
  eapply evolves_mono with (W := reach rel); [by intros|].
  revert s E. 
  assert (steps (evolves (reach rel))
            (mkdir true true (parent (rel ++ dest)) ;;
             copy2 (rel ++ src) (rel ++ dest))) as H; [|by intros; apply H].
  apply steps_bind; [apply _| |intros _].
  - eapply steps_evolves_mono; [|apply mkdir_evolves].
    intros q Hq. by apply suffix_cons_r, suffix_tail.
  - eapply steps_evolves_mono; [|apply copy2_evolves].
    intros q [->| ->]; unfold reach, joinname; [by apply suffix_cons_r|done].
Qed.


Lemma reach_near_dest rel q : reach rel q → near_dest dest q.
Proof.
  intros H. unfold reach in H.
  destruct (suffix_weak_total dest q (name_of (rel ++ src) :: rel ++ dest));
    [by apply suffix_cons_r, suffix_app_r|done|by left|by right].
Qed.



(** A path below [dest] changes only if it is on the way to the copy of a
    regular file of the tree. *)
Lemma copy_tree_changes s q :
  wf s →
  fs_of (copy_tree src dest s) !! q ≠ s !! q →
  ∃ rel data, s !! (rel ++ src) = Some (File data) ∧ rel ≠ [] ∧ reach rel q.
Proof.
  intros Hwf Hq.
  destruct (exists_at s src) eqn:He;
    [|by rewrite (copy_tree_absent src dest s He) in Hq].
  destruct (copy_tree_unfold src dest s He) as [_ E]. rewrite E in Hq. clear E.
  set (W := λ q, ∃ rel data,
              s !! (rel ++ src) = Some (File data) ∧ rel ≠ [] ∧ reach rel q).
  assert (evolves W s (fs_of (for_each (rglob_list src s) (copy_item src dest) s)))
    as Hev; [|exact (evolves_changed W _ _ q Hev Hq)].
  apply (keeps_for_each (λ s', evolves W s s') (rglob_list src s)
           (copy_item src dest)); [| |done|reflexivity].
  - intros y _. eapply evolves_sound, copy_item_evolves.
  - intros y Hy s1 Hwf1 H1.
    apply elem_of_rglob_list in Hy as (_ & _ & Hb & Hne).
    destruct (below_src src y Hb Hne) as (ry & -> & Hry).
    etrans; [exact H1|]. eapply evolves_mono; [|apply copy_item_changes].
    intros p [[dy Hf]%is_file_at_true Hp]. exists ry, dy.
    split; [|done]. rewrite <- Hf. symmetry.
    eapply evolves_only_in; [exact H1|].
    intros (r & d & _ & _ & Hn%reach_near_dest).
    eapply (src_not_near_dest src dest src_dest_apart); [|exact Hn].
    by apply suffix_app_r.
Qed.
End tree_effects.

(** ** The shape both [run] methods share *)

Section shape.
Variable base : path.

Local Abbreviation self := (__init__ base).

(** What follows [move_assets] in each script. *)
Definition clean_rest : M unit :=
  Clean.create_config_files self ;;
  Clean.create_documentation self ;;
  Clean.create_index_html self ;;
  Clean.cleanup_old_files self ;;
  print (nl ++ "✨ Project restructuring complete!")%string ;;
  print (nl ++ "📋 Next steps:")%string ;;
  print "   1. Copy the provided index.html to your project root" ;;
  print "   2. Review and update configuration files" ;;
  print "   3. Test locally with: npm run dev" ;;
  print "   4. Deploy to Vercel with: vercel".

Definition rp_rest : M unit :=
  RestructureProject.create_config_files self ;;
  RestructureProject.create_documentation self ;;
  print (nl ++ "✨ Project restructuring complete!")%string ;;
  print (nl ++ "📋 Next steps:")%string ;;
  print "   1. Test locally with: npm run dev" ;;
  print "   2. Deploy to Vercel with: vercel".

Definition run_with (rest : M unit) : M unit :=
  print ("🚀 Starting AIMLAB XR Wireless project restructuring..." ++ nl)%string ;;
  create_directory_structure self ;;
  move_assets self ;;
  rest.

Lemma clean_run_shape : Clean.run self = run_with clean_rest.
Proof. reflexivity. Qed.

Lemma rp_run_shape : RestructureProject.run self = run_with rp_rest.
Proof. reflexivity. Qed.

Definition rest_rels : list path := config_rels ++ doc_rels.

Lemma clean_rest_writes : writes base rest_rels clean_rest.
Proof.
  unfold clean_rest.
  apply writes_bind; [|intros _; apply writes_bind; [|intros _]].
  - eapply writes_incl; [|apply clean_create_config_files_writes].
    vm_compute; reflexivity.
  - eapply writes_incl; [|apply clean_create_documentation_writes].
    vm_compute; reflexivity.
  - eapply writes_incl; [|apply looks_writes]; [vm_compute; reflexivity|].
    apply looks_seq; [apply create_index_html_looks|].
    apply looks_seq; [apply cleanup_old_files_looks|]. looks_tac.
Qed.

Lemma rp_rest_writes : writes base rest_rels rp_rest.
Proof.
  unfold rp_rest.
  apply writes_bind; [|intros _; apply writes_bind; [|intros _]].
  - eapply writes_incl; [|apply rp_create_config_files_writes].
    vm_compute; reflexivity.
  - eapply writes_incl; [|apply rp_create_documentation_writes].
    vm_compute; reflexivity.
  - eapply writes_incl; [|apply looks_writes]; [vm_compute; reflexivity|].
    looks_tac.
Qed.

(** The states a run passes through. *)
Definition after_dirs (s : FS) : FS := fs_of (create_directory_structure self s).
Definition after_components (s : FS) : FS :=
  fs_of (copy_components base (after_dirs s)).
Definition after_utils (s : FS) : FS :=
  fs_of (copy_utils base (after_components s)).
Definition after_textures (s : FS) : FS :=
  fs_of (copy_tree (tex_src_rel ++ base) (tex_dst_rel ++ base) (after_utils s)).
Definition after_models (s : FS) : FS :=
  fs_of (copy_tree (gltf_src_rel ++ base) (gltf_dst_rel ++ base)
           (after_textures s)).

Lemma move_assets_ok s :
  res (move_assets self s) = Ok tt →
  res (copy_components base s) = Ok tt
  ∧ res (copy_utils base (fs_of (copy_components base s))) = Ok tt
  ∧ res (copy_tree (tex_src_rel ++ base) (tex_dst_rel ++ base)
           (fs_of (copy_utils base (fs_of (copy_components base s))))) = Ok tt
  ∧ res (copy_tree (gltf_src_rel ++ base) (gltf_dst_rel ++ base)
           (fs_of (copy_tree (tex_src_rel ++ base) (tex_dst_rel ++ base)
              (fs_of (copy_utils base (fs_of (copy_components base s)))))))
    = Ok tt
  ∧ fs_of (move_assets self s)
    = fs_of (copy_tree (gltf_src_rel ++ base) (gltf_dst_rel ++ base)
           (fs_of (copy_tree (tex_src_rel ++ base) (tex_dst_rel ++ base)
              (fs_of (copy_utils base (fs_of (copy_components base s))))))).
Proof.
  rewrite move_assets_unfold, _move_media_files_unfold. intros H.
  apply bind_res_ok in H as ([] & _ & H & ->). cbn [print fs_of] in H |- *.
  apply bind_res_ok in H as ([] & HB & H & ->).
  apply bind_res_ok in H as ([] & HC & H & ->).
  apply bind_res_ok in H as ([] & HT & H & ->).
  apply bind_res_ok in H as ([] & HG & _ & ->).
  done.
Qed.

Lemma run_with_ok rest s :
  res (run_with rest s) = Ok tt →
  res (create_directory_structure self s) = Ok tt
  ∧ res (copy_components base (after_dirs s)) = Ok tt
  ∧ res (copy_utils base (after_components s)) = Ok tt
  ∧ res (copy_tree (tex_src_rel ++ base) (tex_dst_rel ++ base) (after_utils s))
    = Ok tt
  ∧ res (copy_tree (gltf_src_rel ++ base) (gltf_dst_rel ++ base)
           (after_textures s)) = Ok tt
  ∧ res (rest (after_models s)) = Ok tt
  ∧ fs_of (run_with rest s) = fs_of (rest (after_models s)).
Proof.
  unfold after_models, after_textures, after_utils, after_components, after_dirs.
  unfold run_with. intros H.
  apply bind_res_ok in H as ([] & _ & H & ->). cbn [print fs_of] in H |- *.
  apply bind_res_ok in H as ([] & HA & H & ->).
  apply bind_res_ok in H as ([] & HM & H & ->).
  destruct (move_assets_ok _ HM) as (HB & HC & HT & HG & E).
  rewrite E in H |- *. done.
Qed.

Lemma after_dirs_wf s : wf s → wf (after_dirs s).
Proof.
  apply sound_wf. eapply writes_sound, create_directory_structure_writes.
Qed.

Lemma after_components_wf s : wf s → wf (after_components s).
Proof.
  intros H. apply sound_wf; [|by apply after_dirs_wf].
  eapply writes_sound, copy_components_writes.
Qed.

Lemma after_utils_wf s : wf s → wf (after_utils s).
Proof.
  intros H. apply sound_wf; [|by apply after_components_wf].
  eapply writes_sound, copy_utils_writes.
Qed.

Lemma after_textures_wf s : wf s → wf (after_textures s).
Proof.
  intros H. apply sound_wf; [|by apply after_utils_wf].
  eapply writes_sound, copy_tree_writes.
Qed.

Lemma after_models_wf s : wf s → wf (after_models s).
Proof.
  intros H. apply sound_wf; [|by apply after_textures_wf].
  eapply writes_sound, copy_tree_writes.
Qed.

(** [create_directory_structure] touches the ten directories of the plan
    and nothing else. *)
Lemma after_dirs_lookup s p : p ∉ plan_dirs base → after_dirs s !! p = s !! p.
Proof.
  intros Hp. eapply evolves_only_in; [apply create_directory_structure_evolves|].
  done.
Qed.

Lemma deep_not_plan (rel : path) (a b c : string) :
  rel ++ a :: b :: c :: base ∉ plan_dirs base.
Proof.
  unfold plan_dirs, joinname. intros H.
  repeat (apply elem_of_cons in H as [H|H]); try (by apply elem_of_nil in H);
    apply (f_equal length) in H; rewrite length_app in H; cbn in H; lia.
Qed.
End shape.

(** ** What a whole run does to one asset *)

Section run_effects.
Variable base : path.
Variable rest : M unit.
Hypothesis rest_writes : writes base rest_rels rest.

Local Abbreviation self := (__init__ base).

Lemma long_not_plan (p : path) : length base + 2 < length p → p ∉ plan_dirs base.
Proof.
  unfold plan_dirs, joinname. intros Hl H.
  repeat (apply elem_of_cons in H as [H|H]); try (by apply elem_of_nil in H);
    apply (f_equal length) in H; cbn in H; lia.
Qed.

Lemma legacy_not_plan (a b : string) :
  a ≠ "public" → a ≠ "src" → b :: a :: base ∉ plan_dirs base.
Proof.
  unfold plan_dirs, joinname. intros H1 H2 H.
  repeat (apply elem_of_cons in H as [H|H]); try (by apply elem_of_nil in H);
    revert H; path_neq.
Qed.

Lemma run_component_copied s c data :
  wf s → res (run_with base rest s) = Ok tt →
  c ∈ aframe_components →
  s !! comp_src base c = Some (File data) → s !! comp_dst base c ≠ Some Dir →
  fs_of (run_with base rest s) !! comp_dst base c = Some (File data).
Proof.
  intros Hwf Hr Hc Hs Hd.
  destruct (run_with_ok base rest s Hr) as (_ & HB & _ & _ & _ & _ & ->).
  assert ((["components"; "src"] ++ base) `suffix_of` comp_dst base c) as Hb.
  { unfold comp_dst, joinname. by apply suffix_cons_r. }
  rewrite (writes_lookup base ["components"; "src"] _ rest_rels rest);
    [|done|done|by vm_compute].
  unfold after_models.
  rewrite (writes_lookup base ["components"; "src"] _ [gltf_dst_rel]);
    [|done|apply copy_tree_writes|by vm_compute].
  unfold after_textures.
  rewrite (writes_lookup base ["components"; "src"] _ [tex_dst_rel]);
    [|done|apply copy_tree_writes|by vm_compute].
  unfold after_utils.
  rewrite (writes_lookup base ["components"; "src"] _ [["utils"; "src"]]);
    [|done|apply copy_utils_writes|by vm_compute].
  unfold after_components.
  apply copy_components_copies; try done.
  - by apply after_dirs_wf.
  - rewrite after_dirs_lookup; [done|]. by apply legacy_not_plan.
  - rewrite after_dirs_lookup; [done|]. apply long_not_plan.
    unfold comp_dst, joinname. cbn. lia.
Qed.

Lemma run_component_skipped s c :
  wf s → res (run_with base rest s) = Ok tt →
  s !! comp_src base c = None →
  fs_of (run_with base rest s) !! comp_dst base c = s !! comp_dst base c.
Proof.
  intros Hwf Hr Hs.
  destruct (run_with_ok base rest s Hr) as (_ & HB & _ & _ & _ & _ & ->).
  assert ((["components"; "src"] ++ base) `suffix_of` comp_dst base c) as Hb.
  { unfold comp_dst, joinname. by apply suffix_cons_r. }
  rewrite (writes_lookup base ["components"; "src"] _ rest_rels rest);
    [|done|done|by vm_compute].
  unfold after_models.
  rewrite (writes_lookup base ["components"; "src"] _ [gltf_dst_rel]);
    [|done|apply copy_tree_writes|by vm_compute].
  unfold after_textures.
  rewrite (writes_lookup base ["components"; "src"] _ [tex_dst_rel]);
    [|done|apply copy_tree_writes|by vm_compute].
  unfold after_utils.
  rewrite (writes_lookup base ["components"; "src"] _ [["utils"; "src"]]);
    [|done|apply copy_utils_writes|by vm_compute].
  unfold after_components.
  rewrite copy_components_skips.
  - apply after_dirs_lookup, long_not_plan. unfold comp_dst, joinname. cbn. lia.
  - by apply after_dirs_wf.
  - rewrite after_dirs_lookup; [done|]. by apply legacy_not_plan.
Qed.

Lemma util_src_not_plan u : util_src base u ∉ plan_dirs base.
Proof. apply long_not_plan. unfold util_src, utils_dir, joinname. cbn. lia. Qed.

Lemma util_dst_not_plan u : util_dst base u ∉ plan_dirs base.
Proof. apply long_not_plan. unfold util_dst, joinname. cbn. lia. Qed.

Lemma run_util_copied s u data :
  wf s → res (run_with base rest s) = Ok tt →
  u ∈ util_files →
  s !! util_src base u = Some (File data) → s !! util_dst base u ≠ Some Dir →
  fs_of (run_with base rest s) !! util_dst base u = Some (File data).
Proof.
  intros Hwf Hr Hu Hs Hd.
  destruct (run_with_ok base rest s Hr) as (_ & _ & HC & _ & _ & _ & ->).
  assert ((["utils"; "src"] ++ base) `suffix_of` util_dst base u) as Hb.
  { unfold util_dst, joinname. by apply suffix_cons_r. }
  assert ((["webxr-samples-main"] ++ base) `suffix_of` util_src base u) as Hbs.
  { unfold util_src, utils_dir, joinname. by do 2 apply suffix_cons_r. }
  rewrite (writes_lookup base ["utils"; "src"] _ rest_rels rest);
    [|done|done|by vm_compute].
  unfold after_models.
  rewrite (writes_lookup base ["utils"; "src"] _ [gltf_dst_rel]);
    [|done|apply copy_tree_writes|by vm_compute].
  unfold after_textures.
  rewrite (writes_lookup base ["utils"; "src"] _ [tex_dst_rel]);
    [|done|apply copy_tree_writes|by vm_compute].
  unfold after_utils.
  apply copy_utils_copies; try done.
  - by apply after_components_wf.
  - unfold after_components.
    rewrite (writes_lookup base ["webxr-samples-main"] _ [["components"; "src"]]);
      [|done|apply copy_components_writes|by vm_compute].
    rewrite after_dirs_lookup; [done|apply util_src_not_plan].
  - unfold after_components.
    rewrite (writes_lookup base ["utils"; "src"] _ [["components"; "src"]]);
      [|done|apply copy_components_writes|by vm_compute].
    rewrite after_dirs_lookup; [done|apply util_dst_not_plan].
Qed.

Lemma run_util_skipped s u :
  wf s → res (run_with base rest s) = Ok tt →
  s !! util_src base u = None →
  fs_of (run_with base rest s) !! util_dst base u = s !! util_dst base u.
Proof.
  intros Hwf Hr Hs.
  destruct (run_with_ok base rest s Hr) as (_ & _ & HC & _ & _ & _ & ->).
  assert ((["utils"; "src"] ++ base) `suffix_of` util_dst base u) as Hb.
  { unfold util_dst, joinname. by apply suffix_cons_r. }
  assert ((["webxr-samples-main"] ++ base) `suffix_of` util_src base u) as Hbs.
  { unfold util_src, utils_dir, joinname. by do 2 apply suffix_cons_r. }
  rewrite (writes_lookup base ["utils"; "src"] _ rest_rels rest);
    [|done|done|by vm_compute].
  unfold after_models.
  rewrite (writes_lookup base ["utils"; "src"] _ [gltf_dst_rel]);
    [|done|apply copy_tree_writes|by vm_compute].
  unfold after_textures.
  rewrite (writes_lookup base ["utils"; "src"] _ [tex_dst_rel]);
    [|done|apply copy_tree_writes|by vm_compute].
  unfold after_utils.
  rewrite copy_utils_skips.
  - unfold after_components.
    rewrite (writes_lookup base ["utils"; "src"] _ [["components"; "src"]]);
      [|done|apply copy_components_writes|by vm_compute].
    apply after_dirs_lookup, util_dst_not_plan.
  - by apply after_components_wf.
  - unfold after_components.
    rewrite (writes_lookup base ["webxr-samples-main"] _ [["components"; "src"]]);
      [|done|apply copy_components_writes|by vm_compute].
    rewrite after_dirs_lookup; [done|apply util_src_not_plan].
Qed.



End run_effects.

(** ** The exceptions a method can raise *)

































(** * Sample states *)

Definition proj : path := ["proj"].

Definition campus : path := proj </> "Campus-Tour-NYUAD-main".
Definition samples : path := proj </> "webxr-samples-main".

(** A project folder holding both legacy folders: one of the nine known
    components, one of the two utilities, a texture in a subfolder, an empty
    texture folder and a model. *)
Definition legacy_entries : list (path * node) :=
  [([], Dir); (proj, Dir);
   (campus, Dir);
   (campus </> "pinchable.js", File "AFRAME.registerComponent('pinchable', {});");
   (samples, Dir);
   (samples </> "js", Dir);
   (samples </> "js" </> "hit-test.js", File "export class HitTest {}");
   (samples </> "media", Dir);
   (samples </> "media" </> "textures", Dir);
   (samples </> "media" </> "textures" </> "sub", Dir);
   (samples </> "media" </> "textures" </> "sub" </> "a.png", File "PNG");
   (samples </> "media" </> "textures" </> "empty", Dir);
   (samples </> "media" </> "gltf", Dir);
   (samples </> "media" </> "gltf" </> "m.gltf", File "{}")].

Definition legacy_fs : FS := list_to_map legacy_entries.

(** The same, where an earlier layout already has [src/components/menu.js]
    although the legacy folder has no [menu.js]. *)
Definition stale_fs : FS :=
  list_to_map
    (legacy_entries ++
     [(proj </> "src", Dir);
      (proj </> "src" </> "components", Dir);
      (proj </> "src" </> "components" </> "menu.js", File "stale")]).

(** The same, where [src/components/pinchable.js] is a directory. *)
Definition occupied_fs : FS :=
  list_to_map
    (legacy_entries ++
     [(proj </> "src", Dir);
      (proj </> "src" </> "components", Dir);
      (proj </> "src" </> "components" </> "pinchable.js", Dir)]).



Lemma wf_legacy_fs : wf legacy_fs.
Proof. apply (bool_decide_unpack _). by vm_compute. Qed.

Lemma wf_stale_fs : wf stale_fs.
Proof. apply (bool_decide_unpack _). by vm_compute. Qed.

Lemma wf_occupied_fs : wf occupied_fs.
Proof. apply (bool_decide_unpack _). by vm_compute. Qed.



Lemma clean_run_legacy_ok : res (Clean.run (__init__ proj) legacy_fs) = Ok tt.
Proof. by vm_compute. Qed.

Lemma rp_run_legacy_ok :
  res (RestructureProject.run (__init__ proj) legacy_fs) = Ok tt.
Proof. by vm_compute. Qed.

(** * The claims *)

(** ** C2: the directory plan *)

Lemma plan_dirs_new_structure (base : path) :
  plan_dirs base
  = flat_map (λ entry, (base </> entry.1)
                         :: List.map (λ sub, base </> entry.1 </> sub) entry.2)
      (new_structure (__init__ base)).
Proof. reflexivity. Qed.



(** ** C3: running twice *)




(** ** C4: nothing is deleted *)

Definition would_remove (d : string) : string :=
  ("   ⚠️  Would remove: " ++ d ++ " (skipped for safety)")%string.

Lemma cleanup_old_files_out (base : path) (s : FS) :
  out_of (Clean.cleanup_old_files (__init__ base) s)
  = (nl ++ "🧹 Cleaning up old files...")%string
    :: flat_map (λ d, if is_dir_at s (base </> d) then [would_remove d] else [])
         Clean.old_dirs.
Proof.
  unfold Clean.cleanup_old_files, Clean.old_dirs, path_exists, is_dir.
  cbn [for_each flat_map base_path __init__].
  unfold bind at 1. cbn [print res fs_of out_of]. f_equal.
  unfold exists_at, is_dir_at, would_remove.
  unfold bind at 1. rewrite !bind_gets.
  destruct (s !! (base </> "Campus-Tour-NYUAD-main")) as [[|]|];
    cbn [when andb print ret res fs_of out_of];
    unfold bind at 1; rewrite !bind_gets;
    (destruct (s !! (base </> "webxr-samples-main")) as [[|]|];
     cbn [when andb print ret res fs_of out_of];
     unfold bind at 1; rewrite !bind_gets;
     (destruct (s !! (base </> ".git")) as [[|]|];
      cbn [when andb print ret res fs_of out_of]; reflexivity)).
Qed.

(** C4: no run removes anything: every entry present before a run is
    present after it, directories stay directories and files stay files,
    whether the run completes or stops at an exception; everything at and
    below each of the three legacy directories is left exactly as it was;
    and [cleanup_old_files] changes nothing at all, printing one "Would
    remove" line for each legacy directory that exists.  The model has no
    deleting operation because the source calls none: [shutil.rmtree] is
    commented out. *)
Theorem C4_no_legacy_directory_deleted (base : path) (s : FS) :
  (grows s (fs_of (Clean.run (__init__ base) s))
   ∧ grows s (fs_of (RestructureProject.run (__init__ base) s)))
  ∧ (∀ d p, d ∈ Clean.old_dirs → (base </> d) `suffix_of` p →
       fs_of (Clean.run (__init__ base) s) !! p = s !! p
       ∧ fs_of (RestructureProject.run (__init__ base) s) !! p = s !! p)
  ∧ (res (Clean.cleanup_old_files (__init__ base) s) = Ok tt
     ∧ fs_of (Clean.cleanup_old_files (__init__ base) s) = s
     ∧ out_of (Clean.cleanup_old_files (__init__ base) s)
       = (nl ++ "🧹 Cleaning up old files...")%string
         :: flat_map (λ d, if is_dir_at s (base </> d)
                           then [would_remove d] else [])
              Clean.old_dirs).
Proof.
  split; [|split].
  - split.
    + eapply evolves_grows, clean_run_writes.
    + eapply evolves_grows, rp_run_writes.
  - intros d p Hd Hp. unfold Clean.old_dirs in Hd.
    repeat (apply elem_of_cons in Hd as [->|Hd]); try (by apply elem_of_nil in Hd).
    + split.
      * by apply (writes_lookup base ["Campus-Tour-NYUAD-main"] p (all_rels)
                    (Clean.run (__init__ base)) s Hp (clean_run_writes base)).
      * by apply (writes_lookup base ["Campus-Tour-NYUAD-main"] p (rp_all_rels)
                    (RestructureProject.run (__init__ base)) s Hp
                    (rp_run_writes base)).
    + split.
      * by apply (writes_lookup base ["webxr-samples-main"] p (all_rels)
                    (Clean.run (__init__ base)) s Hp (clean_run_writes base)).
      * by apply (writes_lookup base ["webxr-samples-main"] p (rp_all_rels)
                    (RestructureProject.run (__init__ base)) s Hp
                    (rp_run_writes base)).
    + split.
      * by apply (writes_lookup base [".git"] p (all_rels)
                    (Clean.run (__init__ base)) s Hp (clean_run_writes base)).
      * by apply (writes_lookup base [".git"] p (rp_all_rels)
                    (RestructureProject.run (__init__ base)) s Hp
                    (rp_run_writes base)).
  - destruct (cleanup_old_files_looks base s) as [Hr Hs].
    split; [done|]. split; [done|]. apply cleanup_old_files_out.
Qed.

(** ** C6: the two descriptors *)

Lemma clean_package_json_loads :
  json_loads (iterencode 2 0 Clean.package_json) = Some Clean.package_json.
Proof. by vm_compute. Qed.

Lemma clean_vercel_config_loads :
  json_loads (iterencode 2 0 Clean.vercel_config) = Some Clean.vercel_config.
Proof. by vm_compute. Qed.

Lemma rp_package_json_loads :
  json_loads (iterencode 2 0 RestructureProject.package_json)
  = Some RestructureProject.package_json.
Proof. by vm_compute. Qed.

Lemma rp_vercel_config_loads :
  json_loads (iterencode 2 0 RestructureProject.vercel_config)
  = Some RestructureProject.vercel_config.
Proof. by vm_compute. Qed.

(** C6: after a run that completes, [package.json] holds a text that reads
    back as the [package_json] value of the source, whose fields are exactly
    name, version, description, author, license, scripts, keywords and
    repository; and [vercel.json] holds a text that reads back as the
    [vercel_config] value, whose fields are exactly version, builds, routes
    and headers.  Both scripts. *)
Theorem C6_descriptors_read_back (base : path) (s : FS) :
  wf s →
  (res (Clean.run (__init__ base) s) = Ok tt →
   ∃ package vercel,
     fs_of (Clean.run (__init__ base) s) !! (base </> "package.json")
     = Some (File package)
     ∧ json_loads package = Some Clean.package_json
     ∧ fs_of (Clean.run (__init__ base) s) !! (base </> "vercel.json")
       = Some (File vercel)
     ∧ json_loads vercel = Some Clean.vercel_config)
  ∧ (res (RestructureProject.run (__init__ base) s) = Ok tt →
     ∃ package vercel,
       fs_of (RestructureProject.run (__init__ base) s) !! (base </> "package.json")
       = Some (File package)
       ∧ json_loads package = Some RestructureProject.package_json
       ∧ fs_of (RestructureProject.run (__init__ base) s) !! (base </> "vercel.json")
         = Some (File vercel)
       ∧ json_loads vercel = Some RestructureProject.vercel_config)
  ∧ keys Clean.package_json
    = ["name"; "version"; "description"; "author"; "license"; "scripts";
       "keywords"; "repository"]
  ∧ keys RestructureProject.package_json = keys Clean.package_json
  ∧ keys Clean.vercel_config = ["version"; "builds"; "routes"; "headers"]
  ∧ keys RestructureProject.vercel_config = keys Clean.vercel_config.
Proof.
  intros Hwf. split; [|split].
  - intros Hr.
    destruct (clean_run_establishes base s Hwf Hr) as (_ & _ & (Hp & Hv & _) & _).
    eexists _, _. split; [exact Hp|]. split; [exact clean_package_json_loads|].
    split; [exact Hv|exact clean_vercel_config_loads].
  - intros Hr.
    destruct (rp_run_establishes base s Hwf Hr) as (_ & _ & (Hp & Hv) & _).
    eexists _, _. split; [exact Hp|]. split; [exact rp_package_json_loads|].
    split; [exact Hv|exact rp_vercel_config_loads].
  - done.
Qed.

Lemma C6_descriptors_read_back_witness :
  wf legacy_fs
  ∧ res (Clean.run (__init__ proj) legacy_fs) = Ok tt
  ∧ ∃ package vercel,
      fs_of (Clean.run (__init__ proj) legacy_fs) !! (proj </> "package.json")
      = Some (File package)
      ∧ json_loads package = Some Clean.package_json
      ∧ fs_of (Clean.run (__init__ proj) legacy_fs) !! (proj </> "vercel.json")
        = Some (File vercel)
      ∧ json_loads vercel = Some Clean.vercel_config.
Proof.
  split; [exact wf_legacy_fs|]. split; [exact clean_run_legacy_ok|].
  exact (proj1 (C6_descriptors_read_back proj legacy_fs wf_legacy_fs)
           clean_run_legacy_ok).
Defined.

(** ** C7: the documentation files *)

Lemma C7_counterexample :
  wf legacy_fs
  ∧ res (RestructureProject.run (__init__ proj) legacy_fs) = Ok tt
  ∧ fs_of (RestructureProject.run (__init__ proj) legacy_fs)
      !! (proj </> ".gitignore") = None
  ∧ fs_of (RestructureProject.run (__init__ proj) legacy_fs)
      !! (proj </> "docs" </> "TECHNICAL.md") = None.
Proof.
  split; [exact wf_legacy_fs|]. split; [exact rp_run_legacy_ok|].
  split; by vm_compute.
Qed.

Lemma clean_create_documentation_makes_docs (base : path) (s : FS) :
  wf s → s !! base = Some Dir →
  s !! (base </> "README.md") ≠ Some Dir → s !! (base </> "docs") = None →
  res (Clean.create_documentation (__init__ base) s) = Ok tt.
Proof.
  intros Hwf Hb Hreadme Hdocs.
  unfold Clean.create_documentation. cbn [base_path __init__].
  assert (res (write_file (base </> "README.md") Clean.readme_content s) = Ok tt
          ∧ fs_of (write_file (base </> "README.md") Clean.readme_content s)
            = <[base </> "README.md" := File Clean.readme_content]> s)
    as [Hr1 Hs1].
  { destruct (s !! (base </> "README.md")) as [[d|]|] eqn:E; [|done|].
    - by eapply write_file_over.
    - by apply write_file_new. }
  set (s1 := <[base </> "README.md" := File Clean.readme_content]> s) in *.
  assert (s1 !! (base </> "docs") = None) as Hd1.
  { unfold s1. rewrite lookup_insert_ne; [done|]. unfold joinname. congruence. }
  assert (s1 !! base = Some Dir) as Hb1.
  { unfold s1. rewrite lookup_insert_ne; [done|]. unfold joinname.
    intros E%(f_equal length). cbn in E. lia. }
  destruct (mkdir_here_new (base </> "docs") s1 Hd1 Hb1) as [Hr2 Hs2].
  set (s2 := <[base </> "docs" := Dir]> s1) in *.
  assert (res (write_file (base </> "docs" </> "TECHNICAL.md") Clean.tech_doc s2)
          = Ok tt) as Hr3.
  { apply write_file_new.
    - unfold s2, s1. rewrite !lookup_insert_ne;
        [|unfold joinname; intros E%(f_equal length); cbn in E; lia..].
      destruct (s !! (base </> "docs" </> "TECHNICAL.md")) eqn:E; [|done].
      apply wf_lookup in E; [congruence|done].
    - unfold s2. cbn [parent joinname tail]. apply lookup_insert_eq. }
  rewrite print_then_res, (seq_res _ _ s Hr1), Hs1, print_then_res.
  cbn [mkdir]. rewrite (seq_res _ _ s1 Hr2), Hs2.
  by rewrite (seq_res _ _ s2 Hr3).
Qed.

(** [restructure_project.py] writes at the plan directories themselves and
    near the roots of the assets, the two descriptors and [README.md]. *)
Lemma rp_run_precise (base : path) :
  steps (evolves (λ p, p ∈ plan_dirs base
                       ∨ near_any (rooted base
                           (assets_rels ++ rp_config_rels ++ rp_doc_rels)) p))
    (RestructureProject.run (__init__ base)).
Proof.
  unfold RestructureProject.run.
  apply steps_bind; [apply _|apply steps_print; apply _|intros _].
  apply steps_bind; [apply _| |intros _].
  { eapply steps_evolves_mono; [|apply create_directory_structure_evolves].
    intros p Hp. by left. }
  apply steps_bind; [apply _| |intros _].
  { eapply steps_evolves_mono; [|apply move_assets_writes].
    intros p Hp. right. eapply near_any_incl; [|exact Hp]. by vm_compute. }
  apply steps_bind; [apply _| |intros _].
  { eapply steps_evolves_mono; [|apply rp_create_config_files_writes].
    intros p Hp. right. eapply near_any_incl; [|exact Hp]. by vm_compute. }
  apply steps_bind; [apply _| |intros _].
  { eapply steps_evolves_mono; [|apply rp_create_documentation_writes].
    intros p Hp. right. eapply near_any_incl; [|exact Hp]. by vm_compute. }
  repeat first [ apply steps_print; apply _
               | apply steps_bind; [apply _| |intros ?] ].
Qed.

Lemma rp_run_leaves_technical (base : path) (s : FS) :
  fs_of (RestructureProject.run (__init__ base) s)
    !! (base </> "docs" </> "TECHNICAL.md")
  = s !! (base </> "docs" </> "TECHNICAL.md").
Proof.
  eapply evolves_only_in; [apply rp_run_precise|].
  intros [H|H].
  - revert H. by apply legacy_not_plan.
  - eapply (apart_rels_sound base [["TECHNICAL.md"; "docs"]]); [|exact H|].
    + by vm_compute.
    + eapply (below_any_here base _ ["TECHNICAL.md"; "docs"]); [left|done].
Qed.

(** C7 as amended: after a completed run of [clean.py] the base path holds
    [README.md], [docs/TECHNICAL.md] and [.gitignore] with their template
    texts, and [docs] is a directory, which [create_documentation] makes
    itself when it is missing; a run of [restructure_project.py] writes
    [README.md] only, and leaves [.gitignore] and [docs/TECHNICAL.md] as they
    were. *)
Theorem C7_documentation_files (base : path) (s : FS) :
  wf s →
  (res (Clean.run (__init__ base) s) = Ok tt →
   fs_of (Clean.run (__init__ base) s) !! (base </> "README.md")
   = Some (File Clean.readme_content)
   ∧ fs_of (Clean.run (__init__ base) s) !! (base </> "docs") = Some Dir
   ∧ fs_of (Clean.run (__init__ base) s) !! (base </> "docs" </> "TECHNICAL.md")
     = Some (File Clean.tech_doc)
   ∧ fs_of (Clean.run (__init__ base) s) !! (base </> ".gitignore")
     = Some (File Clean.gitignore_content))
  ∧ (s !! base = Some Dir → s !! (base </> "README.md") ≠ Some Dir →
     s !! (base </> "docs") = None →
     res (Clean.create_documentation (__init__ base) s) = Ok tt)
  ∧ (res (RestructureProject.run (__init__ base) s) = Ok tt →
     fs_of (RestructureProject.run (__init__ base) s) !! (base </> "README.md")
     = Some (File RestructureProject.readme_content))
  ∧ fs_of (RestructureProject.run (__init__ base) s) !! (base </> ".gitignore")
    = s !! (base </> ".gitignore")
  ∧ fs_of (RestructureProject.run (__init__ base) s)
      !! (base </> "docs" </> "TECHNICAL.md")
    = s !! (base </> "docs" </> "TECHNICAL.md").
Proof.
  intros Hwf. split; [|split; [|split; [|split]]].
  - intros Hr.
    destruct (clean_run_establishes base s Hwf Hr)
      as (_ & _ & (_ & _ & Hg) & (Hre & Hd & Ht) & _).
    done.
  - by apply clean_create_documentation_makes_docs.
  - intros Hr.
    destruct (rp_run_establishes base s Hwf Hr) as (_ & _ & _ & Hre & _).
    done.
  - apply (writes_lookup base [".gitignore"] _ rp_all_rels
             (RestructureProject.run (__init__ base)) s);
      [done|apply rp_run_writes|by vm_compute].
  - apply rp_run_leaves_technical.
Qed.

Lemma C7_documentation_files_witness :
  wf legacy_fs
  ∧ res (Clean.run (__init__ proj) legacy_fs) = Ok tt
  ∧ fs_of (Clean.run (__init__ proj) legacy_fs) !! (proj </> ".gitignore")
    = Some (File Clean.gitignore_content).
Proof.
  split; [exact wf_legacy_fs|]. split; [exact clean_run_legacy_ok|].
  destruct (C7_documentation_files proj legacy_fs wf_legacy_fs) as (H & _).
  exact (proj2 (proj2 (proj2 (H clean_run_legacy_ok)))).
Defined.

(** ** C8: the command line and the exit status *)









(** ** C1: the known components and utilities *)

Lemma C1_counterexample :
  (wf stale_fs
   ∧ stale_fs !! comp_src proj "pinchable.js"
     = Some (File "AFRAME.registerComponent('pinchable', {});")
   ∧ stale_fs !! comp_src proj "menu.js" = None
   ∧ res (Clean.run (__init__ proj) stale_fs) = Ok tt
   ∧ fs_of (Clean.run (__init__ proj) stale_fs) !! comp_dst proj "menu.js"
     = Some (File "stale")
   ∧ res (RestructureProject.run (__init__ proj) stale_fs) = Ok tt
   ∧ fs_of (RestructureProject.run (__init__ proj) stale_fs)
       !! comp_dst proj "menu.js"
     = Some (File "stale"))
  ∧ (wf occupied_fs
     ∧ occupied_fs !! comp_src proj "pinchable.js"
       = Some (File "AFRAME.registerComponent('pinchable', {});")
     ∧ res (Clean.run (__init__ proj) occupied_fs) = Ok tt
     ∧ fs_of (Clean.run (__init__ proj) occupied_fs)
         !! comp_dst proj "pinchable.js"
       = Some Dir
     ∧ fs_of (Clean.run (__init__ proj) occupied_fs)
         !! (comp_dst proj "pinchable.js" </> "pinchable.js")
       = Some (File "AFRAME.registerComponent('pinchable', {});")).
Proof.
  split.
  - split; [exact wf_stale_fs|]. repeat split; by vm_compute.
  - split; [exact wf_occupied_fs|]. repeat split; by vm_compute.
Qed.

(** What a completed [run] has done for the files of the two fixed lists:
    a legacy file whose destination is not a directory is at its destination,
    byte for byte; where the legacy file is missing the destination is as it
    was. *)
Definition assets_copied_by (base : path) (run : M unit) (s : FS) : Prop :=
  res (run s) = Ok tt →
  (∀ c data, c ∈ aframe_components →
     s !! comp_src base c = Some (File data) →
     s !! comp_dst base c ≠ Some Dir →
     fs_of (run s) !! comp_dst base c = Some (File data))
  ∧ (∀ c, c ∈ aframe_components →
       s !! comp_src base c = None →
       fs_of (run s) !! comp_dst base c = s !! comp_dst base c)
  ∧ (∀ u data, u ∈ util_files →
       s !! util_src base u = Some (File data) →
       s !! util_dst base u ≠ Some Dir →
       fs_of (run s) !! util_dst base u = Some (File data))
  ∧ (∀ u, u ∈ util_files →
       s !! util_src base u = None →
       fs_of (run s) !! util_dst base u = s !! util_dst base u)
  ∧ (∀ data,
       s !! comp_src base "pinchable.js" = Some (File data) →
       s !! comp_src base "menu.js" = None →
       s !! comp_dst base "pinchable.js" ≠ Some Dir →
       s !! comp_dst base "menu.js" = None →
       fs_of (run s) !! comp_dst base "pinchable.js" = Some (File data)
       ∧ fs_of (run s) !! comp_dst base "menu.js" = None).

Lemma run_with_assets_copied (base : path) (rest : M unit) (s : FS) :
  writes base rest_rels rest → wf s →
  assets_copied_by base (run_with base rest) s.
Proof.
  intros Hrest Hwf Hr.
  assert (∀ c data, c ∈ aframe_components →
            s !! comp_src base c = Some (File data) →
            s !! comp_dst base c ≠ Some Dir →
            fs_of (run_with base rest s) !! comp_dst base c = Some (File data))
    as H1 by (intros; by apply run_component_copied).
  assert (∀ c, c ∈ aframe_components → s !! comp_src base c = None →
            fs_of (run_with base rest s) !! comp_dst base c
            = s !! comp_dst base c)
    as H2 by (intros; by apply run_component_skipped).
  split; [exact H1|]. split; [exact H2|].
  split; [intros; by apply run_util_copied|].
  split; [intros; by apply run_util_skipped|].
  intros data Hp Hm Hdp Hdm. split.
  - apply H1; [|done..]. unfold aframe_components. set_solver.
  - rewrite H2; [done| |done]. unfold aframe_components. set_solver.
Qed.

(** C1 as amended: after a run that completes, for every name of the
    component list and of the utility list: if the legacy file is a regular
    file before the run and its destination path is not a directory, the
    destination holds the same bytes; if the legacy file is absent, the
    destination is exactly as it was before (nothing is created there, and a
    file already there stays), and the step itself raises nothing, prints
    nothing and changes nothing.  So with [pinchable.js] present, [menu.js]
    absent and no [menu.js] at the destination beforehand, the components
    folder afterwards has [pinchable.js] with the same bytes and no
    [menu.js].  Both scripts. *)
Theorem C1_known_assets_copied (base : path) (s : FS) :
  wf s →
  assets_copied_by base (Clean.run (__init__ base)) s
  ∧ assets_copied_by base (RestructureProject.run (__init__ base)) s
  ∧ (∀ src dst msg s', s' !! src = None →
       copy_if_exists src dst msg s' = Outcome (Ok tt) s' []).
Proof.
  intros Hwf. split; [|split].
  - rewrite clean_run_shape.
    apply run_with_assets_copied; [apply clean_rest_writes|done].
  - rewrite rp_run_shape.
    apply run_with_assets_copied; [apply rp_rest_writes|done].
  - intros. by apply copy_if_exists_absent.
Qed.

Lemma C1_known_assets_copied_witness :
  wf legacy_fs
  ∧ res (Clean.run (__init__ proj) legacy_fs) = Ok tt
  ∧ fs_of (Clean.run (__init__ proj) legacy_fs) !! comp_dst proj "pinchable.js"
    = Some (File "AFRAME.registerComponent('pinchable', {});")
  ∧ fs_of (Clean.run (__init__ proj) legacy_fs) !! comp_dst proj "menu.js"
    = None.
Proof.
  split; [exact wf_legacy_fs|]. split; [exact clean_run_legacy_ok|].
  destruct (C1_known_assets_copied proj legacy_fs wf_legacy_fs) as (H & _).
  destruct (H clean_run_legacy_ok) as (_ & _ & _ & _ & Hpm).
  apply Hpm; by vm_compute.
Defined.

(** ** C5: the two media trees *)


(** The legacy media directories with their destinations, relative to the
    base path. *)
Definition media_rels : list (path * path) :=
  [(tex_src_rel, tex_dst_rel); (gltf_src_rel, gltf_dst_rel)].





(** ** C9: generated and copied files are overwritten *)








(** ** C10: what the media copy creates *)

Section media_frame.
Variable base : path.

Local Abbreviation self := (__init__ base).
Local Abbreviation tex_src := (tex_src_rel ++ base).
Local Abbreviation tex_dst := (tex_dst_rel ++ base).
Local Abbreviation gltf_src := (gltf_src_rel ++ base).
Local Abbreviation gltf_dst := (gltf_dst_rel ++ base).

(** The state after [_move_media_files]: the second tree is copied from the
    state the first copy leaves, unless the first copy raised. *)
Lemma _move_media_files_fs s :
  fs_of (_move_media_files self s) = fs_of (copy_tree tex_src tex_dst s)
  ∨ fs_of (_move_media_files self s)
    = fs_of (copy_tree gltf_src gltf_dst (fs_of (copy_tree tex_src tex_dst s))).
Proof.
  rewrite _move_media_files_unfold.
  destruct (res (copy_tree tex_src tex_dst s)) as [[]|e] eqn:Hr.
  - right.
    destruct (bind_ok_eq (copy_tree tex_src tex_dst)
                (λ _, copy_tree gltf_src gltf_dst ;; ret tt) s tt Hr) as [_ ->].
    unfold bind.
    by destruct (res (copy_tree gltf_src gltf_dst _)) as [[]|e'].
  - left.
    by destruct (bind_raise_eq (copy_tree tex_src tex_dst)
                   (λ _, copy_tree gltf_src gltf_dst ;; ret tt) s e Hr) as [_ ->].
Qed.

Lemma texture_changes s q :
  wf s → tex_dst `suffix_of` q →
  fs_of (_move_media_files self s) !! q ≠ s !! q →
  ∃ rel data, s !! (rel ++ tex_src) = Some (File data) ∧ rel ≠ []
              ∧ reach tex_src tex_dst rel q.
Proof.
  intros Hwf Hq Hne. apply (copy_tree_changes tex_src tex_dst (tex_apart base));
    [done|].
  destruct (_move_media_files_fs s) as [E|E]; rewrite E in Hne; [done|].
  rewrite (writes_lookup base tex_dst_rel q [gltf_dst_rel]) in Hne;
    [done|done|apply copy_tree_writes|by vm_compute].
Qed.

Lemma model_changes s q :
  wf s → gltf_dst `suffix_of` q →
  fs_of (_move_media_files self s) !! q ≠ s !! q →
  ∃ rel data, s !! (rel ++ gltf_src) = Some (File data) ∧ rel ≠ []
              ∧ reach gltf_src gltf_dst rel q.
Proof.
  intros Hwf Hq Hne.
  set (s1 := fs_of (copy_tree tex_src tex_dst s)).
  assert (s1 !! q = s !! q) as Hq1.
  { apply (writes_lookup base gltf_dst_rel q [tex_dst_rel]);
      [done|apply copy_tree_writes|by vm_compute]. }
  assert (wf s1) as Hwf1.
  { apply sound_wf; [|done]. eapply writes_sound, copy_tree_writes. }
  destruct (_move_media_files_fs s) as [E|E]; rewrite E in Hne; fold s1 in Hne;
    [congruence|].
  rewrite <- Hq1 in Hne.
  destruct (copy_tree_changes gltf_src gltf_dst (gltf_apart base) s1 q Hwf1 Hne)
    as (rel & data & Hf & Hrel & Hreach).
  exists rel, data. split; [|done]. rewrite <- Hf. symmetry.
  apply (writes_lookup base gltf_src_rel _ [tex_dst_rel]);
    [by apply suffix_app_r|apply copy_tree_writes|by vm_compute].
Qed.

(** A directory of the tree with no regular file in or below it is not on
    the way to any copy. *)
Lemma empty_dir_unreached (src dest : path) s rd rel data :
  wf s → rd ≠ [] →
  s !! (rd ++ src) = Some Dir →
  (∀ k d, s !! (k ++ rd ++ src) ≠ Some (File d)) →
  s !! (rel ++ src) = Some (File data) →
  ¬ reach src dest rel (rd ++ dest).
Proof.
  intros Hwf Hrd Hdir Hempty Hf H. unfold reach in H.
  change (name_of (rel ++ src) :: rel ++ dest)
    with ((name_of (rel ++ src) :: rel) ++ dest) in H.
  apply suffix_app_inv in H.
  apply suffix_cons_cases in H as [->|[k ->]].
  - simpl in Hdir. apply wf_lookup in Hdir; [congruence|done].
  - rewrite <- app_assoc in Hf. by apply Hempty in Hf.
Qed.
End media_frame.

(** Everything at and below [p] is a directory: the decidable form of
    "no regular file anywhere in or below [p]". *)
Definition only_dirs_below (s : FS) (p : path) : Prop :=
  map_Forall (λ q n, p `suffix_of` q → n = Dir) s.

Global Instance only_dirs_below_dec s p : Decision (only_dirs_below s p).
Proof. unfold only_dirs_below. apply _. Defined.

Lemma only_dirs_below_spec (s : FS) (p : path) :
  only_dirs_below s p → ∀ k d, s !! (k ++ p) ≠ Some (File d).
Proof.
  intros H k d Hl. apply H in Hl.
  assert (File d = Dir) by by apply Hl, suffix_app_r. done.
Qed.

(** C10: in a well-formed state, [_move_media_files] changes a path at or
    below a destination root only if that path is on the way from the root to
    the copy of a regular file of the legacy tree (the file's own copy, or a
    directory above it); so for a subdirectory of a legacy media tree with no
    regular file anywhere in or below it, the corresponding destination path
    is left exactly as it was, and no directory is created for it. *)
Theorem C10_media_copy_frame (base : path) (s : FS) :
  wf s →
  ∀ srel drel, (srel, drel) ∈ media_rels →
    (∀ q, (drel ++ base) `suffix_of` q →
       fs_of (_move_media_files (__init__ base) s) !! q ≠ s !! q →
       ∃ rel data, rel ≠ []
         ∧ s !! (rel ++ srel ++ base) = Some (File data)
         ∧ q `suffix_of` (name_of (rel ++ srel ++ base) :: rel ++ drel ++ base))
    ∧ (∀ rd, rd ≠ [] →
         s !! (rd ++ srel ++ base) = Some Dir →
         (∀ k d, s !! (k ++ rd ++ srel ++ base) ≠ Some (File d)) →
         fs_of (_move_media_files (__init__ base) s) !! (rd ++ drel ++ base)
         = s !! (rd ++ drel ++ base)).
Proof.
  intros Hwf srel drel Hin.
  assert (∀ q, (drel ++ base) `suffix_of` q →
            fs_of (_move_media_files (__init__ base) s) !! q ≠ s !! q →
            ∃ rel data, s !! (rel ++ srel ++ base) = Some (File data) ∧ rel ≠ []
                        ∧ reach (srel ++ base) (drel ++ base) rel q) as Hch.
  { unfold media_rels in Hin.
    repeat (apply elem_of_cons in Hin as [[= -> ->]|Hin]);
      try (by apply elem_of_nil in Hin).
    - intros q. by apply texture_changes.
    - intros q. by apply model_changes. }
  split.
  - intros q Hq Hne. destruct (Hch q Hq Hne) as (rel & data & Hf & Hrel & Hr).
    exists rel, data. done.
  - intros rd Hrd Hdir Hempty.
    destruct (decide (fs_of (_move_media_files (__init__ base) s)
                        !! (rd ++ drel ++ base) = s !! (rd ++ drel ++ base)))
      as [E|Hne]; [done|].
    destruct (Hch _ (suffix_app_r _ _ _ (reflexivity _)) Hne)
      as (rel & data & Hf & Hrel & Hr).
    exfalso.
    exact (empty_dir_unreached (srel ++ base) (drel ++ base) s rd rel data
             Hwf Hrd Hdir Hempty Hf Hr).
Qed.

Lemma C10_media_copy_frame_witness :
  wf legacy_fs
  ∧ legacy_fs !! (["empty"] ++ tex_src_rel ++ proj) = Some Dir
  ∧ fs_of (_move_media_files (__init__ proj) legacy_fs)
      !! (["empty"] ++ tex_dst_rel ++ proj)
    = legacy_fs !! (["empty"] ++ tex_dst_rel ++ proj).
Proof.
  split; [exact wf_legacy_fs|]. split; [by vm_compute|].
  refine (proj2 (C10_media_copy_frame proj legacy_fs wf_legacy_fs
                   tex_src_rel tex_dst_rel _) ["empty"] _ _ _).
  - unfold media_rels. left.
  - done.
  - by vm_compute.
  - apply (only_dirs_below_spec legacy_fs (["empty"] ++ tex_src_rel ++ proj)).
    apply (bool_decide_unpack _). by vm_compute.
Defined.
